(** * Order-fulfilment pipeline: shopping-cart coordinator and warehouse consumer

  A shallow embedding of [shopping-cart-service/main.go],
  [warehouse-service/main.go] and [credit-card-authorizer/main.go].

  - Go's [int] and [int64] (the images are built with GOARCH=amd64) are
    integers in [Z] with the two's-complement wrap-around written out.
  - [float64] is Rocq's primitive binary64 float.
  - [sync.Map] and [map[string]int64] are [gmap string _].
  - The collaborators (payment gateway, broker, uuid generator, clock) are
    oracles of an environment record; every call to one of them is logged
    as an effect, so that "is never contacted" is a statement about the log.
  - JSON texts enter the model already scanned by [encoding/json]: either
    rejected by the scanner or a value tree that the decoder stores into
    a Go struct. *)

From Stdlib Require Import ZArith Floats Uint63.
From stdpp Require Import gmap strings list fin_maps pretty.

Set Warnings "-register-all".

Local Open Scope Z_scope.

(** ** Machine integers and floats *)

Module GoInt.

Definition min_int : Z := - 2 ^ 63.
Definition max_int : Z := 2 ^ 63 - 1.

Definition in_range (z : Z) : bool := (min_int <=? z) && (z <=? max_int).

(** Two's-complement reduction of a mathematical integer to 64 bits. *)
Definition wrap (z : Z) : Z := (z + 2 ^ 63) mod 2 ^ 64 - 2 ^ 63.

(** Go's [+] on [int] / [int64]; [+=] and [atomic.AddInt64] use it. *)
Definition add (a b : Z) : Z := wrap (a + b).

(** Go's conversion [float64(n)] of a 64-bit integer: round to nearest,
    ties to even. *)
Definition to_float64 (z : Z) : float :=
  if z =? min_int then (- (PrimFloat.of_uint63 (Uint63.of_Z (2 ^ 62)) * 2))%float
  else if z <? 0 then (- PrimFloat.of_uint63 (Uint63.of_Z (- z)))%float
  else PrimFloat.of_uint63 (Uint63.of_Z z).

End GoInt.

(** ** JSON values and the struct decoder of [encoding/json] *)

Module Json.

(** A scanned JSON text.  A number keeps what the decoder needs: an integer
    literal carries its value, a literal with a fraction or an exponent
    carries its text (Go refuses to store one into an [int] field). *)
Inductive value : Type :=
| JNull
| JBool (b : bool)
| JInt (z : Z)
| JFrac (literal : string)
| JString (s : string)
| JArray (elems : list value)
| JObject (members : list (string * value)).

Definition lower_ascii (c : Ascii.ascii) : Ascii.ascii :=
  let n := Ascii.N_of_ascii c in
  if ((65 <=? n) && (n <=? 90))%N then Ascii.ascii_of_N (n + 32) else c.

(** Case folding of a member name, on its UTF-8 bytes: ASCII letters fold
    to lower case, and the two letters outside ASCII that fold to an ASCII
    one do so too (U+017F, bytes C5 BF, to s; U+212A, bytes E2 84 AA,
    to k). *)
Fixpoint foldName (s : string) : string :=
  match s with
  | EmptyString => EmptyString
  | String c s' =>
      let plain := String (lower_ascii c) (foldName s') in
      match s' with
      | String c1 s1 =>
          if ((Ascii.N_of_ascii c =? 197) && (Ascii.N_of_ascii c1 =? 191))%N
          then String (Ascii.ascii_of_N 115) (foldName s1)
          else match s1 with
               | String c2 s2 =>
                   if ((Ascii.N_of_ascii c =? 226) && (Ascii.N_of_ascii c1 =? 132)
                       && (Ascii.N_of_ascii c2 =? 170))%N
                   then String (Ascii.ascii_of_N 107) (foldName s2)
                   else plain
               | EmptyString => plain
               end
      | EmptyString => plain
      end
  end.

(** A member [key] addresses the struct field tagged [name] when the names
    are equal or, failing that, equal up to case. *)
Definition key_matches (name key : string) : bool :=
  bool_decide (key = name) || bool_decide (foldName key = foldName name).

(** Storing a JSON value into a Go [string]: a string is stored, [null]
    leaves the field as it is, anything else is an UnmarshalTypeError. *)
Definition store_string (v : value) (cur : string) : option string :=
  match v with
  | JString s => Some s
  | JNull => Some cur
  | _ => None
  end.

(** Storing into a Go [int]: an integer literal within 64 bits. *)
Definition store_int (v : value) (cur : Z) : option Z :=
  match v with
  | JInt z => if GoInt.in_range z then Some z else None
  | JNull => Some cur
  | _ => None
  end.

(** Storing the elements of a JSON array into the array behind a slice:
    element [i] is decoded into what that array holds at index [i] and, past
    its end, into a zero [T].  [backing] is that array as far as it has
    been written. *)
Fixpoint store_elems {T} (elem : value -> T -> option T) (zero : T)
    (elems : list value) (backing : list T) : option (list T) :=
  match elems with
  | [] => Some []
  | e :: rest =>
      x ← elem e (match backing with b :: _ => b | [] => zero end);
      xs ← store_elems elem zero rest (tail backing);
      Some (x :: xs)
  end.

(** Storing into a [[]T].  The decoder does not clear the slice: it
    decodes the array's elements one by one into the slice's own array -
    into the elements [cur] the slice has, then into those that an
    earlier, longer value of the slice left behind it ([spare]), then into
    zero values - and sets the length to the number of elements; what the
    array holds beyond that stays behind the slice.  An empty array gives a
    fresh empty slice, and [null] sets the slice to nil.  The result is
    the slice and what is left behind it. *)
Definition store_slice {T} (elem : value -> T -> option T) (zero : T)
    (v : value) (cur spare : list T) : option (list T * list T) :=
  match v with
  | JArray [] => Some ([], [])
  | JArray elems =>
      xs ← store_elems elem zero elems (cur ++ spare);
      Some (xs, drop (length elems) (cur ++ spare))
  | JNull => Some ([], [])
  | _ => None
  end.

(** Storing into a struct: [null] is a no-op, an object stores its members
    one after the other through [field] (which skips unknown keys), any
    other value is an UnmarshalTypeError. *)
Definition store_struct {T} (field : string -> value -> T -> option T)
    (v : value) (cur : T) : option T :=
  match v with
  | JNull => Some cur
  | JObject members =>
      foldl (fun acc kv => acc ≫= field kv.1 kv.2) (Some cur) members
  | _ => None
  end.

End Json.

(** ** shopping-cart-service/main.go *)

Module Cart.

(** [time.Time]: an instant, kept abstract. *)
Definition Time : Type := Z.

Record CartItem : Type := {
  ProductID : string;
  Quantity : Z
}.

Record ShoppingCart : Type := {
  CartID : string;
  CustomerID : string;
  Items : list CartItem;
  CreatedAt : Time
}.

Record CreateCartRequest : Type := {
  CreateCartRequest_CustomerID : string   (* binding:"required" *)
}.

Record AddItemRequest : Type := {
  AddItemRequest_ProductID : string;      (* binding:"required" *)
  AddItemRequest_Quantity : Z             (* binding:"required,min=1,max=10000" *)
}.

Record CheckoutRequest : Type := {
  CreditCardNumber : string               (* binding:"required" *)
}.

Record CCARequest : Type := {
  CCARequest_CreditCardNumber : string;
  Amount : float
}.

Record CCAResponse : Type := {
  Status : string;
  TransactionID : string;
  Message : string
}.

Record WarehouseOrder : Type := {
  OrderID : string;
  WarehouseOrder_CartID : string;
  WarehouseOrder_CustomerID : string;
  WarehouseOrder_Items : list CartItem;
  Timestamp : string
}.

(** Go [error] values built by this service, one constructor per
    [fmt.Errorf] format; the wrapped cause is kept where there is one. *)
Inductive error : Type :=
| ErrMarshalRequest                      (* "failed to marshal request: %w" *)
| ErrCallCCA (cause : string)            (* "failed to call CCA service: %w" *)
| ErrDecodeCCA                           (* "failed to decode CCA response: %w" *)
| ErrInvalidCardFormat (message : string)(* "invalid credit card format: %s" *)
| ErrCCAStatus (code : Z)                (* "CCA service returned status %d" *)
| ErrPublish (cause : string).           (* "failed to publish message: %w" *)

(** What [http.Post] gives back: a transport error, or a response with its
    status code and its body as the JSON decoder scans it ([None]: the body
    is not a JSON text). *)
Inductive HttpResult : Type :=
| HttpFailed (cause : string)
| HttpResponse (StatusCode : Z) (Body : option Json.value).

(** The collaborators as seen by one handler invocation. *)
Record Env : Type := {
  uuid_New : string;                               (* uuid.New().String() *)
  time_Now : Time;                                 (* time.Now() *)
  time_Format_RFC3339 : Time -> string;            (* t.Format(time.RFC3339) *)
  http_Post : CCARequest -> HttpResult;            (* POST {CCA}/authorize *)
  amqp_Publish : WarehouseOrder -> option string   (* rabbitmqCh.Publish error *)
}.

(** Calls that leave the process. *)
Inductive Effect : Type :=
| CallCCA (req : CCARequest)
| PublishOrder (order : WarehouseOrder).

(** The [message] member of a failure body: [err.Error()] or a plain text. *)
Inductive Detail : Type :=
| OfError (e : error)
| Text (s : string).

(** The JSON bodies the handlers write. *)
Inductive Payload : Type :=
| PError (err : string)
| PFailure (err : string) (message : Detail)
| PCart (cart : ShoppingCart)
| PCheckout (message order_id authorization_status transaction_id : string)
            (total_amount : float).

Record Response : Type := {
  status : Z;
  payload : Payload
}.

(** Outcome of a handler: what it wrote, the cart store it leaves, and the
    outside calls it made, in order. *)
Record Result : Type := {
  response : Response;
  store : gmap string ShoppingCart;
  effects : list Effect
}.

Definition StatusOK : Z := 200.
Definition StatusCreated : Z := 201.
Definition StatusBadRequest : Z := 400.
Definition StatusPaymentRequired : Z := 402.
Definition StatusNotFound : Z := 404.
Definition StatusInternalServerError : Z := 500.

Definition reply (carts : gmap string ShoppingCart) (fx : list Effect)
    (code : Z) (p : Payload) : Result :=
  {| response := {| status := code; payload := p |}; store := carts; effects := fx |}.

(** *** Request binding: JSON decoding, then the [binding] tags *)

Definition CreateCartRequest_field (key : string) (v : Json.value)
    (r : CreateCartRequest) : option CreateCartRequest :=
  if Json.key_matches "customer_id" key then
    s ← Json.store_string v (CreateCartRequest_CustomerID r);
    Some {| CreateCartRequest_CustomerID := s |}
  else Some r.

Definition AddItemRequest_field (key : string) (v : Json.value)
    (r : AddItemRequest) : option AddItemRequest :=
  if Json.key_matches "product_id" key then
    s ← Json.store_string v (AddItemRequest_ProductID r);
    Some {| AddItemRequest_ProductID := s;
            AddItemRequest_Quantity := AddItemRequest_Quantity r |}
  else if Json.key_matches "quantity" key then
    q ← Json.store_int v (AddItemRequest_Quantity r);
    Some {| AddItemRequest_ProductID := AddItemRequest_ProductID r;
            AddItemRequest_Quantity := q |}
  else Some r.

Definition CheckoutRequest_field (key : string) (v : Json.value)
    (r : CheckoutRequest) : option CheckoutRequest :=
  if Json.key_matches "credit_card_number" key then
    s ← Json.store_string v (CreditCardNumber r);
    Some {| CreditCardNumber := s |}
  else Some r.

(** [required] on a string: not the zero value. *)
Definition required (s : string) : bool := negb (bool_decide (s = "")).

Definition ShouldBindJSON_CreateCartRequest (body : option Json.value)
    : option CreateCartRequest :=
  v ← body;
  r ← Json.store_struct CreateCartRequest_field v {| CreateCartRequest_CustomerID := "" |};
  if required (CreateCartRequest_CustomerID r) then Some r else None.

Definition ShouldBindJSON_AddItemRequest (body : option Json.value)
    : option AddItemRequest :=
  v ← body;
  r ← Json.store_struct AddItemRequest_field v
        {| AddItemRequest_ProductID := ""; AddItemRequest_Quantity := 0 |};
  if required (AddItemRequest_ProductID r)
     && negb (AddItemRequest_Quantity r =? 0)
     && (1 <=? AddItemRequest_Quantity r)
     && (AddItemRequest_Quantity r <=? 10000)
  then Some r else None.

Definition ShouldBindJSON_CheckoutRequest (body : option Json.value)
    : option CheckoutRequest :=
  v ← body;
  r ← Json.store_struct CheckoutRequest_field v {| CreditCardNumber := "" |};
  if required (CreditCardNumber r) then Some r else None.

(** *** Handlers *)

Definition createCart (env : Env) (carts : gmap string ShoppingCart)
    (body : option Json.value) : Result :=
  match ShouldBindJSON_CreateCartRequest body with
  | None => reply carts [] StatusBadRequest (PError "invalid request body")
  | Some req =>
      let cart := {| CartID := uuid_New env;
                     CustomerID := CreateCartRequest_CustomerID req;
                     Items := [];
                     CreatedAt := time_Now env |} in
      reply (<[CartID cart := cart]> carts) [] StatusCreated (PCart cart)
  end.

Definition getCart (carts : gmap string ShoppingCart) (cartID : string) : Result :=
  match carts !! cartID with
  | None => reply carts [] StatusNotFound (PError "cart not found")
  | Some cart => reply carts [] StatusOK (PCart cart)
  end.

(** The loop of [addItemToCart]: at the first line with the requested
    product the quantity is increased and the loop breaks; [None] is
    [found == false]. *)
Fixpoint merge_existing (items : list CartItem) (req : AddItemRequest)
    : option (list CartItem) :=
  match items with
  | [] => None
  | it :: rest =>
      if bool_decide (ProductID it = AddItemRequest_ProductID req) then
        Some ({| ProductID := ProductID it;
                 Quantity := GoInt.add (Quantity it) (AddItemRequest_Quantity req) |}
              :: rest)
      else (it ::.) <$> merge_existing rest req
  end.

(** The conversion [CartItem(req)]. *)
Definition CartItem_of (req : AddItemRequest) : CartItem :=
  {| ProductID := AddItemRequest_ProductID req;
     Quantity := AddItemRequest_Quantity req |}.

Definition add_item (items : list CartItem) (req : AddItemRequest) : list CartItem :=
  match merge_existing items req with
  | Some items' => items'
  | None => items ++ [CartItem_of req]
  end.

Definition addItemToCart (carts : gmap string ShoppingCart) (cartID : string)
    (body : option Json.value) : Result :=
  match ShouldBindJSON_AddItemRequest body with
  | None => reply carts [] StatusBadRequest (PError "invalid request body")
  | Some req =>
      match carts !! cartID with
      | None => reply carts [] StatusNotFound (PError "cart not found")
      | Some cart =>
          let cart' := {| CartID := CartID cart;
                          CustomerID := CustomerID cart;
                          Items := add_item (Items cart) req;
                          CreatedAt := CreatedAt cart |} in
          reply (<[cartID := cart']> carts) [] StatusOK (PCart cart')
      end
  end.

(** $10 per item, accumulated in [float64]; the product and the sum are
    rounded one after the other (the amd64 build does not fuse them). *)
Definition calculateTotal (items : list CartItem) : float :=
  foldl (fun total item => (total + GoInt.to_float64 (Quantity item) * 10)%float)
        0%float items.

(** [json.Marshal] of a [CCARequest] fails exactly on an amount that JSON
    cannot write (NaN or an infinity). *)
Definition json_Marshal_CCARequest (req : CCARequest) : option CCARequest :=
  if PrimFloat.is_nan (Amount req) || PrimFloat.is_infinity (Amount req)
  then None else Some req.

Definition CCAResponse_field (key : string) (v : Json.value)
    (r : CCAResponse) : option CCAResponse :=
  if Json.key_matches "status" key then
    s ← Json.store_string v (Status r);
    Some {| Status := s; TransactionID := TransactionID r; Message := Message r |}
  else if Json.key_matches "transaction_id" key then
    s ← Json.store_string v (TransactionID r);
    Some {| Status := Status r; TransactionID := s; Message := Message r |}
  else if Json.key_matches "message" key then
    s ← Json.store_string v (Message r);
    Some {| Status := Status r; TransactionID := TransactionID r; Message := s |}
  else Some r.

Definition decode_CCAResponse (body : option Json.value) : option CCAResponse :=
  v ← body;
  Json.store_struct CCAResponse_field v
    {| Status := ""; TransactionID := ""; Message := "" |}.

(** [authorizePayment]: the result and the outside calls made. *)
Definition authorizePayment (env : Env) (req : CCARequest)
    : (CCAResponse + error) * list Effect :=
  match json_Marshal_CCARequest req with
  | None => (inr ErrMarshalRequest, [])
  | Some jsonData =>
      match http_Post env jsonData with
      | HttpFailed cause => (inr (ErrCallCCA cause), [CallCCA jsonData])
      | HttpResponse code body =>
          match decode_CCAResponse body with
          | None => (inr ErrDecodeCCA, [CallCCA jsonData])
          | Some ccaResp =>
              if code =? StatusPaymentRequired then (inl ccaResp, [CallCCA jsonData])
              else if code =? StatusBadRequest then
                (inr (ErrInvalidCardFormat (Message ccaResp)), [CallCCA jsonData])
              else if negb (code =? StatusOK) then
                (inr (ErrCCAStatus code), [CallCCA jsonData])
              else (inl ccaResp, [CallCCA jsonData])
          end
      end
  end.

(** [publishToWarehouse]: marshalling an order of strings and ints cannot
    fail, so the only error is the broker's. *)
Definition publishToWarehouse (env : Env) (order : WarehouseOrder)
    : option error * list Effect :=
  match amqp_Publish env order with
  | Some cause => (Some (ErrPublish cause), [PublishOrder order])
  | None => (None, [PublishOrder order])
  end.

Definition checkout (env : Env) (carts : gmap string ShoppingCart)
    (cartID : string) (body : option Json.value) : Result :=
  match ShouldBindJSON_CheckoutRequest body with
  | None => reply carts [] StatusBadRequest (PError "invalid request body")
  | Some req =>
      match carts !! cartID with
      | None => reply carts [] StatusNotFound (PError "cart not found")
      | Some cart =>
          if bool_decide (length (Items cart) = 0%nat) then
            reply carts [] StatusBadRequest (PError "cannot checkout empty cart")
          else
            let amount := calculateTotal (Items cart) in
            let ccaReq := {| CCARequest_CreditCardNumber := CreditCardNumber req;
                             Amount := amount |} in
            match authorizePayment env ccaReq with
            | (inr err, fx) =>
                reply carts fx StatusInternalServerError
                  (PFailure "payment authorization failed" (OfError err))
            | (inl ccaResp, fx) =>
                if negb (bool_decide (Status ccaResp = "Authorized")) then
                  reply carts fx StatusPaymentRequired
                    (PFailure "payment declined" (Text (Message ccaResp)))
                else
                  let orderID := uuid_New env in
                  let order := {| OrderID := orderID;
                                  WarehouseOrder_CartID := cartID;
                                  WarehouseOrder_CustomerID := CustomerID cart;
                                  WarehouseOrder_Items := Items cart;
                                  Timestamp := time_Format_RFC3339 env (time_Now env) |} in
                  match publishToWarehouse env order with
                  | (Some err, fx') =>
                      reply carts (fx ++ fx') StatusInternalServerError
                        (PFailure "failed to send order to warehouse" (OfError err))
                  | (None, fx') =>
                      reply (delete cartID carts) (fx ++ fx') StatusOK
                        (PCheckout "checkout successful" orderID "Authorized"
                                   (TransactionID ccaResp) amount)
                  end
            end
      end
  end.

(** *** Sequences of requests

    The handlers are taken one at a time: a request is served to its end
    before the next one starts.  Within one handler the slice of items
    loaded from the store shares its array with the stored cart, but the
    handler stores its own copy under the same id before it returns, so a
    cart can be treated as a value. *)

Inductive Request : Type :=
| CreateCart (env : Env) (body : option Json.value)
| GetCart (cartID : string)
| AddItem (cartID : string) (body : option Json.value)
| Checkout (env : Env) (cartID : string) (body : option Json.value).

Definition handle (carts : gmap string ShoppingCart) (r : Request) : Result :=
  match r with
  | CreateCart env body => createCart env carts body
  | GetCart cartID => getCart carts cartID
  | AddItem cartID body => addItemToCart carts cartID body
  | Checkout env cartID body => checkout env carts cartID body
  end.

(** The store after serving the requests one after the other, starting from
    the empty store the process begins with. *)
Definition serve (rs : list Request) : gmap string ShoppingCart :=
  foldl (fun carts r => store (handle carts r)) ∅ rs.

(** *** The rest of the service: health check, wire format, start-up *)

(** The body of [GET /health]. *)
Record Health : Type := {
  health_status : string;
  health_rabbitmq : string;
  health_carts_count : Z
}.

(** [healthCheck]: [conn] is [rabbitmqConn] ([None]: nil, [Some closed]
    otherwise); the carts are counted with [carts.Range]. *)
Definition healthCheck (conn : option bool) (carts : gmap string ShoppingCart)
    : Z * Health :=
  (StatusOK,
   {| health_status := "healthy";
      health_rabbitmq := match conn with
                         | Some false => "connected"
                         | _ => "disconnected"
                         end;
      health_carts_count := Z.of_nat (size carts) |}).

(** [json.Marshal] of a [CartItem] and of a [WarehouseOrder], as the
    consumer's scanner reads it back: the members in the order of the
    struct's fields, under the names of the [json] tags.  ([checkout] only
    publishes a non-empty, hence non-nil, slice of items; the strings of
    an order are valid UTF-8 - they come from the JSON decoder, from
    [uuid.New] and from [time.Format] - and so are written as they
    are.) *)
Definition json_Marshal_CartItem (item : CartItem) : Json.value :=
  Json.JObject [("product_id", Json.JString (ProductID item));
                ("quantity", Json.JInt (Quantity item))].

Definition json_Marshal_WarehouseOrder (order : WarehouseOrder) : Json.value :=
  Json.JObject [("order_id", Json.JString (OrderID order));
                ("cart_id", Json.JString (WarehouseOrder_CartID order));
                ("customer_id", Json.JString (WarehouseOrder_CustomerID order));
                ("items", Json.JArray (json_Marshal_CartItem <$> WarehouseOrder_Items order));
                ("timestamp", Json.JString (Timestamp order))].

(** What [initRabbitMQ] asks of the outside, in order. *)
Inductive StartupEvent : Type :=
| Dial (attempt : nat)                 (* amqp.Dial(rabbitmqURL) *)
| Sleep (seconds : Z)                  (* time.Sleep *)
| OpenChannel                          (* rabbitmqConn.Channel() *)
| QueueDeclare (name : string) (durable : bool).

Inductive StartupError : Type :=
| ErrConnect (cause : string)          (* "could not connect to RabbitMQ: %w" *)
| ErrOpenChannel (cause : string)      (* "failed to open channel: %w" *)
| ErrDeclareQueue (cause : string).    (* "failed to declare queue: %w" *)

(** The broker as [initRabbitMQ] meets it: the error of the dial attempt
    number [i] ([None]: connected), of opening a channel and of declaring
    the queue. *)
Record Broker : Type := {
  amqp_Dial : nat -> option string;
  conn_Channel : option string;
  ch_QueueDeclare : option string
}.

(** The loop [for i := 0; i < 5; i++]: [i] is the loop variable, [left]
    the iterations left, [err] the value of [err] on entry; the result is
    [err] after the loop. *)
Fixpoint dial_loop (broker : Broker) (i left : nat) (err : option string)
    : option string * list StartupEvent :=
  match left with
  | O => (err, [])
  | S left' =>
      match amqp_Dial broker i with
      | None => (None, [Dial i])
      | Some e =>
          let '(err', events) := dial_loop broker (S i) left' (Some e) in
          (err', Dial i :: Sleep 5 :: events)
      end
  end.

Definition initRabbitMQ (broker : Broker) : option StartupError * list StartupEvent :=
  let '(err, events) := dial_loop broker 0 5 None in
  match err with
  | Some e => (Some (ErrConnect e), events)
  | None =>
      match conn_Channel broker with
      | Some e => (Some (ErrOpenChannel e), events ++ [OpenChannel])
      | None =>
          match ch_QueueDeclare broker with
          | Some e =>
              (Some (ErrDeclareQueue e),
               events ++ [OpenChannel; QueueDeclare "warehouse_orders" true])
          | None =>
              (None, events ++ [OpenChannel; QueueDeclare "warehouse_orders" true])
          end
      end
  end.

End Cart.

(** ** warehouse-service/main.go *)

Module Warehouse.

Record CartItem : Type := {
  ProductID : string;
  Quantity : Z
}.

Record WarehouseOrder : Type := {
  OrderID : string;
  CartID : string;
  CustomerID : string;
  Items : list CartItem;
  Timestamp : string
}.

(** An [amqp.Delivery]: the broker's tag and the body as [json.Unmarshal]
    scans it ([None]: the bytes are not one JSON text). *)
Record Delivery : Type := {
  DeliveryTag : N;
  Body : option Json.value
}.

(** What a worker tells the broker about a delivery:
    [msg.Ack(multiple)] or [msg.Nack(multiple, requeue)]. *)
Inductive Verdict : Type :=
| Ack (multiple : bool)
| Nack (multiple requeue : bool).

(** [numWorkers] and the capacity of [messageChan]. *)
Definition numWorkers : nat := 10.
Definition messageChan_cap : nat := numWorkers * 2.

(** *** Decoding a body into a [WarehouseOrder] *)

Definition zero_CartItem : CartItem := {| ProductID := ""; Quantity := 0 |}.

Definition zero_WarehouseOrder : WarehouseOrder :=
  {| OrderID := ""; CartID := ""; CustomerID := ""; Items := []; Timestamp := "" |}.

Definition CartItem_field (key : string) (v : Json.value) (r : CartItem)
    : option CartItem :=
  if Json.key_matches "product_id" key then
    s ← Json.store_string v (ProductID r);
    Some {| ProductID := s; Quantity := Quantity r |}
  else if Json.key_matches "quantity" key then
    q ← Json.store_int v (Quantity r);
    Some {| ProductID := ProductID r; Quantity := q |}
  else Some r.

(** The order while it is decoded goes with the items that the array
    behind [Items] holds beyond the slice's length: a member that occurs
    twice is stored twice, the second time into what the first left. *)
Definition WarehouseOrder_field (key : string) (v : Json.value)
    (st : WarehouseOrder * list CartItem) : option (WarehouseOrder * list CartItem) :=
  let r := st.1 in
  if Json.key_matches "order_id" key then
    s ← Json.store_string v (OrderID r);
    Some ({| OrderID := s; CartID := CartID r; CustomerID := CustomerID r;
             Items := Items r; Timestamp := Timestamp r |}, st.2)
  else if Json.key_matches "cart_id" key then
    s ← Json.store_string v (CartID r);
    Some ({| OrderID := OrderID r; CartID := s; CustomerID := CustomerID r;
             Items := Items r; Timestamp := Timestamp r |}, st.2)
  else if Json.key_matches "customer_id" key then
    s ← Json.store_string v (CustomerID r);
    Some ({| OrderID := OrderID r; CartID := CartID r; CustomerID := s;
             Items := Items r; Timestamp := Timestamp r |}, st.2)
  else if Json.key_matches "items" key then
    l ← Json.store_slice (Json.store_struct CartItem_field) zero_CartItem v (Items r) st.2;
    Some ({| OrderID := OrderID r; CartID := CartID r; CustomerID := CustomerID r;
             Items := l.1; Timestamp := Timestamp r |}, l.2)
  else if Json.key_matches "timestamp" key then
    s ← Json.store_string v (Timestamp r);
    Some ({| OrderID := OrderID r; CartID := CartID r; CustomerID := CustomerID r;
             Items := Items r; Timestamp := s |}, st.2)
  else Some st.

(** [json.Unmarshal(msg.Body, &order)] on a fresh [order]; [None] is a
    non-nil error. *)
Definition json_Unmarshal (body : option Json.value) : option WarehouseOrder :=
  v ← body;
  st ← Json.store_struct WarehouseOrder_field v (zero_WarehouseOrder, []);
  Some st.1.

(** *** The aggregate counters, and one worker taken alone *)

Record Stats : Type := {
  totalOrders : Z;                 (* int64, updated with sync/atomic *)
  productQty : gmap string Z       (* map[string]int64, under productMutex *)
}.

Definition initial_stats : Stats := {| totalOrders := 0; productQty := ∅ |}.

(** Reading [productQty[p]]: a missing key reads as 0. *)
Definition quantity_of (m : gmap string Z) (p : string) : Z := default 0 (m !! p).

(** [productQty[item.ProductID] += int64(item.Quantity)]. *)
Definition add_quantity (m : gmap string Z) (item : CartItem) : gmap string Z :=
  <[ProductID item := GoInt.add (quantity_of m (ProductID item)) (Quantity item)]> m.

Definition processOrder (order : WarehouseOrder) (st : Stats) : Stats :=
  {| totalOrders := GoInt.add (totalOrders st) 1;
     productQty := foldl add_quantity (productQty st) (Items order) |}.

(** The body of the loop of [processMessages] for one delivery: the
    counters afterwards and what the broker is told. *)
Definition process_delivery (st : Stats) (msg : Delivery) : Stats * Verdict :=
  match json_Unmarshal (Body msg) with
  | None => (st, Nack false false)
  | Some order => (processOrder order st, Ack false)
  end.

(** [processMessages] draining a channel that holds [chan] and is then
    closed: the final counters and the verdicts in the order given. *)
Fixpoint processMessages (st : Stats) (chan : list Delivery)
    : Stats * list (Delivery * Verdict) :=
  match chan with
  | [] => (st, [])
  | msg :: rest =>
      let '(st', v) := process_delivery st msg in
      let '(st'', vs) := processMessages st' rest in
      (st'', (msg, v) :: vs)
  end.

(** *** The worker pool, one atomic action at a time

    Every worker is at one of the program points below.  An action is one
    channel operation, one atomic add, one mutex operation, one map read or
    one map write, so that the read and the write of
    [productQty[k] += v] are separate actions which other workers may
    run between, were it not for the mutex.  The broker's prefetch limit
    only removes interleavings; it is left out, so that every interleaving
    the goroutines allow is covered.  A failed [msg.Ack] is only logged,
    so its error is not kept. *)

Inductive Worker : Type :=
| Receive                                                   (* for msg := range messageChan *)
| Unmarshal (msg : Delivery)                                (* json.Unmarshal(msg.Body, &order) *)
| AddOrder (msg : Delivery) (order : WarehouseOrder)        (* atomic.AddInt64(&totalOrders, 1) *)
| Lock (msg : Delivery) (items : list CartItem)             (* range order.Items; productMutex.Lock() *)
| Load (msg : Delivery) (item : CartItem) (rest : list CartItem)           (* read productQty[k] *)
| Store (msg : Delivery) (item : CartItem) (rest : list CartItem) (old : Z)(* write productQty[k] *)
| Unlock (msg : Delivery) (rest : list CartItem)            (* productMutex.Unlock() *)
| Acknowledge (msg : Delivery)                              (* msg.Ack(false) *)
| Stopped.                                                  (* the range loop ended *)

Record Pool : Type := {
  stats : Stats;
  productMutex : bool;                     (* true: locked *)
  msgs : list Delivery;                    (* deliveries the distributor has yet to forward *)
  msgs_closed : bool;                      (* [msgs] is closed behind them *)
  messageChan : list Delivery;             (* the buffered channel, oldest first *)
  messageChan_closed : bool;
  distributor_done : bool;
  workers : list Worker;
  broker : list (Delivery * Verdict)       (* verdicts sent, latest first *)
}.

(** The pool as [main] starts it, with the deliveries that the library
    hands over on [msgs] and with [msgs] closed behind them, which the
    library does when the channel or the connection is shut down.  Every
    state that the pool reaches while [msgs] stays open ([start_open]
    below) is, but for that mark, one that this pool reaches. *)
Definition start (n : nat) (deliveries : list Delivery) : Pool :=
  {| stats := initial_stats;
     productMutex := false;
     msgs := deliveries;
     msgs_closed := true;
     messageChan := [];
     messageChan_closed := false;
     distributor_done := false;
     workers := replicate n Receive;
     broker := [] |}.

Definition with_worker (w : nat) (st : Worker) (s : Pool) : Pool :=
  {| stats := stats s; productMutex := productMutex s; msgs := msgs s;
     msgs_closed := msgs_closed s;
     messageChan := messageChan s; messageChan_closed := messageChan_closed s;
     distributor_done := distributor_done s;
     workers := <[w := st]> (workers s); broker := broker s |}.

Definition with_stats (st : Stats) (s : Pool) : Pool :=
  {| stats := st; productMutex := productMutex s; msgs := msgs s;
     msgs_closed := msgs_closed s;
     messageChan := messageChan s; messageChan_closed := messageChan_closed s;
     distributor_done := distributor_done s;
     workers := workers s; broker := broker s |}.

Definition with_mutex (b : bool) (s : Pool) : Pool :=
  {| stats := stats s; productMutex := b; msgs := msgs s;
     msgs_closed := msgs_closed s;
     messageChan := messageChan s; messageChan_closed := messageChan_closed s;
     distributor_done := distributor_done s;
     workers := workers s; broker := broker s |}.

Definition with_chan (c : list Delivery) (s : Pool) : Pool :=
  {| stats := stats s; productMutex := productMutex s; msgs := msgs s;
     msgs_closed := msgs_closed s;
     messageChan := c; messageChan_closed := messageChan_closed s;
     distributor_done := distributor_done s;
     workers := workers s; broker := broker s |}.

Definition with_verdict (msg : Delivery) (v : Verdict) (s : Pool) : Pool :=
  {| stats := stats s; productMutex := productMutex s; msgs := msgs s;
     msgs_closed := msgs_closed s;
     messageChan := messageChan s; messageChan_closed := messageChan_closed s;
     distributor_done := distributor_done s;
     workers := workers s; broker := (msg, v) :: broker s |}.

(** The distributor goroutine:
    [for msg := range msgs { messageChan <- msg }; close(messageChan)].
    The [range] ends, and [messageChan] is closed, only when [msgs] is
    closed and empty; on an open and empty [msgs] the goroutine waits. *)
Definition step_distributor (s : Pool) : option Pool :=
  if distributor_done s then None
  else match msgs s with
       | msg :: rest =>
           if bool_decide (length (messageChan s) < messageChan_cap)%nat then
             Some {| stats := stats s; productMutex := productMutex s; msgs := rest;
                     msgs_closed := msgs_closed s;
                     messageChan := messageChan s ++ [msg];
                     messageChan_closed := messageChan_closed s;
                     distributor_done := false;
                     workers := workers s; broker := broker s |}
           else None
       | [] =>
           if msgs_closed s then
             Some {| stats := stats s; productMutex := productMutex s; msgs := [];
                     msgs_closed := true;
                     messageChan := messageChan s;
                     messageChan_closed := true;
                     distributor_done := true;
                     workers := workers s; broker := broker s |}
           else None
       end.

(** One action of worker [w]; [None] when it is blocked (empty open channel,
    mutex taken), has stopped, or does not exist. *)
Definition step_worker (w : nat) (s : Pool) : option Pool :=
  st ← workers s !! w;
  match st with
  | Receive =>
      match messageChan s with
      | msg :: rest => Some (with_worker w (Unmarshal msg) (with_chan rest s))
      | [] => if messageChan_closed s then Some (with_worker w Stopped s) else None
      end
  | Unmarshal msg =>
      match json_Unmarshal (Body msg) with
      | None => Some (with_worker w Receive (with_verdict msg (Nack false false) s))
      | Some order => Some (with_worker w (AddOrder msg order) s)
      end
  | AddOrder msg order =>
      Some (with_worker w (Lock msg (Items order))
              (with_stats {| totalOrders := GoInt.add (totalOrders (stats s)) 1;
                             productQty := productQty (stats s) |} s))
  | Lock msg [] => Some (with_worker w (Acknowledge msg) s)
  | Lock msg (item :: rest) =>
      if productMutex s then None
      else Some (with_worker w (Load msg item rest) (with_mutex true s))
  | Load msg item rest =>
      Some (with_worker w
              (Store msg item rest (quantity_of (productQty (stats s)) (ProductID item))) s)
  | Store msg item rest old =>
      Some (with_worker w (Unlock msg rest)
              (with_stats {| totalOrders := totalOrders (stats s);
                             productQty := <[ProductID item := GoInt.add old (Quantity item)]>
                                             (productQty (stats s)) |} s))
  | Unlock msg rest =>
      if productMutex s then Some (with_worker w (Lock msg rest) (with_mutex false s))
      else None
  | Acknowledge msg => Some (with_worker w Receive (with_verdict msg (Ack false) s))
  | Stopped => None
  end.

(** Who moves next. *)
Inductive Agent : Type :=
| Distributor
| WorkerN (w : nat).

Definition step (a : Agent) (s : Pool) : option Pool :=
  match a with
  | Distributor => step_distributor s
  | WorkerN w => step_worker w s
  end.

(** An interleaving is the list of agents in the order they move; it is an
    execution when every agent named can move at its turn. *)
Fixpoint run (schedule : list Agent) (s : Pool) : option Pool :=
  match schedule with
  | [] => Some s
  | a :: rest => s' ← step a s; run rest s'
  end.

(** *** Shutdown

    The pool while [msgs] stays open behind the deliveries handed over so
    far. *)
Definition start_open (n : nat) (deliveries : list Delivery) : Pool :=
  {| stats := initial_stats;
     productMutex := false;
     msgs := deliveries;
     msgs_closed := false;
     messageChan := [];
     messageChan_closed := false;
     distributor_done := false;
     workers := replicate n Receive;
     broker := [] |}.

(** The library closes [msgs]. *)
Definition close_msgs (s : Pool) : Pool :=
  {| stats := stats s; productMutex := productMutex s; msgs := msgs s;
     msgs_closed := true;
     messageChan := messageChan s; messageChan_closed := messageChan_closed s;
     distributor_done := distributor_done s;
     workers := workers s; broker := broker s |}.

(** [ch.Consume(queueName, consumer, ...)] registers the consumer under
    the tag it is given or, if that is the empty string, under one that
    the library generates: ["ctag-"], the command's name and a counter
    ([unique]). *)
Definition Consume_tag (consumer unique : string) : string :=
  if bool_decide (consumer = "") then "ctag-" +:+ unique else consumer.

(** [ch.Cancel(consumer, false)]: the broker confirms whatever the tag,
    and the library closes the deliveries channel of the consumer
    registered under that tag, if there is one; [registered] is the tag of
    the consumer that feeds [msgs]. *)
Definition Cancel (registered consumer : string) (s : Pool) : Pool :=
  if bool_decide (consumer = registered) then close_msgs s else s.

(** What [main] does to the pool on a signal: the consumer was registered
    with [ch.Consume(queueName, "", ...)], and is cancelled with
    [ch.Cancel("", false)]. *)
Definition cancel_on_signal (unique : string) (s : Pool) : Pool :=
  Cancel (Consume_tag "" unique) "" s.

(** *** Start-up *)

Inductive StartupEvent : Type :=
| Dial (attempt : nat)                 (* amqp.Dial(rabbitmqURL) *)
| Sleep (seconds : Z).                 (* time.Sleep *)

(** [connectRabbitMQ]: up to five dial attempts, with a pause of [1<<i]
    seconds after the failed attempt [i] unless it was the last;
    [dial i] is the error of attempt [i] ([None]: connected).  [i] is the
    loop variable, [left] the iterations left, [err] the last error.  The
    result is [None] for a connection, the last error otherwise. *)
Fixpoint dial_loop (dial : nat -> option string) (i left : nat) (err : option string)
    : option string * list StartupEvent :=
  match left with
  | O => (err, [])
  | S left' =>
      match dial i with
      | None => (None, [Dial i])
      | Some e =>
          let '(err', events) := dial_loop dial (S i) left' (Some e) in
          (err', Dial i :: (if bool_decide (i < 4)%nat
                            then [Sleep (Z.shiftl 1 (Z.of_nat i))] else [])
                   ++ events)
      end
  end.

Definition connectRabbitMQ (dial : nat -> option string)
    : option string * list StartupEvent :=
  dial_loop dial 0 5 None.

End Warehouse.


(** ** Vocabulary of the statements about the cart coordinator *)

Module CartSpec.
Import Cart.

(** The quantity of the first line of [items] that carries product [p]. *)
Fixpoint line_quantity (p : string) (items : list CartItem) : option Z :=
  match items with
  | [] => None
  | it :: rest =>
      if bool_decide (ProductID it = p) then Some (Quantity it) else line_quantity p rest
  end.

(** The invariant of the data model: product ids pairwise distinct and
    every quantity at least 1. *)
Definition cart_invariant (cart : ShoppingCart) : Prop :=
  NoDup (ProductID <$> Items cart) ∧ Forall (fun it => 1 ≤ Quantity it) (Items cart).

(** The same with the quantities also bounded by what [k] requests can add. *)
Definition bounded_cart (k : Z) (cart : ShoppingCart) : Prop :=
  NoDup (ProductID <$> Items cart) ∧
  Forall (fun it => 1 ≤ Quantity it ≤ 10000 * k) (Items cart).

(** The number of add-item requests in a sequence of requests. *)
Definition count_AddItem (rs : list Request) : Z :=
  foldr (fun r n => match r with AddItem _ _ => 1 + n | _ => n end) 0 rs.

(** The mathematical sum of the quantities of a list of requests. *)
Definition requested (reqs : list AddItemRequest) : Z :=
  foldr (fun r acc => AddItemRequest_Quantity r + acc) 0 reqs.

(** The store after a run of add-item calls on one cart. *)
Definition add_all (carts : gmap string ShoppingCart) (cartID : string)
    (bodies : list (option Json.value)) : gmap string ShoppingCart :=
  foldl (fun carts b => store (addItemToCart carts cartID b)) carts bodies.

(** The authorization request and the order that [checkout] builds. *)
Definition payment_request (req : CheckoutRequest) (cart : ShoppingCart) : CCARequest :=
  {| CCARequest_CreditCardNumber := CreditCardNumber req;
     Amount := calculateTotal (Items cart) |}.

Definition fulfillment_order (env : Env) (cartID : string) (cart : ShoppingCart)
    : WarehouseOrder :=
  {| OrderID := uuid_New env;
     WarehouseOrder_CartID := cartID;
     WarehouseOrder_CustomerID := CustomerID cart;
     WarehouseOrder_Items := Items cart;
     Timestamp := time_Format_RFC3339 env (time_Now env) |}.

(** The gateway receives [req] and answers it with status [code] and a body
    that decodes to [resp]. *)
Definition gateway_replies (env : Env) (req : CCARequest) (code : Z)
    (resp : CCAResponse) : Prop :=
  json_Marshal_CCARequest req = Some req ∧
  ∃ body, http_Post env req = HttpResponse code body ∧ decode_CCAResponse body = Some resp.

(** *** Concrete requests and collaborators *)

Definition create_body (customer : string) : option Json.value :=
  Some (Json.JObject [("customer_id", Json.JString customer)]).

Definition add_body (p : string) (q : Z) : option Json.value :=
  Some (Json.JObject [("product_id", Json.JString p); ("quantity", Json.JInt q)]).

Definition checkout_body (card : string) : option Json.value :=
  Some (Json.JObject [("credit_card_number", Json.JString card)]).

Definition authorized_body : option Json.value :=
  Some (Json.JObject [("status", Json.JString "Authorized");
                      ("transaction_id", Json.JString "TXN-1");
                      ("message", Json.JString "Payment authorized successfully")]).

Definition declined_body : option Json.value :=
  Some (Json.JObject [("status", Json.JString "Declined");
                      ("message", Json.JString "Card declined by issuer")]).

Definition invalid_format_body : option Json.value :=
  Some (Json.JObject [("error", Json.JString "invalid credit card format");
                      ("message", Json.JString "Format must be XXXX-XXXX-XXXX-XXXX")]).

Definition env_with (uuid : string) (gateway : HttpResult) (publish : option string) : Env :=
  {| uuid_New := uuid;
     time_Now := 0;
     time_Format_RFC3339 := fun _ => "1970-01-01T00:00:00Z";
     http_Post := fun _ => gateway;
     amqp_Publish := fun _ => publish |}.

(** The gateway authorizes and the broker accepts. *)
Definition env_ok (uuid : string) : Env :=
  env_with uuid (HttpResponse 200 authorized_body) None.

(** The gateway declines. *)
Definition env_declined : Env := env_with "ORD-1" (HttpResponse 402 declined_body) None.

(** The gateway authorizes, the broker refuses the message. *)
Definition env_broker_down : Env :=
  env_with "ORD-1" (HttpResponse 200 authorized_body) (Some "channel/connection is not open").

(** The gateway rejects the card number as malformed. *)
Definition env_invalid_card : Env :=
  env_with "ORD-1" (HttpResponse 400 invalid_format_body) None.

(** The store after [CreateCart] (which draws the id [id]) and then [n]
    accepted requests, each adding [q] units of product [p]. *)
Definition after_adds (id p : string) (q : Z) (n : nat) : gmap string ShoppingCart :=
  serve (CreateCart (env_ok id) (create_body "C1") :: replicate n (AddItem id (add_body p q))).

(** The scenario of the specification: a cart for "C1" with 2 and then 3
    units of "P1". *)
Definition scenario : list Request :=
  [CreateCart (env_ok "c") (create_body "C1");
   AddItem "c" (add_body "P1" 2);
   AddItem "c" (add_body "P1" 3)].

Definition scenario_cart : ShoppingCart :=
  {| CartID := "c"; CustomerID := "C1";
     Items := [ {| ProductID := "P1"; Quantity := 5 |} ]; CreatedAt := 0 |}.

Definition empty_cart : ShoppingCart :=
  {| CartID := "c"; CustomerID := "C1"; Items := []; CreatedAt := 0 |}.

End CartSpec.

(** ** Vocabulary of the statements about the warehouse consumer *)

Module WarehouseSpec.
Import Warehouse.

Definition sumZ (l : list Z) : Z := foldr Z.add 0 l.

Definition total {A} (f : A → Z) (l : list A) : Z := sumZ (f <$> l).

(** The deliveries acknowledged so far. *)
Definition is_Ack (e : Delivery * Verdict) : bool :=
  match e.2 with Ack _ => true | Nack _ _ => false end.

Definition acknowledged (s : Pool) : list Delivery := (filter is_Ack (broker s)).*1.

(** The quantity an order asks of product [p], as a mathematical sum. *)
Definition order_quantity (p : string) (items : list CartItem) : Z :=
  foldr (fun item acc => (if bool_decide (ProductID item = p) then Quantity item else 0) + acc)
        0 items.

Definition delivery_quantity (p : string) (msg : Delivery) : Z :=
  match json_Unmarshal (Body msg) with
  | Some order => order_quantity p (Items order)
  | None => 0
  end.

(** 1 when the body decodes into an order, 0 otherwise. *)
Definition decodable (msg : Delivery) : Z :=
  match json_Unmarshal (Body msg) with Some _ => 1 | None => 0 end.

(** What a worker still has to add to [productQty[p]] for the delivery it
    holds. *)
Definition owed (p : string) (w : Worker) : Z :=
  match w with
  | Unmarshal msg => delivery_quantity p msg
  | AddOrder _ order => order_quantity p (Items order)
  | Lock _ items => order_quantity p items
  | Load _ item rest | Store _ item rest _ => order_quantity p (item :: rest)
  | Unlock _ rest => order_quantity p rest
  | Receive | Acknowledge _ | Stopped => 0
  end.

(** 1 when the worker holds a delivery it has yet to count. *)
Definition uncounted (w : Worker) : Z :=
  match w with
  | Unmarshal msg => decodable msg
  | AddOrder _ _ => 1
  | _ => 0
  end.

(** 1 when the worker holds a delivery it will acknowledge. *)
Definition unacked (w : Worker) : Z :=
  match w with
  | Unmarshal msg => decodable msg
  | Receive | Stopped => 0
  | _ => 1
  end.

(** 1 when the worker holds a delivery. *)
Definition unsettled (w : Worker) : Z :=
  match w with
  | Receive | Stopped => 0
  | _ => 1
  end.

(** 1 when the worker is between [Lock] and [Unlock]. *)
Definition critical (w : Worker) : Z :=
  match w with
  | Load _ _ _ | Store _ _ _ _ | Unlock _ _ => 1
  | _ => 0
  end.

(** The deliveries that have not reached a worker yet. *)
Definition queued (s : Pool) : list Delivery := msgs s ++ messageChan s.

(** What every interleaving keeps true of the pool started on [deliveries]:
    nothing is lost or counted twice (the sums are kept modulo 2^64, as the
    counters are), the mutex is held by exactly the workers inside the
    critical region, and a worker about to write still has the current
    value of the entry it read. *)
Record invariant (deliveries : list Delivery) (s : Pool) : Prop := {
  inv_settled :
    Z.of_nat (length (broker s)) + Z.of_nat (length (queued s)) + total unsettled (workers s)
    = Z.of_nat (length deliveries);
  inv_acked :
    Z.of_nat (length (acknowledged s)) + total decodable (queued s) + total unacked (workers s)
    = total decodable deliveries;
  inv_counted :
    ∃ k, totalOrders (stats s) + total decodable (queued s) + total uncounted (workers s)
         = total decodable deliveries + 2 ^ 64 * k;
  inv_quantity : ∀ p,
    ∃ k, quantity_of (productQty (stats s)) p
         + total (delivery_quantity p) (queued s) + total (owed p) (workers s)
         = total (delivery_quantity p) deliveries + 2 ^ 64 * k;
  inv_range :
    GoInt.min_int ≤ totalOrders (stats s) ≤ GoInt.max_int ∧
    ∀ p, GoInt.min_int ≤ quantity_of (productQty (stats s)) p ≤ GoInt.max_int;
  inv_mutex :
    total critical (workers s) = if productMutex s then 1 else 0;
  inv_loaded : ∀ w msg item rest old,
    workers s !! w = Some (Store msg item rest old) →
    old = quantity_of (productQty (stats s)) (ProductID item)
}.

(** A worker past [json.Unmarshal] holds a delivery that decoded. *)
Definition holds_decoded (w : Worker) : Prop :=
  match w with
  | AddOrder msg _ | Lock msg _ | Load msg _ _ | Store msg _ _ _
  | Unlock msg _ | Acknowledge msg => is_Some (json_Unmarshal (Body msg))
  | Receive | Unmarshal _ | Stopped => True
  end.

(** The verdict the loop gives on a delivery. *)
Definition verdict_of (msg : Delivery) : Verdict :=
  match json_Unmarshal (Body msg) with
  | Some _ => Ack false
  | None => Nack false false
  end.

Definition verdicts_invariant (s : Pool) : Prop :=
  Forall holds_decoded (workers s) ∧
  Forall (fun e : Delivery * Verdict => e.2 = verdict_of e.1) (broker s).

(** *** Concrete deliveries and interleavings *)

Definition order_body (id : string) (items : list (string * Z)) : option Json.value :=
  Some (Json.JObject
          [("order_id", Json.JString id);
           ("cart_id", Json.JString "CART-1");
           ("customer_id", Json.JString "CUST-1");
           ("items",
            Json.JArray
              ((fun it => Json.JObject [("product_id", Json.JString it.1);
                                         ("quantity", Json.JInt it.2)]) <$> items));
           ("timestamp", Json.JString "2025-11-13T10:30:00Z")]).

(** Two orders for the same product. *)
Definition two_orders (q1 q2 : Z) : list Delivery :=
  [ {| DeliveryTag := 1; Body := order_body "O1" [("P1", q1)] |};
    {| DeliveryTag := 2; Body := order_body "O2" [("P1", q2)] |} ].

(** Workers 0 and 1 take one order each and work through them in turns;
    worker 1 enters the critical region first. *)
Definition interleaved : list Agent :=
  [Distributor; Distributor; WorkerN 0; WorkerN 1; Distributor;
   WorkerN 0; WorkerN 1; WorkerN 1; WorkerN 0;
   WorkerN 1; WorkerN 1; WorkerN 1; WorkerN 1;
   WorkerN 0; WorkerN 0; WorkerN 1; WorkerN 0; WorkerN 1; WorkerN 0; WorkerN 0; WorkerN 0;
   WorkerN 0; WorkerN 1; WorkerN 2].

(** The pool with worker 0 at [w0] and the other [k] workers waiting on the
    channel. *)
Definition solo (w0 : Worker) (st : Stats) (mutex : bool) (todo chan : list Delivery)
    (k : nat) (b : list (Delivery * Verdict)) : Pool :=
  {| stats := st; productMutex := mutex; msgs := todo; msgs_closed := true;
     messageChan := chan; messageChan_closed := false; distributor_done := false;
     workers := w0 :: replicate k Receive; broker := b |}.

(** A delivery whose body is the JSON text [null]. *)
Definition null_delivery : Delivery := {| DeliveryTag := 0; Body := Some Json.JNull |}.

(** A delivery whose body is not JSON at all. *)
Definition garbage_delivery : Delivery := {| DeliveryTag := 7; Body := None |}.

End WarehouseSpec.

(** ** credit-card-authorizer/main.go *)

Module Authorizer.

Record AuthRequest : Type := {
  CreditCardNumber : string;   (* binding:"required" *)
  Amount : float               (* binding:"required" *)
}.

Record AuthResponse : Type := {
  Status : string;
  TransactionID : string;      (* json:"transaction_id,omitempty" *)
  Message : string
}.

(** The regular expressions the card pattern is made of, and their
    matching: [match_from r s k] holds when a prefix of [s] matches [r] and
    [k] accepts what follows it. *)
Inductive regex : Type :=
| Digit                              (* \d : an ASCII digit *)
| Lit (c : Ascii.ascii)
| Seq (r1 r2 : regex)
| Repeat (n : nat) (r : regex).      (* r{n} *)

Definition is_digit (c : Ascii.ascii) : bool :=
  let n := Ascii.N_of_ascii c in ((48 <=? n) && (n <=? 57))%N.

Fixpoint match_from (r : regex) (s : string) (k : string -> bool) : bool :=
  match r with
  | Digit =>
      match s with
      | String c s' => is_digit c && k s'
      | EmptyString => false
      end
  | Lit a =>
      match s with
      | String c s' => bool_decide (c = a) && k s'
      | EmptyString => false
      end
  | Seq r1 r2 => match_from r1 s (fun s' => match_from r2 s' k)
  | Repeat n r => Nat.iter n (fun k' s' => match_from r s' k') k s
  end.

(** [regexp.MatchString] for a pattern anchored by [^] and [$]: the whole
    text has to match. *)
Definition MatchString_anchored (r : regex) (s : string) : bool :=
  match_from r s (fun rest => bool_decide (rest = "")).

Definition dash : regex := Lit (Ascii.ascii_of_N 45).

(** [^\d{4}-\d{4}-\d{4}-\d{4}$] without its anchors. *)
Definition pattern : regex :=
  Seq (Repeat 4 Digit)
      (Seq dash (Seq (Repeat 4 Digit)
                     (Seq dash (Seq (Repeat 4 Digit) (Seq dash (Repeat 4 Digit)))))).

(** What one call draws from outside: [rand.Float32()], [uuid.New()], and
    the text of the binding error should there be one.  The last field is a
    property of the build: whether the validator takes a negative zero for
    the zero value of a float ([reflect]'s [IsZero] did not before Go 1.22;
    the comparison with the zero value that older validators make does). *)
Record Env : Type := {
  rand_Float32 : float;
  uuid_New : string;
  bind_error : string;
  negative_zero_is_zero : bool
}.

(** [required] on a [float64]: not the zero value. *)
Definition required_float (env : Env) (x : float) : bool :=
  match PrimFloat.classify x with
  | PZero => false
  | NZero => negb (negative_zero_is_zero env)
  | _ => true
  end.

(** The [float32] constant [0.9], which is 15099494 / 2^24. *)
Definition threshold : float :=
  (PrimFloat.of_uint63 15099494 / PrimFloat.of_uint63 16777216)%float.

(** The bodies written with [c.JSON]. *)
Inductive Payload : Type :=
| PError (err message : string)       (* gin.H{"error": ..., "message": ...} *)
| PAuth (resp : AuthResponse).

Record Response : Type := {
  status : Z;
  payload : Payload
}.

(** [c.ShouldBindJSON(&req)]: [body] is the request as the JSON decoder
    leaves it in the struct ([None]: it could not be decoded); both fields
    then have to differ from their zero value. *)
Definition ShouldBindJSON (env : Env) (body : option AuthRequest)
    : option AuthRequest :=
  r ← body;
  if negb (bool_decide (CreditCardNumber r = "")) && required_float env (Amount r)
  then Some r else None.

Definition authorizePayment (env : Env) (body : option AuthRequest) : Response :=
  match ShouldBindJSON env body with
  | None => {| status := 400; payload := PError "invalid request" (bind_error env) |}
  | Some req =>
      if negb (MatchString_anchored pattern (CreditCardNumber req)) then
        {| status := 400;
           payload := PError "invalid credit card format"
                             "Format must be XXXX-XXXX-XXXX-XXXX" |}
      else if (rand_Float32 env <? threshold)%float then
        {| status := 200;
           payload := PAuth {| Status := "Authorized";
                               TransactionID := uuid_New env;
                               Message := "Payment authorized successfully" |} |}
      else
        {| status := 402;
           payload := PAuth {| Status := "Declined";
                               TransactionID := "";
                               Message := "Card declined by issuer" |} |}
  end.

(** The response body as the caller's scanner reads it: a [gin.H] is
    written with its keys sorted, an [AuthResponse] field by field, without
    an empty [transaction_id]. *)
Definition json_Marshal (p : Payload) : Json.value :=
  match p with
  | PError e m => Json.JObject [("error", Json.JString e); ("message", Json.JString m)]
  | PAuth r =>
      Json.JObject
        ([("status", Json.JString (Status r))]
         ++ (if bool_decide (TransactionID r = "") then []
             else [("transaction_id", Json.JString (TransactionID r))])
         ++ [("message", Json.JString (Message r))])
  end.

End Authorizer.

(** ** The services wired together *)

Module Pipeline.

(** The authorizer as the gateway the cart coordinator posts to.  The
    request crosses the wire as JSON: a finite amount reaches the
    authorizer's struct unchanged, and so does a card number of ASCII
    characters (in any other one [json.Marshal] replaces invalid UTF-8,
    which neither empties it nor makes it match the pattern). *)
Definition gateway (env : Authorizer.Env) (req : Cart.CCARequest) : Cart.HttpResult :=
  let r := Authorizer.authorizePayment env
             (Some {| Authorizer.CreditCardNumber := Cart.CCARequest_CreditCardNumber req;
                      Authorizer.Amount := Cart.Amount req |}) in
  Cart.HttpResponse (Authorizer.status r) (Some (Authorizer.json_Marshal (Authorizer.payload r))).

(** The cart coordinator's collaborators with the authorizer as gateway. *)
Definition cart_env (env : Authorizer.Env) (uuid : string) (publish : option string)
    : Cart.Env :=
  {| Cart.uuid_New := uuid;
     Cart.time_Now := 0;
     Cart.time_Format_RFC3339 := fun _ => "1970-01-01T00:00:00Z";
     Cart.http_Post := gateway env;
     Cart.amqp_Publish := fun _ => publish |}.

(** The same order in the consumer's types. *)
Definition consumer_item (item : Cart.CartItem) : Warehouse.CartItem :=
  {| Warehouse.ProductID := Cart.ProductID item;
     Warehouse.Quantity := Cart.Quantity item |}.

Definition consumer_order (order : Cart.WarehouseOrder) : Warehouse.WarehouseOrder :=
  {| Warehouse.OrderID := Cart.OrderID order;
     Warehouse.CartID := Cart.WarehouseOrder_CartID order;
     Warehouse.CustomerID := Cart.WarehouseOrder_CustomerID order;
     Warehouse.Items := consumer_item <$> Cart.WarehouseOrder_Items order;
     Warehouse.Timestamp := Cart.Timestamp order |}.

(** The delivery that carries a published order. *)
Definition delivery (tag : N) (order : Cart.WarehouseOrder) : Warehouse.Delivery :=
  {| Warehouse.DeliveryTag := tag;
     Warehouse.Body := Some (Cart.json_Marshal_WarehouseOrder order) |}.

End Pipeline.

(** ** More of the cart coordinator: what is stated about it *)

Module CartMoreSpec.
Import Cart CartSpec.

(** The cart id a request addresses. *)
Definition target (r : Request) : string :=
  match r with
  | CreateCart env _ => uuid_New env
  | GetCart cartID | AddItem cartID _ | Checkout _ cartID _ => cartID
  end.

(** What the handlers keep true of a stored cart: it sits under its own id,
    its customer and its product ids are not empty, and its quantities are
    Go [int]s. *)
Definition stored_ok (cartID : string) (cart : ShoppingCart) : Prop :=
  CartID cart = cartID ∧ CustomerID cart ≠ "" ∧
  Forall (fun it => ProductID it ≠ "" ∧ GoInt.min_int ≤ Quantity it ≤ GoInt.max_int)
         (Items cart).

End CartMoreSpec.

(** ** Health check and start-up: what is stated about them *)

Module StartupSpec.

(** The number of carts [GET /health] reports. *)
Definition carts_count (carts : gmap string Cart.ShoppingCart) : Z :=
  Cart.health_carts_count (Cart.healthCheck None carts).2.

(** The events of [k] failed dial attempts of the cart coordinator. *)
Definition cart_failures (k : nat) : list Cart.StartupEvent :=
  flat_map (fun i => [Cart.Dial i; Cart.Sleep 5]) (seq 0 k).

Definition cart_slept (events : list Cart.StartupEvent) : Z :=
  foldr (fun e acc => match e with Cart.Sleep s => s + acc | _ => acc end) 0 events.

Definition cart_dials (events : list Cart.StartupEvent) : nat :=
  foldr (fun e n => match e with Cart.Dial _ => S n | _ => n end) 0%nat events.

(** The events of [k] failed dial attempts of the warehouse consumer. *)
Definition consumer_failures (k : nat) : list Warehouse.StartupEvent :=
  flat_map (fun i => Warehouse.Dial i
                     :: if bool_decide (i < 4)%nat then [Warehouse.Sleep (2 ^ Z.of_nat i)] else [])
           (seq 0 k).

Definition consumer_slept (events : list Warehouse.StartupEvent) : Z :=
  foldr (fun e acc => match e with Warehouse.Sleep s => s + acc | _ => acc end) 0 events.

(** A broker that refuses the first two dial attempts. *)
Definition late_broker : Cart.Broker :=
  {| Cart.amqp_Dial := fun i => if bool_decide (i < 2)%nat then Some "connection refused"
                                else None;
     Cart.conn_Channel := None;
     Cart.ch_QueueDeclare := None |}.

(** Dial attempts that fail three times. *)
Definition late_dial (i : nat) : option string :=
  if bool_decide (i < 3)%nat then Some "connection refused" else None.

End StartupSpec.

(** ** The authorizer: what is stated about it *)

Module AuthorizerSpec.
Import Authorizer.

(** Four groups of four ASCII digits, separated by dashes. *)
Definition card_shape (s : string) : Prop :=
  ∃ g1 g2 g3 g4 : list Ascii.ascii,
    Forall (fun g => length g = 4%nat ∧ Forall (fun c => is_digit c = true) g) [g1; g2; g3; g4]
    ∧ s = String.string_of_list_ascii
            (g1 ++ Ascii.ascii_of_N 45 :: g2 ++ Ascii.ascii_of_N 45
                :: g3 ++ Ascii.ascii_of_N 45 :: g4).

Definition authorizer_env (draw : float) : Env :=
  {| rand_Float32 := draw; uuid_New := "TXN-7"; bind_error := "invalid";
     negative_zero_is_zero := true |}.

End AuthorizerSpec.

(** ** The worker pool: conservation, progress and termination *)

Module PoolSpec.
Import Warehouse WarehouseSpec.

(** The delivery a worker holds, if any. *)
Definition held (w : Worker) : list Delivery :=
  match w with
  | Receive | Stopped => []
  | Unmarshal msg | AddOrder msg _ | Lock msg _ | Load msg _ _ | Store msg _ _ _
  | Unlock msg _ | Acknowledge msg => [msg]
  end.

(** Every delivery, wherever it is: settled with the broker, waiting for a
    worker, or in a worker's hands. *)
Definition accounted (s : Pool) : list Delivery :=
  (broker s).*1 ++ queued s ++ (workers s ≫= held).

(** The actions a worker takes on a delivery after it has received it. *)
Definition items_work (items : list CartItem) : Z := 4 * Z.of_nat (length items) + 2.

Definition work (msg : Delivery) : Z :=
  match json_Unmarshal (Body msg) with
  | None => 1
  | Some order => 2 + items_work (Items order)
  end.

(** The actions a worker has left on the delivery it holds. *)
Definition busy (w : Worker) : Z :=
  match w with
  | Receive | Stopped => 0
  | Unmarshal msg => work msg
  | AddOrder _ order => 1 + items_work (Items order)
  | Lock _ items => items_work items
  | Load _ _ rest => 3 + items_work rest
  | Store _ _ rest _ => 2 + items_work rest
  | Unlock _ rest => 1 + items_work rest
  | Acknowledge _ => 1
  end.

(** ... and until it has stopped, were it to receive nothing more. *)
Definition remaining (w : Worker) : Z :=
  match w with
  | Stopped => 0
  | _ => 1 + busy w
  end.

(** The actions the pool has left: forwarding and closing by the
    distributor, receiving and working through every waiting delivery,
    and what the workers have left. *)
Definition steps_left (s : Pool) : Z :=
  (if distributor_done s then 0 else 1 + Z.of_nat (length (msgs s)))
  + total (fun msg => 1 + work msg) (queued s)
  + total remaining (workers s).

Definition is_stopped (w : Worker) : bool :=
  match w with Stopped => true | _ => false end.

Definition is_idle (w : Worker) : bool :=
  match w with Receive | Stopped => true | _ => false end.

(** The state in which [wg.Wait()] returns: the distributor and every
    worker have returned. *)
Definition finished (s : Pool) : Prop :=
  distributor_done s = true ∧ Forall (fun w => is_stopped w = true) (workers s).

(** What every interleaving keeps true of the channel and of the
    goroutines' ends. *)
Record shutdown_invariant (n : nat) (s : Pool) : Prop := {
  inv_workers : length (workers s) = n;
  inv_capacity : (length (messageChan s) ≤ messageChan_cap)%nat;
  inv_closed : messageChan_closed s = distributor_done s;
  inv_done : distributor_done s = true → msgs s = [];
  inv_stopped :
    Exists (fun w => is_stopped w = true) (workers s) →
    messageChan_closed s = true ∧ messageChan s = []
}.

(** The cases of a worker's action: [worker_step w s st s'] when worker [w],
    at [st] in [s], moves and leaves [s']. *)
Inductive worker_step (w : nat) (s : Pool) : Worker → Pool → Prop :=
| step_receive msg rest :
    messageChan s = msg :: rest →
    worker_step w s Receive (with_worker w (Unmarshal msg) (with_chan rest s))
| step_stop :
    messageChan s = [] → messageChan_closed s = true →
    worker_step w s Receive (with_worker w Stopped s)
| step_reject msg :
    json_Unmarshal (Body msg) = None →
    worker_step w s (Unmarshal msg)
      (with_worker w Receive (with_verdict msg (Nack false false) s))
| step_decoded msg order :
    json_Unmarshal (Body msg) = Some order →
    worker_step w s (Unmarshal msg) (with_worker w (AddOrder msg order) s)
| step_add_order msg order :
    worker_step w s (AddOrder msg order)
      (with_worker w (Lock msg (Items order))
         (with_stats {| totalOrders := GoInt.add (totalOrders (stats s)) 1;
                        productQty := productQty (stats s) |} s))
| step_items_done msg :
    worker_step w s (Lock msg []) (with_worker w (Acknowledge msg) s)
| step_lock msg item rest :
    productMutex s = false →
    worker_step w s (Lock msg (item :: rest))
      (with_worker w (Load msg item rest) (with_mutex true s))
| step_load msg item rest :
    worker_step w s (Load msg item rest)
      (with_worker w
         (Store msg item rest (quantity_of (productQty (stats s)) (ProductID item))) s)
| step_store msg item rest old :
    worker_step w s (Store msg item rest old)
      (with_worker w (Unlock msg rest)
         (with_stats {| totalOrders := totalOrders (stats s);
                        productQty := <[ProductID item := GoInt.add old (Quantity item)]>
                                        (productQty (stats s)) |} s))
| step_unlock msg rest :
    productMutex s = true →
    worker_step w s (Unlock msg rest) (with_worker w (Lock msg rest) (with_mutex false s))
| step_acknowledge msg :
    worker_step w s (Acknowledge msg)
      (with_worker w Receive (with_verdict msg (Ack false) s)).

(** Three deliveries, the second one with a body that does not decode. *)
Definition three_deliveries : list Delivery :=
  [ {| DeliveryTag := 1; Body := order_body "O1" [("P1", 2); ("P2", 1)] |};
    {| DeliveryTag := 2; Body := None |};
    {| DeliveryTag := 3; Body := order_body "O3" [("P1", 5)] |} ].

(** Two workers taking turns with the distributor on [three_deliveries],
    with [msgs] closed behind them, until every goroutine has returned. *)
Definition three_schedule : list Agent :=
  [Distributor; WorkerN 0; Distributor; WorkerN 1; WorkerN 0; Distributor;
   WorkerN 1; WorkerN 0; Distributor; WorkerN 1; WorkerN 0; WorkerN 1;
   WorkerN 0; WorkerN 1; WorkerN 0; WorkerN 0; WorkerN 1; WorkerN 1;
   WorkerN 1; WorkerN 1; WorkerN 0; WorkerN 1; WorkerN 0; WorkerN 1;
   WorkerN 0; WorkerN 1; WorkerN 0; WorkerN 0; WorkerN 0; WorkerN 0].

(** The same two workers on [three_deliveries] while [msgs] stays open,
    until nobody can move. *)
Definition three_schedule_open : list Agent :=
  [Distributor; WorkerN 0; Distributor; WorkerN 1; WorkerN 0; Distributor;
   WorkerN 1; WorkerN 0; WorkerN 1; WorkerN 0; WorkerN 1; WorkerN 0;
   WorkerN 1; WorkerN 0; WorkerN 0; WorkerN 1; WorkerN 1; WorkerN 1;
   WorkerN 1; WorkerN 0; WorkerN 1; WorkerN 0; WorkerN 1; WorkerN 0;
   WorkerN 0; WorkerN 0; WorkerN 0].

End PoolSpec.

(** ** Machine arithmetic *)

Section wrap_facts.
Import GoInt.

Lemma wrap_in_range z : min_int ≤ z ≤ max_int → wrap z = z.
Proof.
  unfold wrap, min_int, max_int. intros H.
  rewrite Z.mod_small; lia.
Qed.

Lemma wrap_bounds z : min_int ≤ wrap z ≤ max_int.
Proof.
  unfold wrap, min_int, max_int.
  pose proof (Z.mod_pos_bound (z + 2 ^ 63) (2 ^ 64) ltac:(lia)). lia.
Qed.

Lemma wrap_add_l a b : wrap (wrap a + b) = wrap (a + b).
Proof.
  unfold wrap.
  replace (((a + 2 ^ 63) mod 2 ^ 64 - 2 ^ 63) + b + 2 ^ 63)
    with ((a + 2 ^ 63) mod 2 ^ 64 + b) by lia.
  rewrite Zplus_mod_idemp_l. f_equal. f_equal. lia.
Qed.

Lemma wrap_congr a b : a mod 2 ^ 64 = b mod 2 ^ 64 → wrap a = wrap b.
Proof.
  intros H. unfold wrap.
  rewrite <- (Zplus_mod_idemp_l a), <- (Zplus_mod_idemp_l b), H. done.
Qed.

Lemma add_no_wrap a b : min_int ≤ a + b ≤ max_int → add a b = a + b.
Proof. apply wrap_in_range. Qed.

Lemma add_as_Z a b : ∃ c, add a b = a + b + 2 ^ 64 * c.
Proof.
  unfold add, wrap.
  exists (- ((a + b + 2 ^ 63) / 2 ^ 64)).
  pose proof (Z.div_mod (a + b + 2 ^ 63) (2 ^ 64) ltac:(lia)). lia.
Qed.

Lemma eq_wrap_of_congr a b k :
  min_int ≤ a ≤ max_int → a = b + 2 ^ 64 * k → a = wrap b.
Proof.
  intros Ha ->. rewrite <- (wrap_in_range _ Ha) at 1.
  apply wrap_congr. rewrite (Z.mul_comm (2 ^ 64) k). apply Z_mod_plus_full.
Qed.

Lemma foldl_add_wrap qs : ∀ x,
  foldl add (wrap x) qs = wrap (x + foldr Z.add 0 qs).
Proof.
  induction qs as [|q qs IH]; intros x; simpl.
  - by rewrite Z.add_0_r.
  - unfold add at 2. rewrite wrap_add_l, IH. f_equal. lia.
Qed.

Lemma in_range_true z : min_int ≤ z ≤ max_int → in_range z = true.
Proof. intros H. unfold in_range. apply andb_true_iff; split; apply Z.leb_le; lia. Qed.

End wrap_facts.

(** ** The cart coordinator *)

Section cart_facts.
Import Cart CartSpec.

(** *** Binding *)

Lemma bind_add_body p q :
  p ≠ "" → 1 ≤ q ≤ 10000 →
  ShouldBindJSON_AddItemRequest (add_body p q)
  = Some {| AddItemRequest_ProductID := p; AddItemRequest_Quantity := q |}.
Proof.
  intros Hp Hq. unfold ShouldBindJSON_AddItemRequest, add_body. simpl.
  change (AddItemRequest_field "quantity" (Json.JInt q)
            {| AddItemRequest_ProductID := p; AddItemRequest_Quantity := 0 |})
    with (q' ← (if GoInt.in_range q then Some q else None);
          Some {| AddItemRequest_ProductID := p; AddItemRequest_Quantity := q' |}).
  rewrite in_range_true by (unfold GoInt.min_int, GoInt.max_int; lia).
  simpl. unfold required. rewrite bool_decide_eq_false_2 by done. simpl.
  destruct (Z.eqb_spec q 0); [lia|]. simpl.
  rewrite (proj2 (Z.leb_le _ _)) by lia. rewrite (proj2 (Z.leb_le _ _)) by lia. done.
Qed.

Lemma bind_AddItem_valid body req :
  ShouldBindJSON_AddItemRequest body = Some req →
  AddItemRequest_ProductID req ≠ "" ∧ 1 ≤ AddItemRequest_Quantity req ≤ 10000.
Proof.
  unfold ShouldBindJSON_AddItemRequest. intros H.
  destruct body as [v|]; simpl in H; [|done].
  destruct (Json.store_struct _ _ _) as [r|]; simpl in H; [|done].
  destruct (required _ && _ && _ && _) eqn:E; [|done].
  injection H as <-.
  repeat (apply andb_true_iff in E as [E ?]).
  unfold required in E. apply negb_true_iff, bool_decide_eq_false in E.
  split; [done|]. split; apply Z.leb_le; done.
Qed.

(** *** Adding an item *)

Lemma merge_existing_find items req :
  merge_existing items req =
  match list_find (fun it => ProductID it = AddItemRequest_ProductID req) items with
  | Some (i, it) =>
      Some (<[i := {| ProductID := ProductID it;
                      Quantity := GoInt.add (Quantity it) (AddItemRequest_Quantity req) |}]> items)
  | None => None
  end.
Proof.
  induction items as [|it rest IH]; [done|].
  simpl. unfold decide_rel. case_bool_decide as Hp.
  - rewrite decide_True by done. done.
  - rewrite decide_False by done. rewrite IH.
    destruct (list_find _ rest) as [[i it']|]; done.
Qed.

Lemma add_item_find items req :
  add_item items req =
  match list_find (fun it => ProductID it = AddItemRequest_ProductID req) items with
  | Some (i, it) =>
      <[i := {| ProductID := ProductID it;
                Quantity := GoInt.add (Quantity it) (AddItemRequest_Quantity req) |}]> items
  | None => items ++ [CartItem_of req]
  end.
Proof.
  unfold add_item. rewrite merge_existing_find.
  destruct (list_find _ items) as [[i it]|]; done.
Qed.

Lemma add_item_pids items req :
  ProductID <$> add_item items req =
  match list_find (fun it => ProductID it = AddItemRequest_ProductID req) items with
  | Some _ => ProductID <$> items
  | None => (ProductID <$> items) ++ [AddItemRequest_ProductID req]
  end.
Proof.
  rewrite add_item_find.
  destruct (list_find _ items) as [[i it]|] eqn:E.
  - apply list_find_Some in E as (Hi & _ & _).
    rewrite list_fmap_insert. simpl. apply list_insert_id.
    rewrite list_lookup_fmap, Hi. done.
  - rewrite fmap_app. done.
Qed.

Lemma add_item_NoDup items req :
  NoDup (ProductID <$> items) → NoDup (ProductID <$> add_item items req).
Proof.
  intros H. rewrite add_item_pids.
  destruct (list_find _ items) as [[i it]|] eqn:E; [done|].
  apply NoDup_app. split_and!; [done| |apply NoDup_singleton].
  intros p Hp Hp'. apply list_elem_of_singleton in Hp'. subst p.
  apply list_elem_of_fmap in Hp as (it & Heq & Hin).
  eapply list_find_None in E. eapply Forall_forall in E; [|done]. done.
Qed.

Lemma add_item_bounds k items req :
  0 ≤ k → 10000 * (k + 1) ≤ GoInt.max_int →
  1 ≤ AddItemRequest_Quantity req ≤ 10000 →
  Forall (fun it => 1 ≤ Quantity it ≤ 10000 * k) items →
  Forall (fun it => 1 ≤ Quantity it ≤ 10000 * (k + 1)) (add_item items req).
Proof.
  intros Hk Hmax Hq H.
  assert (Hw : Forall (fun it => 1 ≤ Quantity it ≤ 10000 * (k + 1)) items).
  { eapply Forall_impl; [done|]. simpl. lia. }
  rewrite add_item_find.
  destruct (list_find _ items) as [[i it]|] eqn:E.
  - apply list_find_Some in E as (Hi & _ & _).
    apply Forall_insert; [done|]. simpl.
    eapply Forall_lookup_1 in H; [|done]. simpl in H.
    rewrite add_no_wrap; unfold GoInt.min_int, GoInt.max_int in *; lia.
  - apply Forall_app. split; [done|]. apply Forall_singleton. simpl. lia.
Qed.

Lemma line_quantity_merge items req :
  match merge_existing items req with
  | Some items' =>
      ∃ q0, line_quantity (AddItemRequest_ProductID req) items = Some q0 ∧
            line_quantity (AddItemRequest_ProductID req) items'
            = Some (GoInt.add q0 (AddItemRequest_Quantity req))
  | None => line_quantity (AddItemRequest_ProductID req) items = None
  end.
Proof.
  induction items as [|it rest IH]; [done|].
  simpl. case_bool_decide as Hp.
  - exists (Quantity it). simpl. rewrite bool_decide_eq_true_2 by done. done.
  - destruct (merge_existing rest req) as [items'|]; simpl.
    + destruct IH as (q0 & H1 & H2). exists q0. rewrite bool_decide_eq_false_2 by done. done.
    + done.
Qed.

Lemma line_quantity_app_None p items it :
  line_quantity p items = None → line_quantity p (items ++ [it]) = line_quantity p [it].
Proof.
  induction items as [|it' rest IH]; [done|]. simpl.
  case_bool_decide; [done|]. done.
Qed.

Lemma line_quantity_add_item items req :
  line_quantity (AddItemRequest_ProductID req) (add_item items req) =
  Some (match line_quantity (AddItemRequest_ProductID req) items with
        | Some q0 => GoInt.add q0 (AddItemRequest_Quantity req)
        | None => AddItemRequest_Quantity req
        end).
Proof.
  unfold add_item. pose proof (line_quantity_merge items req) as H.
  destruct (merge_existing items req) as [items'|].
  - destruct H as (q0 & -> & ->). done.
  - rewrite H, line_quantity_app_None by done. simpl.
    rewrite bool_decide_eq_true_2 by done. done.
Qed.

Lemma addItem_accepted carts cartID body req cart :
  ShouldBindJSON_AddItemRequest body = Some req →
  carts !! cartID = Some cart →
  addItemToCart carts cartID body =
  let cart' := {| CartID := CartID cart; CustomerID := CustomerID cart;
                  Items := add_item (Items cart) req; CreatedAt := CreatedAt cart |} in
  reply (<[cartID := cart']> carts) [] StatusOK (PCart cart').
Proof. intros Hb Hc. unfold addItemToCart. rewrite Hb, Hc. done. Qed.

(** *** What a handler can do to the store *)

Lemma checkout_store env carts cartID body :
  store (checkout env carts cartID body) = carts ∨
  store (checkout env carts cartID body) = delete cartID carts.
Proof.
  unfold checkout.
  destruct (ShouldBindJSON_CheckoutRequest body); [|by left].
  destruct (carts !! cartID); [|by left].
  case_bool_decide; [by left|].
  destruct (authorizePayment _ _) as [[resp|err] fx]; [|by left].
  destruct (negb _); [by left|].
  destruct (publishToWarehouse _ _) as [[err|] fx']; [by left|by right].
Qed.

Lemma bounded_cart_mono k k' cart : k ≤ k' → bounded_cart k cart → bounded_cart k' cart.
Proof.
  intros Hk [H1 H2]. split; [done|]. eapply Forall_impl; [done|]. simpl. lia.
Qed.

Lemma count_AddItem_cons r rs : count_AddItem (r :: rs) = count_AddItem [r] + count_AddItem rs.
Proof. destruct r; simpl; lia. Qed.

Lemma count_AddItem_nonneg rs : 0 ≤ count_AddItem rs.
Proof. induction rs as [|r rs IH]; [done|]. rewrite count_AddItem_cons. destruct r; simpl; lia. Qed.

Lemma handle_bounded k carts r :
  0 ≤ k →
  10000 * (k + count_AddItem [r]) ≤ GoInt.max_int →
  map_Forall (fun _ => bounded_cart k) carts →
  map_Forall (fun _ => bounded_cart (k + count_AddItem [r])) (store (handle carts r)).
Proof.
  intros Hk Hmax Hinv.
  assert (Hmono : map_Forall (fun _ => bounded_cart (k + count_AddItem [r])) carts).
  { eapply map_Forall_impl; [done|]. intros ? c. apply bounded_cart_mono.
    destruct r; simpl; lia. }
  destruct r as [env body|id|id body|env id body]; simpl in *.
  - unfold createCart. destruct (ShouldBindJSON_CreateCartRequest body); simpl; [|done].
    apply map_Forall_insert_2; [|done]. split; simpl; [apply NoDup_nil_2|apply Forall_nil_2].
  - unfold getCart. destruct (carts !! id); done.
  - unfold addItemToCart.
    destruct (ShouldBindJSON_AddItemRequest body) as [req|] eqn:Hb; [|done].
    destruct (carts !! id) as [cart|] eqn:Hc; [|done]. simpl.
    apply map_Forall_insert_2; [|done].
    apply Hinv in Hc as [Hnd Hq]. apply bind_AddItem_valid in Hb as [_ Hb].
    split; simpl; [by apply add_item_NoDup|].
    replace (k + (1 + 0)) with (k + 1) in * by lia. by apply add_item_bounds.
  - destruct (checkout_store env carts id body) as [->| ->]; [done|].
    by apply map_Forall_delete.
Qed.

Lemma foldl_handle_bounded rs : ∀ k carts,
  0 ≤ k →
  10000 * (k + count_AddItem rs) ≤ GoInt.max_int →
  map_Forall (fun _ => bounded_cart k) carts →
  map_Forall (fun _ => bounded_cart (k + count_AddItem rs))
             (foldl (fun carts r => store (handle carts r)) carts rs).
Proof.
  induction rs as [|r rs IH]; intros k carts Hk Hmax Hinv.
  - simpl. by rewrite Z.add_0_r.
  - rewrite count_AddItem_cons in *. simpl foldl.
    pose proof (count_AddItem_nonneg rs). pose proof (count_AddItem_nonneg [r]).
    rewrite Z.add_assoc. apply IH; [lia|lia|].
    apply handle_bounded; [done|lia|done].
Qed.

Lemma handle_NoDup carts r :
  map_Forall (fun _ c => NoDup (ProductID <$> Items c)) carts →
  map_Forall (fun _ c => NoDup (ProductID <$> Items c)) (store (handle carts r)).
Proof.
  intros Hinv.
  destruct r as [env body|id|id body|env id body]; simpl in *.
  - unfold createCart. destruct (ShouldBindJSON_CreateCartRequest body); simpl; [|done].
    apply map_Forall_insert_2; [|done]. apply NoDup_nil_2.
  - unfold getCart. destruct (carts !! id); done.
  - unfold addItemToCart.
    destruct (ShouldBindJSON_AddItemRequest body) as [req|] eqn:Hb; [|done].
    destruct (carts !! id) as [cart|] eqn:Hc; [|done]. simpl.
    apply map_Forall_insert_2; [|done]. simpl. apply add_item_NoDup. by apply Hinv in Hc.
  - destruct (checkout_store env carts id body) as [->| ->]; [done|].
    by apply map_Forall_delete.
Qed.

Lemma foldl_handle_NoDup rs : ∀ carts,
  map_Forall (fun _ c => NoDup (ProductID <$> Items c)) carts →
  map_Forall (fun _ c => NoDup (ProductID <$> Items c))
             (foldl (fun carts r => store (handle carts r)) carts rs).
Proof.
  induction rs as [|r rs IH]; intros carts Hinv; [done|].
  simpl. apply IH. by apply handle_NoDup.
Qed.

(** *** Long runs of the same request *)

Lemma serve_snoc rs r : serve (rs ++ [r]) = store (handle (serve rs) r).
Proof. unfold serve. by rewrite foldl_app. Qed.

Lemma replicate_snoc {A} (x : A) n : replicate (S n) x = replicate n x ++ [x].
Proof. induction n as [|n IH]; [done|]. simpl in *. by rewrite <- IH. Qed.

Lemma after_adds_lookup id p q n :
  p ≠ "" → 1 ≤ q ≤ 10000 → (0 < n)%nat →
  after_adds id p q n !! id =
  Some {| CartID := id; CustomerID := "C1";
          Items := [ {| ProductID := p; Quantity := GoInt.wrap (q * Z.of_nat n) |} ];
          CreatedAt := 0 |}.
Proof.
  intros Hp Hq Hn. destruct n as [|n]; [lia|clear Hn].
  unfold after_adds. induction n as [|n IH].
  - unfold serve. simpl foldl. unfold addItemToCart.
    rewrite bind_add_body by done.
    replace (createCart (env_ok id) ∅ (create_body "C1"))
      with (reply (<[id := {| CartID := id; CustomerID := "C1"; Items := [];
                              CreatedAt := 0 |}]> ∅) [] StatusCreated
                  (PCart {| CartID := id; CustomerID := "C1"; Items := [];
                            CreatedAt := 0 |})) by done.
    simpl. rewrite lookup_insert_eq. simpl. rewrite lookup_insert_eq.
    rewrite wrap_in_range by (unfold GoInt.min_int, GoInt.max_int; lia).
    unfold add_item, CartItem_of. simpl. do 4 f_equal. lia.
  - rewrite replicate_snoc, app_comm_cons, serve_snoc.
    simpl handle. erewrite addItem_accepted; [|by apply bind_add_body|exact IH].
    simpl. rewrite lookup_insert_eq. rewrite add_item_find. simpl.
    rewrite decide_True by done. simpl. unfold GoInt.add. rewrite wrap_add_l.
    do 5 f_equal. rewrite (Nat2Z.inj_succ (S n)). ring.
Qed.

Lemma add_all_serve rs cartID bodies :
  add_all (serve rs) cartID bodies = serve (rs ++ (AddItem cartID <$> bodies)).
Proof.
  unfold add_all, serve. rewrite foldl_app. generalize (foldl
    (fun carts r => store (handle carts r)) ∅ rs).
  induction bodies as [|b bodies IH]; intros carts; [done|].
  simpl. apply IH.
Qed.

Lemma add_all_fresh id p q n :
  p ≠ "" → 1 ≤ q ≤ 10000 → (0 < n)%nat →
  add_all (serve [CreateCart (env_ok id) (create_body "C1")]) id
          (replicate n (add_body p q)) !! id =
  Some {| CartID := id; CustomerID := "C1";
          Items := [ {| ProductID := p; Quantity := GoInt.wrap (q * Z.of_nat n) |} ];
          CreatedAt := 0 |}.
Proof.
  intros Hp Hq Hn. rewrite add_all_serve, fmap_replicate.
  by apply (after_adds_lookup id p q n).
Qed.

Lemma requested_replicate n r :
  requested (replicate n r) = Z.of_nat n * AddItemRequest_Quantity r.
Proof.
  induction n as [|n IH]; [done|].
  simpl replicate. unfold requested in *. simpl foldr. rewrite IH. lia.
Qed.

Lemma add_all_line bodies : ∀ reqs carts cartID cart p q0,
  carts !! cartID = Some cart →
  line_quantity p (Items cart) = Some q0 →
  Forall2 (fun b r => ShouldBindJSON_AddItemRequest b = Some r
                      ∧ AddItemRequest_ProductID r = p) bodies reqs →
  ∃ cart', add_all carts cartID bodies !! cartID = Some cart' ∧
           line_quantity p (Items cart')
           = Some (foldl GoInt.add q0 (AddItemRequest_Quantity <$> reqs)).
Proof.
  induction bodies as [|b bodies IH]; intros reqs carts cartID cart p q0 Hc Hl HF.
  - apply Forall2_nil_inv_l in HF as ->. exists cart. done.
  - apply Forall2_cons_inv_l in HF as (r & reqs' & [Hb Hp] & HF & ->).
    unfold add_all. simpl foldl. erewrite addItem_accepted; [|done..]. simpl store.
    eapply IH; [apply lookup_insert_eq| |done].
    simpl. subst p. rewrite line_quantity_add_item, Hl. done.
Qed.

(** *** Checkout *)

Lemma authorizePayment_reply env req code resp :
  gateway_replies env req code resp →
  authorizePayment env req =
  (if code =? StatusPaymentRequired then inl resp
   else if code =? StatusBadRequest then inr (ErrInvalidCardFormat (Message resp))
   else if negb (code =? StatusOK) then inr (ErrCCAStatus code)
   else inl resp, [CallCCA req]).
Proof.
  intros (Hm & body & Hp & Hd). unfold authorizePayment.
  rewrite Hm, Hp, Hd. repeat case_match; done.
Qed.

Lemma checkout_bound env carts cartID body req cart :
  ShouldBindJSON_CheckoutRequest body = Some req →
  carts !! cartID = Some cart →
  Items cart ≠ [] →
  checkout env carts cartID body =
  match authorizePayment env (payment_request req cart) with
  | (inr err, fx) =>
      reply carts fx StatusInternalServerError
        (PFailure "payment authorization failed" (OfError err))
  | (inl ccaResp, fx) =>
      if negb (bool_decide (Status ccaResp = "Authorized")) then
        reply carts fx StatusPaymentRequired
          (PFailure "payment declined" (Text (Message ccaResp)))
      else
        match publishToWarehouse env (fulfillment_order env cartID cart) with
        | (Some err, fx') =>
            reply carts (fx ++ fx') StatusInternalServerError
              (PFailure "failed to send order to warehouse" (OfError err))
        | (None, fx') =>
            reply (delete cartID carts) (fx ++ fx') StatusOK
              (PCheckout "checkout successful" (uuid_New env) "Authorized"
                         (TransactionID ccaResp) (calculateTotal (Items cart)))
        end
  end.
Proof.
  intros Hb Hc Hne. unfold checkout. rewrite Hb, Hc.
  rewrite bool_decide_eq_false_2; [done|].
  destruct (Items cart); [done|]. simpl. lia.
Qed.

(** *** The claims about the cart coordinator *)

(** C1. A checkout on an existing, non-empty cart for which the gateway
    answers 200 "Authorized" and the publish succeeds answers 200 with the
    order id drawn in this call, the gateway's transaction id and the total
    computed from the cart; it deletes the cart, so that a following
    [getCart] on the id answers 404; the gateway and the broker are each
    called once. *)
Theorem checkout_success_deletes_cart env carts cartID body req cart resp :
  ShouldBindJSON_CheckoutRequest body = Some req →
  carts !! cartID = Some cart →
  Items cart ≠ [] →
  gateway_replies env (payment_request req cart) StatusOK resp →
  Status resp = "Authorized" →
  amqp_Publish env (fulfillment_order env cartID cart) = None →
  let r := checkout env carts cartID body in
  response r = {| status := StatusOK;
                  payload := PCheckout "checkout successful" (uuid_New env) "Authorized"
                                       (TransactionID resp) (calculateTotal (Items cart)) |}
  ∧ store r = delete cartID carts
  ∧ response (getCart (store r) cartID)
    = {| status := StatusNotFound; payload := PError "cart not found" |}
  ∧ effects r = [CallCCA (payment_request req cart);
                 PublishOrder (fulfillment_order env cartID cart)].
Proof.
  intros Hb Hc Hne Hg Hs Hp r. subst r.
  rewrite (checkout_bound _ _ _ _ _ _ Hb Hc Hne).
  rewrite (authorizePayment_reply _ _ _ _ Hg). simpl.
  rewrite bool_decide_eq_true_2 by done. simpl.
  unfold publishToWarehouse. rewrite Hp. simpl.
  split_and!; try done.
  unfold getCart. rewrite lookup_delete_eq. done.
Qed.

Lemma checkout_success_deletes_cart_witness :
  let r := checkout (env_ok "ORD-1") (serve scenario) "c" (checkout_body "1234-5678-9012-3456") in
  response r = {| status := 200;
                  payload := PCheckout "checkout successful" "ORD-1" "Authorized" "TXN-1" 50 |}
  ∧ store r = delete "c" (serve scenario)
  ∧ response (getCart (store r) "c") = {| status := 404; payload := PError "cart not found" |}.
Proof.
  pose proof (checkout_success_deletes_cart (env_ok "ORD-1") (serve scenario) "c"
                (checkout_body "1234-5678-9012-3456")
                {| CreditCardNumber := "1234-5678-9012-3456" |} scenario_cart
                {| Status := "Authorized"; TransactionID := "TXN-1";
                   Message := "Payment authorized successfully" |}) as H.
  destruct H as (H1 & H2 & H3 & _).
  - reflexivity.
  - reflexivity.
  - discriminate.
  - split; [reflexivity|]. exists authorized_body. split; reflexivity.
  - reflexivity.
  - reflexivity.
  - split; [exact H1|]. split; [exact H2|exact H3].
Defined.

(** C2. A checkout that answers 402 (the gateway declined) or 500 (the
    authorization or, after it, the publish failed) leaves the store as it
    was: the cart is still there under its id, with the items it had. *)
Theorem checkout_failure_keeps_cart env carts cartID body :
  let r := checkout env carts cartID body in
  status (response r) = StatusPaymentRequired ∨
  status (response r) = StatusInternalServerError →
  store r = carts ∧
  ∃ cart, carts !! cartID = Some cart ∧
          response (getCart (store r) cartID) = {| status := StatusOK; payload := PCart cart |}.
Proof.
  intros r H. subst r. revert H. unfold checkout.
  destruct (ShouldBindJSON_CheckoutRequest body) as [req|]; [|simpl; intros [|]; done].
  destruct (carts !! cartID) as [cart|] eqn:Hc; [|simpl; intros [|]; done].
  case_bool_decide; [simpl; intros [|]; done|].
  assert (Hget : response (getCart carts cartID) = {| status := StatusOK; payload := PCart cart |}).
  { unfold getCart. by rewrite Hc. }
  destruct (authorizePayment _ _) as [[resp|err] fx]; [|by eauto].
  destruct (negb _); [by eauto|].
  destruct (publishToWarehouse _ _) as [[err|] fx']; [by eauto|].
  simpl; intros [|]; done.
Qed.

Lemma checkout_failure_keeps_cart_witness :
  (let r := checkout env_declined (serve scenario) "c" (checkout_body "1234-5678-9012-3456") in
   status (response r) = 402 ∧ store r = serve scenario
   ∧ response (getCart (store r) "c") = {| status := 200; payload := PCart scenario_cart |})
  ∧
  (let r := checkout env_broker_down (serve scenario) "c" (checkout_body "1234-5678-9012-3456") in
   status (response r) = 500 ∧ store r = serve scenario
   ∧ response (getCart (store r) "c") = {| status := 200; payload := PCart scenario_cart |}
   ∧ effects r = [CallCCA {| CCARequest_CreditCardNumber := "1234-5678-9012-3456"; Amount := 50 |};
                  PublishOrder (fulfillment_order env_broker_down "c" scenario_cart)]).
Proof.
  split.
  - destruct (checkout_failure_keeps_cart env_declined (serve scenario) "c"
                (checkout_body "1234-5678-9012-3456")) as (H1 & cart & H2 & H3).
    + left. reflexivity.
    + split; [reflexivity|]. split; [exact H1|]. reflexivity.
  - destruct (checkout_failure_keeps_cart env_broker_down (serve scenario) "c"
                (checkout_body "1234-5678-9012-3456")) as (H1 & cart & H2 & H3).
    + right. reflexivity.
    + split; [reflexivity|]. split; [exact H1|]. split; reflexivity.
Defined.

(** C4. A checkout on an existing cart without items answers 400, calls
    neither the gateway nor the broker and leaves the store as it was; when
    the request body binds, the error is the empty-cart one. *)
Theorem checkout_empty_cart env carts cartID body cart :
  carts !! cartID = Some cart →
  Items cart = [] →
  let r := checkout env carts cartID body in
  status (response r) = StatusBadRequest
  ∧ effects r = []
  ∧ store r = carts
  ∧ (is_Some (ShouldBindJSON_CheckoutRequest body) →
     payload (response r) = PError "cannot checkout empty cart").
Proof.
  intros Hc He r. subst r. unfold checkout.
  destruct (ShouldBindJSON_CheckoutRequest body) as [req|].
  - rewrite Hc, He. simpl. done.
  - simpl. split_and!; try done; by intros [??].
Qed.

Lemma checkout_empty_cart_witness :
  let carts := serve [CreateCart (env_ok "c") (create_body "C1")] in
  let r := checkout (env_ok "ORD-1") carts "c" (checkout_body "1234-5678-9012-3456") in
  response r = {| status := 400; payload := PError "cannot checkout empty cart" |}
  ∧ effects r = [] ∧ store r = carts.
Proof.
  destruct (checkout_empty_cart (env_ok "ORD-1")
              (serve [CreateCart (env_ok "c") (create_body "C1")]) "c"
              (checkout_body "1234-5678-9012-3456") empty_cart)
    as (H1 & H2 & H3 & H4).
  - reflexivity.
  - reflexivity.
  - split; [reflexivity|]. split; [exact H2|exact H3].
Defined.

(** C7 as stated fails: with a gateway that answers 400 to a malformed card
    number, the checkout of the scenario's cart answers 500, the status of
    every other authorization failure, not a 4xx. *)
Lemma gateway_400_counterexample :
  let r := checkout env_invalid_card (serve scenario) "c" (checkout_body "1234567890123456") in
  http_Post env_invalid_card
    {| CCARequest_CreditCardNumber := "1234567890123456"; Amount := 50 |}
  = HttpResponse 400 invalid_format_body
  ∧ response r
    = {| status := 500;
         payload := PFailure "payment authorization failed"
                      (OfError (ErrInvalidCardFormat "Format must be XXXX-XXXX-XXXX-XXXX")) |}.
Proof. split; reflexivity. Qed.

(** C7 (amended). When the gateway answers 400, [authorizePayment] returns
    an error of its own ("invalid credit card format: ..."), and [checkout]
    surfaces it like any other authorization failure: status 500 with error
    "payment authorization failed"; the cart stays in the store and nothing
    is published. *)
Theorem gateway_400_surfaces_as_500 env carts cartID body req cart resp :
  ShouldBindJSON_CheckoutRequest body = Some req →
  carts !! cartID = Some cart →
  Items cart ≠ [] →
  gateway_replies env (payment_request req cart) StatusBadRequest resp →
  let r := checkout env carts cartID body in
  (authorizePayment env (payment_request req cart)).1
  = inr (ErrInvalidCardFormat (Message resp))
  ∧ response r = {| status := StatusInternalServerError;
                    payload := PFailure "payment authorization failed"
                                 (OfError (ErrInvalidCardFormat (Message resp))) |}
  ∧ store r = carts
  ∧ effects r = [CallCCA (payment_request req cart)].
Proof.
  intros Hb Hc Hne Hg r. subst r.
  rewrite (checkout_bound _ _ _ _ _ _ Hb Hc Hne).
  rewrite (authorizePayment_reply _ _ _ _ Hg). simpl. done.
Qed.

Lemma gateway_400_surfaces_as_500_witness :
  let r := checkout env_invalid_card (serve scenario) "c" (checkout_body "1234567890123456") in
  status (response r) = 500 ∧ store r = serve scenario
  ∧ effects r = [CallCCA {| CCARequest_CreditCardNumber := "1234567890123456"; Amount := 50 |}].
Proof.
  destruct (gateway_400_surfaces_as_500 env_invalid_card (serve scenario) "c"
              (checkout_body "1234567890123456")
              {| CreditCardNumber := "1234567890123456" |} scenario_cart
              {| Status := ""; TransactionID := "";
                 Message := "Format must be XXXX-XXXX-XXXX-XXXX" |})
    as (_ & H1 & H2 & H3).
  - reflexivity.
  - reflexivity.
  - discriminate.
  - split; [reflexivity|]. exists invalid_format_body. split; reflexivity.
  - split; [rewrite H1; reflexivity|]. split; [exact H2|exact H3].
Defined.

(** C5 as stated fails: after [CreateCart] and 922337203685477 accepted
    requests of 10000 units of "P1" the line holds 9223372036854770000; one
    more accepted request of 10000 does not increase it by 10000 but wraps
    it to -9223372036854771616. *)
Lemma addItem_increase_overflow_counterexample :
  let carts := after_adds "c" "P1" 10000 (Z.to_nat 922337203685477) in
  let r := addItemToCart carts "c" (add_body "P1" 10000) in
  (∃ cart, carts !! "c" = Some cart
           ∧ Items cart = [ {| ProductID := "P1"; Quantity := 9223372036854770000 |} ])
  ∧ status (response r) = StatusOK
  ∧ (∃ cart', store r !! "c" = Some cart'
              ∧ Items cart' = [ {| ProductID := "P1"; Quantity := -9223372036854771616 |} ]).
Proof.
  remember (Z.to_nat 922337203685477) as n eqn:Hn.
  assert (Hz : Z.of_nat n = 922337203685477) by (subst n; apply Z2Nat.id; lia).
  clear Hn. intros carts r.
  assert (Hc : carts !! "c"
               = Some {| CartID := "c"; CustomerID := "C1";
                         Items := [ {| ProductID := "P1"; Quantity := 9223372036854770000 |} ];
                         CreatedAt := 0 |}).
  { subst carts. rewrite after_adds_lookup by (done || lia). rewrite Hz. reflexivity. }
  clearbody carts.
  assert (Hr : r = reply (<["c" := {| CartID := "c"; CustomerID := "C1";
                                      Items := [ {| ProductID := "P1";
                                                    Quantity := -9223372036854771616 |} ];
                                      CreatedAt := 0 |}]> carts) [] StatusOK
                     (PCart {| CartID := "c"; CustomerID := "C1";
                               Items := [ {| ProductID := "P1";
                                             Quantity := -9223372036854771616 |} ];
                               CreatedAt := 0 |})).
  { subst r. erewrite addItem_accepted; [|by apply bind_add_body|exact Hc]. reflexivity. }
  clearbody r. subst r.
  split; [eexists; split; [exact Hc|reflexivity]|].
  split; [reflexivity|].
  eexists. split; [apply lookup_insert_eq|reflexivity].
Qed.

(** C5 (amended). An accepted add-item call answers 200 with the updated
    cart and stores it.  When a line of the cart carries the product, the
    first such line gets Go's [int] sum of its quantity and the requested
    one - the exact sum whenever that lies within the range of [int] -, no
    line is added and no other line changes; when no line carries the
    product, one line with the requested quantity is appended. *)
Theorem addItem_merges_or_appends carts cartID body req cart :
  ShouldBindJSON_AddItemRequest body = Some req →
  carts !! cartID = Some cart →
  ∃ cart',
    addItemToCart carts cartID body
    = reply (<[cartID := cart']> carts) [] StatusOK (PCart cart')
    ∧ CartID cart' = CartID cart ∧ CustomerID cart' = CustomerID cart
    ∧ (∀ i it,
         list_find (fun it => ProductID it = AddItemRequest_ProductID req) (Items cart)
         = Some (i, it) →
         Items cart'
         = <[i := {| ProductID := AddItemRequest_ProductID req;
                     Quantity := GoInt.add (Quantity it) (AddItemRequest_Quantity req) |}]>
             (Items cart)
         ∧ length (Items cart') = length (Items cart)
         ∧ (GoInt.min_int ≤ Quantity it + AddItemRequest_Quantity req ≤ GoInt.max_int →
            GoInt.add (Quantity it) (AddItemRequest_Quantity req)
            = Quantity it + AddItemRequest_Quantity req))
    ∧ (list_find (fun it => ProductID it = AddItemRequest_ProductID req) (Items cart) = None →
       Items cart'
       = Items cart ++ [ {| ProductID := AddItemRequest_ProductID req;
                            Quantity := AddItemRequest_Quantity req |} ]).
Proof.
  intros Hb Hc. eexists. split; [by apply addItem_accepted|]. simpl.
  split; [done|]. split; [done|]. rewrite add_item_find. split.
  - intros i it Hf. rewrite Hf.
    pose proof Hf as (_ & <- & _)%list_find_Some.
    split; [done|]. split; [apply length_insert|]. apply add_no_wrap.
  - intros ->. done.
Qed.

Lemma addItem_merges_or_appends_witness :
  ∃ cart',
    addItemToCart (serve (take 2 scenario)) "c" (add_body "P1" 3)
    = reply (<["c" := cart']> (serve (take 2 scenario))) [] StatusOK (PCart cart')
    ∧ Items cart' = [ {| ProductID := "P1"; Quantity := 5 |} ].
Proof.
  destruct (addItem_merges_or_appends (serve (take 2 scenario)) "c" (add_body "P1" 3)
              {| AddItemRequest_ProductID := "P1"; AddItemRequest_Quantity := 3 |}
              {| CartID := "c"; CustomerID := "C1";
                 Items := [ {| ProductID := "P1"; Quantity := 2 |} ]; CreatedAt := 0 |})
    as (cart' & H1 & _ & _ & H2 & _).
  - reflexivity.
  - reflexivity.
  - exists cart'. split; [exact H1|].
    destruct (H2 0%nat {| ProductID := "P1"; Quantity := 2 |}) as (H3 & _ & _).
    + reflexivity.
    + rewrite H3. reflexivity.
Defined.

(** C6 as stated fails: [CreateCart] followed by 922337203685478 accepted
    requests of 10000 units of "P1" (the store [after_adds] builds with
    [serve]) leaves a cart whose only line has the quantity
    -9223372036854771616. *)
Lemma reachable_cart_quantity_counterexample :
  ∃ cart,
    after_adds "c" "P1" 10000 (Z.to_nat 922337203685478) !! "c" = Some cart
    ∧ Items cart = [ {| ProductID := "P1"; Quantity := -9223372036854771616 |} ]
    ∧ ¬ cart_invariant cart.
Proof.
  exists {| CartID := "c"; CustomerID := "C1";
            Items := [ {| ProductID := "P1"; Quantity := -9223372036854771616 |} ];
            CreatedAt := 0 |}.
  split; [|split].
  - rewrite after_adds_lookup by (done || lia).
    rewrite Z2Nat.id by lia. vm_compute. reflexivity.
  - reflexivity.
  - intros [_ HF]. apply Forall_inv in HF. revert HF. vm_compute. intros HF. by apply HF.
Qed.

(** C6 (amended). In every cart of the store reached by any sequence of
    requests the product ids are pairwise distinct; every quantity is at
    least 1 as long as the sequence holds at most 922337203685477 add-item
    requests (10000 times their number does not exceed 2^63-1), so that no
    line can have wrapped around. *)
Theorem reachable_cart_invariant rs cartID cart :
  serve rs !! cartID = Some cart →
  NoDup (ProductID <$> Items cart) ∧
  (10000 * count_AddItem rs ≤ GoInt.max_int → cart_invariant cart).
Proof.
  intros Hc. split.
  - pose proof (foldl_handle_NoDup rs ∅ (map_Forall_empty _)) as H.
    by apply H in Hc.
  - intros Hmax.
    pose proof (foldl_handle_bounded rs 0 ∅ ltac:(done) ltac:(lia) (map_Forall_empty _)) as H.
    apply H in Hc as [H1 H2]. split; [done|].
    eapply Forall_impl; [done|]. simpl. lia.
Qed.

Lemma reachable_cart_invariant_witness :
  serve scenario !! "c" = Some scenario_cart ∧ cart_invariant scenario_cart.
Proof.
  split; [reflexivity|].
  apply (reachable_cart_invariant scenario "c" scenario_cart).
  - reflexivity.
  - vm_compute. discriminate.
Defined.

(** C10 as stated fails: 922337203685478 accepted requests of 10000 units of
    "P1" on a fresh cart ask for 9223372036854780000 units in all, and the
    line holds -9223372036854771616. *)
Lemma quantity_sum_overflow_counterexample :
  let n := Z.to_nat 922337203685478 in
  let req := {| AddItemRequest_ProductID := "P1"; AddItemRequest_Quantity := 10000 |} in
  Forall (fun b => ShouldBindJSON_AddItemRequest b = Some req)
         (replicate n (add_body "P1" 10000))
  ∧ requested (replicate n req) = 9223372036854780000
  ∧ ∃ cart',
      add_all (serve [CreateCart (env_ok "c") (create_body "C1")]) "c"
              (replicate n (add_body "P1" 10000)) !! "c" = Some cart'
      ∧ line_quantity "P1" (Items cart') = Some (-9223372036854771616).
Proof.
  intros n req.
  assert (Hz : Z.of_nat n = 922337203685478) by (subst n; apply Z2Nat.id; lia).
  clearbody n. subst req. split; [|split].
  - apply Forall_replicate. reflexivity.
  - rewrite requested_replicate, Hz. reflexivity.
  - eexists. split.
    + apply add_all_fresh; [done|lia|lia].
    + rewrite Hz. vm_compute. reflexivity.
Qed.

(** C10 (amended). The bound 1..10000 is checked on each request only.
    After a non-empty run of accepted add-item calls for a product the cart
    did not hold, the line's quantity is the sum of the requested
    quantities reduced to Go's [int] by wrap-around, hence that sum itself
    whenever it does not exceed 2^63-1; nothing caps it at 10000. *)
Theorem quantity_accumulates carts cartID cart p bodies reqs :
  carts !! cartID = Some cart →
  line_quantity p (Items cart) = None →
  reqs ≠ [] →
  Forall2 (fun b r => ShouldBindJSON_AddItemRequest b = Some r
                      ∧ AddItemRequest_ProductID r = p) bodies reqs →
  ∃ cart', add_all carts cartID bodies !! cartID = Some cart' ∧
           line_quantity p (Items cart') = Some (GoInt.wrap (requested reqs)) ∧
           (requested reqs ≤ GoInt.max_int →
            line_quantity p (Items cart') = Some (requested reqs)).
Proof.
  intros Hc Hl Hne HF.
  destruct HF as [|b r bodies' reqs' [Hb Hp] HF]; [done|].
  unfold add_all. simpl foldl. erewrite addItem_accepted; [|done..]. simpl store.
  set (cart1 := {| CartID := CartID cart; CustomerID := CustomerID cart;
                    Items := add_item (Items cart) r; CreatedAt := CreatedAt cart |}).
  destruct (add_all_line bodies' reqs' (<[cartID := cart1]> carts) cartID cart1 p
              (AddItemRequest_Quantity r)) as (cart' & Hc' & Hl');
    [apply lookup_insert_eq| |done|].
  { simpl. subst p. rewrite line_quantity_add_item, Hl. done. }
  exists cart'. split; [done|].
  pose proof (bind_AddItem_valid _ _ Hb) as [_ Hq].
  assert (Hsum : line_quantity p (Items cart') = Some (GoInt.wrap (requested (r :: reqs')))).
  { rewrite Hl'. f_equal.
    rewrite <- (wrap_in_range (AddItemRequest_Quantity r))
      by (unfold GoInt.min_int, GoInt.max_int; lia).
    rewrite foldl_add_wrap. f_equal. simpl. f_equal.
    clear. induction reqs' as [|r' reqs' IH]; [done|].
    rewrite fmap_cons. simpl. f_equal. exact IH. }
  split; [done|]. intros Hmax. rewrite Hsum. f_equal.
  apply wrap_in_range. split; [|done].
  assert (0 ≤ requested reqs').
  { clear -HF. induction HF as [|b' r' ? ? [Hb' _] _ IH]; [done|].
    simpl. apply bind_AddItem_valid in Hb' as [_ ?]. lia. }
  simpl. unfold GoInt.min_int. lia.
Qed.

Lemma quantity_accumulates_witness :
  ∃ cart',
    add_all (serve [CreateCart (env_ok "c") (create_body "C1")]) "c"
            [add_body "P1" 10000; add_body "P1" 10000] !! "c" = Some cart'
    ∧ line_quantity "P1" (Items cart') = Some 20000
    ∧ 10000 < 20000.
Proof.
  destruct (quantity_accumulates (serve [CreateCart (env_ok "c") (create_body "C1")]) "c"
              empty_cart "P1" [add_body "P1" 10000; add_body "P1" 10000]
              [ {| AddItemRequest_ProductID := "P1"; AddItemRequest_Quantity := 10000 |};
                {| AddItemRequest_ProductID := "P1"; AddItemRequest_Quantity := 10000 |} ])
    as (cart' & H1 & H2 & H3).
  - reflexivity.
  - reflexivity.
  - discriminate.
  - repeat constructor.
  - exists cart'. split; [exact H1|]. split; [|reflexivity].
    apply H3. vm_compute. discriminate.
Defined.

End cart_facts.

(** ** The warehouse consumer *)

Section warehouse_facts.
Import Warehouse WarehouseSpec.

(** *** Sums over lists *)

Lemma total_nil {A} (f : A → Z) : total f [] = 0.
Proof. done. Qed.

Lemma total_cons {A} (f : A → Z) x l : total f (x :: l) = f x + total f l.
Proof. done. Qed.

Lemma total_app {A} (f : A → Z) l1 l2 : total f (l1 ++ l2) = total f l1 + total f l2.
Proof.
  induction l1 as [|x l1 IH]; [done|].
  rewrite <- app_comm_cons, !total_cons, IH. lia.
Qed.

Lemma total_insert {A} (f : A → Z) l i x y :
  l !! i = Some x → total f (<[i := y]> l) = total f l - f x + f y.
Proof.
  revert i. induction l as [|z l IH]; intros [|i] H; try done.
  - injection H as ->. simpl. rewrite !total_cons. lia.
  - simpl. rewrite !total_cons, (IH i) by done. lia.
Qed.

Lemma total_replicate {A} (f : A → Z) n x : total f (replicate n x) = Z.of_nat n * f x.
Proof.
  induction n as [|n IH]; [done|].
  simpl replicate. rewrite total_cons, IH. lia.
Qed.

Lemma total_zero {A} (f g : A → Z) l :
  (∀ x, 0 ≤ g x) → (∀ x, g x = 0 → f x = 0) → total g l = 0 → total f l = 0.
Proof.
  intros Hg Hfg. induction l as [|x l IH]; [done|].
  rewrite !total_cons. intros H.
  assert (0 ≤ total g l).
  { clear -Hg. induction l as [|y l IH]; [done|]. rewrite total_cons. specialize (Hg y). lia. }
  pose proof (Hg x). rewrite IH, Hfg by lia. done.
Qed.

Lemma quantity_of_insert m k v p :
  quantity_of (<[k := v]> m) p = if bool_decide (k = p) then v else quantity_of m p.
Proof.
  unfold quantity_of. case_bool_decide as H.
  - subst. by rewrite lookup_insert_eq.
  - by rewrite lookup_insert_ne.
Qed.

Lemma delivery_quantity_None p msg :
  json_Unmarshal (Body msg) = None → delivery_quantity p msg = 0.
Proof. unfold delivery_quantity. by intros ->. Qed.

Lemma delivery_quantity_Some p msg order :
  json_Unmarshal (Body msg) = Some order →
  delivery_quantity p msg = order_quantity p (Items order).
Proof. unfold delivery_quantity. by intros ->. Qed.

Lemma order_quantity_cons p item rest :
  order_quantity p (item :: rest)
  = (if bool_decide (ProductID item = p) then Quantity item else 0) + order_quantity p rest.
Proof. done. Qed.

Lemma acknowledged_cons msg v s :
  length (acknowledged (with_verdict msg v s))
  = (match v with Ack _ => 1 | Nack _ _ => 0 end + length (acknowledged s))%nat.
Proof.
  unfold acknowledged. rewrite !length_fmap.
  change (broker (with_verdict msg v s)) with ((msg, v) :: broker s).
  rewrite filter_cons. destruct v; done.
Qed.

Lemma acknowledged_with_worker w st s :
  acknowledged (with_worker w st s) = acknowledged s.
Proof. done. Qed.


Lemma total_nonneg {A} (f : A → Z) l : (∀ x, 0 ≤ f x) → 0 ≤ total f l.
Proof.
  intros Hf. induction l as [|y l IH]; [done|].
  rewrite total_cons. specialize (Hf y). lia.
Qed.

Lemma total_lookup_le {A} (f : A → Z) l i x :
  (∀ x, 0 ≤ f x) → l !! i = Some x → f x ≤ total f l.
Proof.
  intros Hf. revert i. induction l as [|z l IH]; intros [|i] Hi; try done;
    rewrite total_cons; simpl in Hi.
  - injection Hi as ->. pose proof (total_nonneg f l Hf). lia.
  - specialize (IH i Hi). specialize (Hf z). lia.
Qed.

Lemma total_two {A} (f : A → Z) l i j x y :
  (∀ x, 0 ≤ f x) → i ≠ j → l !! i = Some x → l !! j = Some y → f x + f y ≤ total f l.
Proof.
  intros Hf. revert i j.
  induction l as [|z l IH]; intros [|i] [|j] Hne Hi Hj; try done;
    rewrite total_cons; simpl in Hi, Hj.
  - injection Hi as ->. pose proof (total_lookup_le f l j y Hf Hj). lia.
  - injection Hj as ->. pose proof (total_lookup_le f l i x Hf Hi). lia.
  - assert (i ≠ j) by congruence.
    specialize (IH i j ltac:(done) Hi Hj). specialize (Hf z). lia.
Qed.

Lemma critical_nonneg w : 0 ≤ critical w.
Proof. destruct w; simpl; lia. Qed.

Lemma acknowledged_with_stats st s : acknowledged (with_stats st s) = acknowledged s.
Proof. done. Qed.

Lemma acknowledged_with_mutex b s : acknowledged (with_mutex b s) = acknowledged s.
Proof. done. Qed.

Lemma acknowledged_with_chan c s : acknowledged (with_chan c s) = acknowledged s.
Proof. done. Qed.

Ltac sums :=
  rewrite ?acknowledged_with_worker, ?acknowledged_with_stats, ?acknowledged_with_mutex,
    ?acknowledged_with_chan, ?acknowledged_cons;
  unfold queued in *; simpl in *;
  repeat (erewrite total_insert by eassumption);
  rewrite ?length_app, ?total_app, ?Nat2Z.inj_add, ?total_cons, ?total_nil in *;
  simpl in *.

Ltac loaded_other w Hld :=
  let w' := fresh "w'" in let H := fresh "H" in
  intros w' ? ? ? ? H;
  destruct (decide (w' = w)) as [->|?];
  [ rewrite list_lookup_insert_eq in H by (by eapply lookup_lt_Some); try done
  | rewrite list_lookup_insert_ne in H by done; by eapply Hld ].

Lemma step_worker_invariant D w s s' :
  invariant D s → step_worker w s = Some s' → invariant D s'.
Proof.
  intros [Hset Hack [kc Hcnt] Hqty [Hr1 Hr2] Hmut Hld] Hstep.
  unfold step_worker in Hstep.
  destruct (workers s !! w) as [st|] eqn:Hw; simpl in Hstep; [|done].
  destruct st as [|msg|msg order|msg items|msg item rest|msg item rest old|msg rest|msg|].
  - (* Receive *)
    destruct (messageChan s) as [|msg rest] eqn:Hch.
    + destruct (messageChan_closed s); [|done]. injection Hstep as <-.
      split; sums; rewrite ?Hch in *; sums.
      * lia.
      * lia.
      * exists kc. lia.
      * intros p. destruct (Hqty p) as [k Hk]. exists k. sums. lia.
      * done.
      * lia.
      * loaded_other w Hld.
    + injection Hstep as <-.
      split; sums; rewrite ?Hch in *; sums.
      * lia.
      * lia.
      * exists kc. lia.
      * intros p. destruct (Hqty p) as [k Hk]. exists k. sums. lia.
      * done.
      * lia.
      * loaded_other w Hld.
  - (* Unmarshal *)
    destruct (json_Unmarshal (Body msg)) as [order|] eqn:Hdec; injection Hstep as <-.
    + split; sums; unfold decodable in *; rewrite ?Hdec in *.
      * lia.
      * lia.
      * exists kc. lia.
      * intros p. destruct (Hqty p) as [k Hk]. exists k. sums.
        unfold delivery_quantity in *. rewrite ?Hdec in *. lia.
      * done.
      * lia.
      * loaded_other w Hld.
    + split; sums; unfold decodable in *; rewrite ?Hdec in *.
      * lia.
      * lia.
      * exists kc. lia.
      * intros p. destruct (Hqty p) as [k Hk]. exists k. sums.
        unfold delivery_quantity in *. rewrite ?Hdec in *. lia.
      * done.
      * lia.
      * loaded_other w Hld.
  - (* AddOrder *)
    injection Hstep as <-.
    destruct (add_as_Z (totalOrders (stats s)) 1) as [c Hc].
    split; sums.
    + lia.
    + lia.
    + exists (kc + c). lia.
    + intros p. destruct (Hqty p) as [k Hk]. exists k. sums. lia.
    + split; [apply wrap_bounds|done].
    + lia.
    + loaded_other w Hld.
  - (* Lock *)
    destruct items as [|item rest].
    + injection Hstep as <-. split; sums.
      * lia.
      * lia.
      * exists kc. lia.
      * intros p. destruct (Hqty p) as [k Hk]. exists k. sums. lia.
      * done.
      * lia.
      * loaded_other w Hld.
    + destruct (productMutex s) eqn:Hm; [done|]. injection Hstep as <-. split; sums.
      * lia.
      * lia.
      * exists kc. lia.
      * intros p. destruct (Hqty p) as [k Hk]. exists k. sums. lia.
      * done.
      * lia.
      * loaded_other w Hld.
  - (* Load *)
    injection Hstep as <-. split; sums.
    + lia.
    + lia.
    + exists kc. lia.
    + intros p. destruct (Hqty p) as [k Hk]. exists k. sums. lia.
    + done.
    + lia.
    + loaded_other w Hld. by injection H as _ <- _ <-.
  - (* Store *)
    injection Hstep as <-.
    pose proof (Hld _ _ _ _ _ Hw) as Hold.
    split; sums.
    + lia.
    + lia.
    + exists kc. lia.
    + intros p. destruct (Hqty p) as [k Hk]. sums.
      rewrite quantity_of_insert.
      destruct (add_as_Z old (Quantity item)) as [c Hc].
      case_bool_decide as Hp.
      * exists (k + c). subst p. rewrite <- Hold in Hk. lia.
      * exists k. lia.
    + split; [done|]. intros p. rewrite quantity_of_insert.
      case_bool_decide; [apply wrap_bounds|apply Hr2].
    + lia.
    + intros w' msg' item' rest' old' H.
      destruct (decide (w' = w)) as [->|Hne].
      * rewrite list_lookup_insert_eq in H by (by eapply lookup_lt_Some). done.
      * rewrite list_lookup_insert_ne in H by done.
        pose proof (total_two critical _ _ _ _ _ critical_nonneg Hne H Hw) as H2.
        simpl in H2. destruct (productMutex s); lia.
  - (* Unlock *)
    destruct (productMutex s) eqn:Hm; [|done]. injection Hstep as <-. split; sums.
    + lia.
    + lia.
    + exists kc. lia.
    + intros p. destruct (Hqty p) as [k Hk]. exists k. sums. lia.
    + done.
    + lia.
    + loaded_other w Hld.
  - (* Acknowledge *)
    injection Hstep as <-. split; sums.
    + lia.
    + lia.
    + exists kc. lia.
    + intros p. destruct (Hqty p) as [k Hk]. exists k. sums. lia.
    + done.
    + lia.
    + loaded_other w Hld.
  - done.
Qed.

Lemma total_forward {A} (f : A → Z) x rest chan :
  total f (rest ++ chan ++ [x]) = total f ((x :: rest) ++ chan).
Proof. rewrite <- app_comm_cons, total_cons, !total_app, total_cons, total_nil. lia. Qed.

Lemma length_forward {A} (x : A) rest chan :
  length (rest ++ chan ++ [x]) = length ((x :: rest) ++ chan).
Proof. rewrite <- app_comm_cons. simpl. rewrite !length_app. simpl. lia. Qed.

Lemma step_distributor_invariant D s s' :
  invariant D s → step_distributor s = Some s' → invariant D s'.
Proof.
  intros [Hset Hack Hcnt Hqty Hr Hmut Hld] Hstep.
  unfold step_distributor in Hstep.
  destruct (distributor_done s); [done|].
  destruct (msgs s) as [|msg rest] eqn:Hm.
  - destruct (msgs_closed s); [|done].
    injection Hstep as <-. unfold queued in *. rewrite Hm in *. by split.
  - case_bool_decide; [|done]. injection Hstep as <-.
    unfold queued in *. rewrite Hm in *.
    split; unfold queued, acknowledged in *; simpl msgs; simpl messageChan; simpl workers;
      simpl stats; simpl broker; simpl productMutex;
      rewrite ?total_forward, ?length_forward; try done.
  intros p. rewrite total_forward. apply Hqty.
Qed.

Lemma start_invariant n D : invariant D (start n D).
Proof.
  split; unfold queued, acknowledged; simpl;
    rewrite ?app_nil_r, ?total_replicate; simpl.
  - lia.
  - lia.
  - exists 0. lia.
  - intros p. exists 0. unfold quantity_of. rewrite lookup_empty, total_replicate. simpl. lia.
  - split; [done|]. intros p. unfold quantity_of. rewrite lookup_empty. done.
  - lia.
  - intros w msg item rest old H. apply lookup_replicate in H as [? _]. done.
Qed.

Lemma run_invariant D schedule : ∀ s s',
  invariant D s → run schedule s = Some s' → invariant D s'.
Proof.
  induction schedule as [|a schedule IH]; intros s s' Hinv Hrun; simpl in Hrun.
  - by injection Hrun as <-.
  - destruct (step a s) as [s1|] eqn:Hstep; simpl in Hrun; [|done].
    eapply IH; [|done].
    destruct a; simpl in Hstep.
    + by eapply step_distributor_invariant.
    + by eapply step_worker_invariant.
Qed.

Lemma unsettled_nonneg w : 0 ≤ unsettled w.
Proof. destruct w; simpl; lia. Qed.

Lemma decodable_bounds msg : 0 ≤ decodable msg ≤ 1.
Proof. unfold decodable. destruct (json_Unmarshal _); lia. Qed.

Lemma total_decodable_le l : 0 ≤ total decodable l ≤ Z.of_nat (length l).
Proof.
  induction l as [|m l IH]; [done|].
  rewrite total_cons. simpl length. pose proof (decodable_bounds m). lia.
Qed.

Lemma all_acknowledged_quiescent D s :
  invariant D s →
  length (acknowledged s) = length D →
  queued s = [] ∧ total unsettled (workers s) = 0 ∧ total decodable D = Z.of_nat (length D).
Proof.
  intros [Hset Hack _ _ _ _ _] Hlen.
  assert (length (acknowledged s) ≤ length (broker s))%nat.
  { unfold acknowledged. rewrite length_fmap. apply length_filter. }
  pose proof (total_nonneg unsettled (workers s) unsettled_nonneg).
  assert (length (queued s) = 0%nat ∧ total unsettled (workers s) = 0) as [Hq Hu] by lia.
  split; [by apply nil_length_inv|]. split; [done|].
  apply nil_length_inv in Hq. rewrite Hq in Hack. rewrite total_nil in Hack.
  assert (total unacked (workers s) = 0).
  { eapply (total_zero unacked unsettled); [apply unsettled_nonneg| |done].
    intros [] ?; simpl in *; try done; lia. }
  lia.
Qed.

(** *** Verdicts *)

Lemma step_worker_verdicts w s s' :
  verdicts_invariant s → step_worker w s = Some s' → verdicts_invariant s'.
Proof.
  intros [Hw Hb] Hstep. unfold step_worker in Hstep.
  destruct (workers s !! w) as [st|] eqn:Hst; simpl in Hstep; [|done].
  pose proof (Forall_lookup_1 _ _ _ _ Hw Hst) as Hheld.
  destruct st as [|msg|msg order|msg items|msg item rest|msg item rest old|msg rest|msg|];
    simpl in Hheld.
  - destruct (messageChan s) as [|msg rest].
    + destruct (messageChan_closed s); [|done]. injection Hstep as <-.
      split; simpl; [by apply Forall_insert|done].
    + injection Hstep as <-. split; simpl; [by apply Forall_insert|done].
  - destruct (json_Unmarshal (Body msg)) as [order|] eqn:Hdec; injection Hstep as <-.
    + split; simpl; [|done]. apply Forall_insert; [done|]. simpl. by rewrite Hdec.
    + split; simpl; [by apply Forall_insert|].
      apply Forall_cons. split; [|done]. unfold verdict_of. simpl. by rewrite Hdec.
  - injection Hstep as <-. split; simpl; [by apply Forall_insert|done].
  - destruct items as [|item rest].
    + injection Hstep as <-. split; simpl; [by apply Forall_insert|done].
    + destruct (productMutex s); [done|]. injection Hstep as <-.
      split; simpl; [by apply Forall_insert|done].
  - injection Hstep as <-. split; simpl; [by apply Forall_insert|done].
  - injection Hstep as <-. split; simpl; [by apply Forall_insert|done].
  - destruct (productMutex s); [|done]. injection Hstep as <-.
    split; simpl; [by apply Forall_insert|done].
  - injection Hstep as <-. split; simpl; [by apply Forall_insert|].
    apply Forall_cons. split; [|done]. unfold verdict_of. simpl.
    destruct Hheld as [order ->]. done.
  - done.
Qed.

Lemma step_distributor_verdicts s s' :
  verdicts_invariant s → step_distributor s = Some s' → verdicts_invariant s'.
Proof.
  intros [Hw Hb] Hstep. unfold step_distributor in Hstep.
  destruct (distributor_done s); [done|].
  destruct (msgs s) as [|msg rest].
  - destruct (msgs_closed s); [|done]. injection Hstep as <-. by split.
  - case_bool_decide; [|done]. injection Hstep as <-. by split.
Qed.

Lemma run_verdicts schedule : ∀ s s',
  verdicts_invariant s → run schedule s = Some s' → verdicts_invariant s'.
Proof.
  induction schedule as [|a schedule IH]; intros s s' Hinv Hrun; simpl in Hrun.
  - by injection Hrun as <-.
  - destruct (step a s) as [s1|] eqn:Hstep; simpl in Hrun; [|done].
    eapply IH; [|done].
    destruct a; simpl in Hstep.
    + by eapply step_distributor_verdicts.
    + by eapply step_worker_verdicts.
Qed.

Lemma start_verdicts n D : verdicts_invariant (start n D).
Proof.
  split; simpl; [|done]. apply Forall_forall. intros w Hw.
  apply elem_of_replicate in Hw as [-> _]. done.
Qed.

(** C8. A delivery whose body does not decode is never acknowledged: the
    loop body answers [Nack(false, false)] - no requeue - and leaves the
    counters as they are; in the pool, the worker that holds it sends that
    verdict without touching the counters, and in every interleaving the
    only verdict the broker ever gets for it is [Nack(false, false)]. *)
Theorem malformed_rejected msg :
  json_Unmarshal (Body msg) = None →
  (∀ st, process_delivery st msg = (st, Nack false false))
  ∧ (∀ w s, workers s !! w = Some (Unmarshal msg) →
       ∃ s', step_worker w s = Some s'
             ∧ stats s' = stats s
             ∧ broker s' = (msg, Nack false false) :: broker s
             ∧ workers s' !! w = Some Receive)
  ∧ (∀ n D schedule s v,
       run schedule (start n D) = Some s →
       (msg, v) ∈ broker s → v = Nack false false).
Proof.
  intros Hdec. split_and!.
  - intros st. unfold process_delivery. by rewrite Hdec.
  - intros w s Hw. unfold step_worker. rewrite Hw. simpl. rewrite Hdec.
    eexists. split; [done|]. simpl. split_and!; try done.
    apply list_lookup_insert_eq. by eapply lookup_lt_Some.
  - intros n D schedule s v Hrun Hin.
    destruct (run_verdicts schedule _ _ (start_verdicts n D) Hrun) as [_ Hb].
    eapply Forall_forall in Hb; [|done]. simpl in Hb.
    unfold verdict_of in Hb. by rewrite Hdec in Hb.
Qed.

Lemma malformed_rejected_witness :
  process_delivery initial_stats garbage_delivery = (initial_stats, Nack false false)
  ∧ process_delivery initial_stats {| DeliveryTag := 8; Body := Some (Json.JArray []) |}
    = (initial_stats, Nack false false).
Proof.
  split.
  - apply (malformed_rejected garbage_delivery). reflexivity.
  - apply (malformed_rejected {| DeliveryTag := 8; Body := Some (Json.JArray []) |}).
    reflexivity.
Defined.

(** *** Counting *)

Lemma process_delivery_null st :
  process_delivery st null_delivery
  = ({| totalOrders := GoInt.add (totalOrders st) 1; productQty := productQty st |}, Ack false).
Proof. reflexivity. Qed.

Lemma processMessages_cons st msg rest :
  processMessages st (msg :: rest)
  = ((processMessages (process_delivery st msg).1 rest).1,
     (msg, (process_delivery st msg).2) :: (processMessages (process_delivery st msg).1 rest).2).
Proof.
  simpl. destruct (process_delivery st msg) as [st' v]. simpl.
  destruct (processMessages st' rest) as [st'' vs]. done.
Qed.

Lemma processMessages_null n : ∀ x m,
  (processMessages {| totalOrders := GoInt.wrap x; productQty := m |}
                   (replicate n null_delivery)).1
  = {| totalOrders := GoInt.wrap (x + Z.of_nat n); productQty := m |}.
Proof.
  induction n as [|n IH]; intros x m.
  - simpl. by rewrite Z.add_0_r.
  - change (replicate (S n) null_delivery) with (null_delivery :: replicate n null_delivery).
    rewrite processMessages_cons, process_delivery_null.
    cbn [fst totalOrders productQty]. unfold GoInt.add. rewrite wrap_add_l, IH.
    f_equal. f_equal. lia.
Qed.

(** *** One worker alone *)

Lemma run_app s1 s2 : ∀ s, run (s1 ++ s2) s = run s1 s ≫= run s2.
Proof.
  induction s1 as [|a s1 IH]; intros s; [done|].
  simpl. destruct (step a s) as [s'|]; simpl; [apply IH|done].
Qed.

Lemma run_cons a schedule s : run (a :: schedule) s = step a s ≫= run schedule.
Proof. done. Qed.

Lemma run_nil s : run [] s = Some s.
Proof. done. Qed.

Lemma solo_forward w0 st mu msg todo k b :
  step Distributor (solo w0 st mu (msg :: todo) [] k b) = Some (solo w0 st mu todo [msg] k b).
Proof. done. Qed.

Lemma solo_receive st mu todo msg chan k b :
  step (WorkerN 0) (solo Receive st mu todo (msg :: chan) k b)
  = Some (solo (Unmarshal msg) st mu todo chan k b).
Proof. done. Qed.

Lemma solo_unmarshal st mu todo msg chan k b :
  step (WorkerN 0) (solo (Unmarshal msg) st mu todo chan k b)
  = Some (match json_Unmarshal (Body msg) with
          | Some order => solo (AddOrder msg order) st mu todo chan k b
          | None => solo Receive st mu todo chan k ((msg, Nack false false) :: b)
          end).
Proof. unfold step, step_worker. simpl. by destruct (json_Unmarshal (Body msg)). Qed.

Lemma solo_add_order st mu todo msg order chan k b :
  step (WorkerN 0) (solo (AddOrder msg order) st mu todo chan k b)
  = Some (solo (Lock msg (Items order))
            {| totalOrders := GoInt.add (totalOrders st) 1; productQty := productQty st |}
            mu todo chan k b).
Proof. done. Qed.

Lemma solo_critical st todo msg item rest chan k b :
  run (replicate 4 (WorkerN 0)) (solo (Lock msg (item :: rest)) st false todo chan k b)
  = Some (solo (Lock msg rest)
            {| totalOrders := totalOrders st; productQty := add_quantity (productQty st) item |}
            false todo chan k b).
Proof. done. Qed.

Lemma solo_acknowledge st mu todo msg chan k b :
  run [WorkerN 0; WorkerN 0] (solo (Lock msg []) st mu todo chan k b)
  = Some (solo Receive st mu todo chan k ((msg, Ack false) :: b)).
Proof. done. Qed.

Lemma solo_items msg items : ∀ st todo k b,
  run (replicate (4 * length items) (WorkerN 0)) (solo (Lock msg items) st false todo [] k b)
  = Some (solo (Lock msg [])
            {| totalOrders := totalOrders st;
               productQty := foldl add_quantity (productQty st) items |}
            false todo [] k b).
Proof.
  induction items as [|item rest IH]; intros st todo k b.
  - simpl. by destruct st.
  - replace (4 * length (item :: rest))%nat with (4 + 4 * length rest)%nat by (simpl; lia).
    rewrite replicate_add, run_app, solo_critical. cbn [mbind option_bind]. rewrite IH. done.
Qed.

Lemma solo_delivery msg st todo k b :
  ∃ schedule,
    run schedule (solo Receive st false (msg :: todo) [] k b)
    = Some (solo Receive (process_delivery st msg).1 false todo [] k
              ((msg, (process_delivery st msg).2) :: b)).
Proof.
  unfold process_delivery.
  destruct (json_Unmarshal (Body msg)) as [order|] eqn:Hdec.
  - exists ([Distributor; WorkerN 0; WorkerN 0; WorkerN 0]
            ++ replicate (4 * length (Items order)) (WorkerN 0)
            ++ [WorkerN 0; WorkerN 0]).
    rewrite run_app.
    rewrite run_cons, solo_forward. cbn [mbind option_bind].
    rewrite run_cons, solo_receive. cbn [mbind option_bind].
    rewrite run_cons, solo_unmarshal, Hdec. cbn [mbind option_bind].
    rewrite run_cons, solo_add_order. cbn [mbind option_bind].
    rewrite run_nil. cbn [mbind option_bind].
    rewrite run_app, solo_items. cbn [mbind option_bind]. rewrite solo_acknowledge. done.
  - exists [Distributor; WorkerN 0; WorkerN 0].
    rewrite run_cons, solo_forward. cbn [mbind option_bind].
    rewrite run_cons, solo_receive. cbn [mbind option_bind].
    rewrite run_cons, solo_unmarshal, Hdec. done.
Qed.

Lemma serial_run D : ∀ st k b,
  ∃ schedule,
    run schedule (solo Receive st false D [] k b)
    = Some (solo Receive (processMessages st D).1 false [] [] k
              (reverse (processMessages st D).2 ++ b)).
Proof.
  induction D as [|msg D IH]; intros st k b.
  - exists []. done.
  - destruct (solo_delivery msg st D k b) as [s1 H1].
    destruct (IH (process_delivery st msg).1 k ((msg, (process_delivery st msg).2) :: b))
      as [s2 H2].
    exists (s1 ++ s2). rewrite run_app, H1. cbn [mbind option_bind]. rewrite H2.
    rewrite processMessages_cons. simpl. rewrite reverse_cons, <- app_assoc. done.
Qed.

(** Some interleaving runs the pool to the end of any list of deliveries:
    worker 0 alone takes them one by one, and leaves the counters and the
    verdicts of [processMessages]. *)
Lemma serial_execution k D :
  ∃ schedule s,
    run schedule (start (S k) D) = Some s
    ∧ stats s = (processMessages initial_stats D).1
    ∧ broker s = reverse (processMessages initial_stats D).2
    ∧ queued s = [].
Proof.
  destruct (serial_run D initial_stats k []) as [schedule H].
  exists schedule. eexists. split; [exact H|]. simpl. rewrite app_nil_r. done.
Qed.

Lemma processMessages_verdicts D : ∀ st,
  (processMessages st D).2 = (fun msg => (msg, verdict_of msg)) <$> D.
Proof.
  induction D as [|msg D IH]; intros st; [done|].
  rewrite processMessages_cons, fmap_cons. simpl. rewrite IH. f_equal. f_equal.
  unfold process_delivery, verdict_of. by destruct (json_Unmarshal (Body msg)).
Qed.

Lemma foldl_add_quantity p items : ∀ m x,
  quantity_of m p = GoInt.wrap x →
  quantity_of (foldl add_quantity m items) p = GoInt.wrap (x + order_quantity p items).
Proof.
  induction items as [|item rest IH]; intros m x Hm.
  - simpl. by rewrite Z.add_0_r.
  - simpl foldl. rewrite order_quantity_cons, Z.add_assoc.
    apply IH.
    unfold add_quantity. rewrite quantity_of_insert. case_bool_decide as Hp.
    + subst p. rewrite Hm. unfold GoInt.add. by rewrite wrap_add_l.
    + rewrite Hm. f_equal. lia.
Qed.

Lemma processMessages_counts D : ∀ st x,
  totalOrders st = GoInt.wrap x →
  totalOrders (processMessages st D).1 = GoInt.wrap (x + total decodable D)
  ∧ ∀ p y, quantity_of (productQty st) p = GoInt.wrap y →
           quantity_of (productQty (processMessages st D).1) p
           = GoInt.wrap (y + total (delivery_quantity p) D).
Proof.
  induction D as [|msg D IH]; intros st x Hx.
  - simpl. rewrite total_nil, Z.add_0_r. split; [done|]. intros p y Hy.
    by rewrite total_nil, Z.add_0_r.
  - rewrite processMessages_cons. cbn [fst]. rewrite !total_cons.
    destruct (json_Unmarshal (Body msg)) as [order|] eqn:Hdec.
    + assert (Hpd : (process_delivery st msg).1 = processOrder order st)
        by (unfold process_delivery; by rewrite Hdec).
      assert (Hd : decodable msg = 1) by (unfold decodable; by rewrite Hdec).
      rewrite Hpd, Hd.
      destruct (IH (processOrder order st) (x + 1)) as [H1 H2].
      { simpl. rewrite Hx. unfold GoInt.add. by rewrite wrap_add_l. }
      split; [rewrite H1; f_equal; lia|].
      intros p y Hy. rewrite total_cons, (delivery_quantity_Some p msg order Hdec), Z.add_assoc.
      apply H2. simpl. by apply foldl_add_quantity.
    + assert (Hpd : (process_delivery st msg).1 = st)
        by (unfold process_delivery; by rewrite Hdec).
      assert (Hd : decodable msg = 0) by (unfold decodable; by rewrite Hdec).
      rewrite Hpd, Hd.
      destruct (IH st x Hx) as [H1 H2].
      split; [rewrite H1; f_equal; lia|].
      intros p y Hy. rewrite total_cons, (delivery_quantity_None p msg Hdec).
      by apply H2.
Qed.

(** Deliveries that all decode can all be acknowledged: the hypothesis of
    the statements about complete runs can be met for every such list. *)
Lemma complete_execution_exists k D :
  Forall (fun msg => is_Some (json_Unmarshal (Body msg))) D →
  ∃ schedule s,
    run schedule (start (S k) D) = Some s ∧ length (acknowledged s) = length D.
Proof.
  intros HD. destruct (serial_execution k D) as (schedule & s & Hrun & _ & Hb & _).
  exists schedule, s. split; [done|].
  unfold acknowledged. rewrite Hb, processMessages_verdicts, length_fmap.
  rewrite <- (length_reverse D). rewrite <- fmap_reverse.
  apply Forall_reverse in HD. induction HD as [|msg D' [order Hm] _ IH]; [done|].
  rewrite fmap_cons, filter_cons_True; [simpl; by rewrite IH|].
  unfold is_Ack, verdict_of. simpl. by rewrite Hm.
Qed.

(** *** Complete runs *)

Lemma acknowledged_counts n D schedule s :
  run schedule (start n D) = Some s →
  length (acknowledged s) = length D →
  total decodable D = Z.of_nat (length D)
  ∧ totalOrders (stats s) = GoInt.wrap (Z.of_nat (length D))
  ∧ ∀ p, quantity_of (productQty (stats s)) p = GoInt.wrap (total (delivery_quantity p) D).
Proof.
  intros Hrun Hlen.
  pose proof (run_invariant D schedule _ _ (start_invariant n D) Hrun) as Hinv.
  destruct (all_acknowledged_quiescent D s Hinv Hlen) as (Hq & Hu & HD).
  destruct Hinv as [_ _ [kc Hcnt] Hqty [Hr1 Hr2] _ _].
  rewrite Hq, total_nil in Hcnt.
  assert (Huc : total uncounted (workers s) = 0).
  { eapply (total_zero uncounted unsettled); [apply unsettled_nonneg| |done].
    intros [] ?; simpl in *; try done; lia. }
  split; [done|]. split.
  { eapply eq_wrap_of_congr; [done|]. rewrite <- HD. instantiate (1 := kc). lia. }
  intros p. destruct (Hqty p) as [k Hk]. rewrite Hq, total_nil in Hk.
  assert (Hown : total (owed p) (workers s) = 0).
  { eapply (total_zero (owed p) unsettled); [apply unsettled_nonneg| |done].
    intros [] ?; simpl in *; try done; lia. }
  eapply eq_wrap_of_congr; [apply Hr2|]. instantiate (1 := k). lia.
Qed.

(** C3 (amended). Whatever the interleaving of the distributor and the
    workers, once all N deliveries are acknowledged [totalOrders] is N and
    the quantity accumulated for a product is the arithmetic sum of that
    product's quantities over the N orders, both reduced to int64 by
    wrap-around; so they are exactly N and exactly the arithmetic sum
    whenever these lie within the range of int64.  They are also what one
    worker alone, running [processMessages] over the N deliveries, leaves
    in the counters. *)
Theorem pool_counts_modulo_wrap n D schedule s :
  run schedule (start n D) = Some s →
  length (acknowledged s) = length D →
  totalOrders (stats s) = GoInt.wrap (Z.of_nat (length D))
  ∧ (Z.of_nat (length D) ≤ GoInt.max_int → totalOrders (stats s) = Z.of_nat (length D))
  ∧ (∀ p,
       quantity_of (productQty (stats s)) p = GoInt.wrap (total (delivery_quantity p) D)
       ∧ (GoInt.min_int ≤ total (delivery_quantity p) D ≤ GoInt.max_int →
          quantity_of (productQty (stats s)) p = total (delivery_quantity p) D))
  ∧ totalOrders (stats s) = totalOrders (processMessages initial_stats D).1
  ∧ (∀ p, quantity_of (productQty (stats s)) p
          = quantity_of (productQty (processMessages initial_stats D).1) p).
Proof.
  intros Hrun Hlen.
  destruct (acknowledged_counts n D schedule s Hrun Hlen) as (HD & Htot & Hqty).
  destruct (processMessages_counts D initial_stats 0 eq_refl) as [Hs1 Hs2].
  split_and!.
  - done.
  - intros Hmax. rewrite Htot. apply wrap_in_range. unfold GoInt.min_int. lia.
  - intros p. split; [done|]. intros Hrange. rewrite Hqty. by apply wrap_in_range.
  - rewrite Htot, Hs1, HD. done.
  - intros p. rewrite Hqty, (Hs2 p 0) by done. done.
Qed.

Lemma pool_counts_modulo_wrap_witness :
  ∃ s, run interleaved (start numWorkers (two_orders 2 3)) = Some s
       ∧ length (acknowledged s) = 2%nat
       ∧ totalOrders (stats s) = 2
       ∧ quantity_of (productQty (stats s)) "P1" = 5.
Proof.
  destruct (run interleaved (start numWorkers (two_orders 2 3))) as [s|] eqn:Hrun;
    [|vm_compute in Hrun; discriminate Hrun].
  assert (Hlen : length (acknowledged s) = 2%nat).
  { vm_compute in Hrun. injection Hrun as <-. reflexivity. }
  exists s. split; [reflexivity|]. split; [exact Hlen|].
  destruct (pool_counts_modulo_wrap numWorkers (two_orders 2 3) interleaved s Hrun Hlen)
    as (_ & Htotal & Hqty & _).
  split.
  - apply Htotal. vm_compute. discriminate.
  - apply (Hqty "P1"). vm_compute. split; discriminate.
Defined.

(** C3 as stated fails: two orders for "P1", of 9223372036854775807 units
    and of 1 unit, are processed by two workers in turns and both
    acknowledged; the arithmetic sum is 9223372036854775808, the
    accumulated quantity is -9223372036854775808. *)
Lemma pool_quantity_overflow_counterexample :
  ∃ s, run interleaved (start numWorkers (two_orders 9223372036854775807 1)) = Some s
       ∧ acknowledged s = two_orders 9223372036854775807 1
       ∧ totalOrders (stats s) = 2
       ∧ total (delivery_quantity "P1") (two_orders 9223372036854775807 1)
         = 9223372036854775808
       ∧ quantity_of (productQty (stats s)) "P1" = -9223372036854775808.
Proof.
  eexists. split; [vm_compute; reflexivity|].
  split; [vm_compute; reflexivity|]. split; [reflexivity|].
  split; vm_compute; reflexivity.
Qed.

(** C9 as stated fails: after 9223372036854775807 deliveries with the body
    [null], each counted, [totalOrders] is 9223372036854775807; one more
    such delivery is acknowledged and takes the counter to
    -9223372036854775808. *)
Lemma total_orders_overflow_counterexample :
  let st := (processMessages initial_stats
               (replicate (Z.to_nat 9223372036854775807) null_delivery)).1 in
  totalOrders st = 9223372036854775807
  ∧ (process_delivery st null_delivery).2 = Ack false
  ∧ totalOrders (process_delivery st null_delivery).1 = -9223372036854775808.
Proof.
  intros st.
  assert (Hst : st = {| totalOrders := 9223372036854775807; productQty := ∅ |}).
  { subst st. change initial_stats with {| totalOrders := GoInt.wrap 0; productQty := ∅ |}.
    rewrite processMessages_null. rewrite Z2Nat.id by lia. vm_compute. reflexivity. }
  clearbody st. subst st. split; [reflexivity|]. split; vm_compute; reflexivity.
Qed.

(** C9 (amended). A delivery whose body decodes - [null] and [{}] decode,
    to the order with every field at its zero value - is counted and
    acknowledged whatever its fields hold: [totalOrders] gets Go's int64
    sum of its value and 1, which is its value plus 1 unless it was
    2^63-1; in the pool, under every interleaving, the only verdict the
    broker gets for it is [Ack(false)]. *)
Theorem decoded_message_counted st msg order :
  json_Unmarshal (Body msg) = Some order →
  process_delivery st msg = (processOrder order st, Ack false)
  ∧ totalOrders (processOrder order st) = GoInt.add (totalOrders st) 1
  ∧ (GoInt.min_int ≤ totalOrders st < GoInt.max_int →
     totalOrders (processOrder order st) = totalOrders st + 1)
  ∧ (∀ n D schedule s v,
       run schedule (start n D) = Some s → (msg, v) ∈ broker s → v = Ack false)
  ∧ json_Unmarshal (Some Json.JNull) = Some zero_WarehouseOrder
  ∧ json_Unmarshal (Some (Json.JObject [])) = Some zero_WarehouseOrder.
Proof.
  intros Hdec. split_and!; try done.
  - unfold process_delivery. by rewrite Hdec.
  - intros H. simpl. apply add_no_wrap. lia.
  - intros n D schedule s v Hrun Hin.
    destruct (run_verdicts schedule _ _ (start_verdicts n D) Hrun) as [_ Hb].
    eapply Forall_forall in Hb; [|done]. simpl in Hb.
    unfold verdict_of in Hb. by rewrite Hdec in Hb.
Qed.

Lemma decoded_message_counted_witness :
  process_delivery initial_stats null_delivery
  = ({| totalOrders := 1; productQty := ∅ |}, Ack false)
  ∧ process_delivery initial_stats {| DeliveryTag := 3; Body := Some (Json.JObject []) |}
    = ({| totalOrders := 1; productQty := ∅ |}, Ack false).
Proof.
  split.
  - destruct (decoded_message_counted initial_stats null_delivery zero_WarehouseOrder)
      as (H & _); [reflexivity|]. rewrite H. reflexivity.
  - destruct (decoded_message_counted initial_stats
                {| DeliveryTag := 3; Body := Some (Json.JObject []) |} zero_WarehouseOrder)
      as (H & _); [reflexivity|]. rewrite H. reflexivity.
Defined.

End warehouse_facts.

(** * The rest of the services *)

Section more_cart.
Import Cart CartSpec CartMoreSpec.

Lemma bind_Create_valid body req :
  ShouldBindJSON_CreateCartRequest body = Some req → CreateCartRequest_CustomerID req ≠ "".
Proof.
  unfold ShouldBindJSON_CreateCartRequest. intros H.
  destruct body as [v|]; simpl in H; [|done].
  destruct (Json.store_struct _ _ _) as [r|]; simpl in H; [|done].
  destruct (required _) eqn:E; [|done]. injection H as <-.
  unfold required in E. by apply negb_true_iff, bool_decide_eq_false in E.
Qed.

(** X1. Creating a cart and reading it back.  A create request that binds
    answers 201 with a cart that has the drawn id, the customer of the
    request, no items and the time of the call; it makes no outside call;
    [getCart] on the drawn id then answers 200 with that same cart and
    leaves the store alone; and every cart under another id is as it was. *)
Theorem createCart_then_getCart env carts body req :
  ShouldBindJSON_CreateCartRequest body = Some req →
  let r := createCart env carts body in
  let cart := {| CartID := uuid_New env;
                 CustomerID := CreateCartRequest_CustomerID req;
                 Items := []; CreatedAt := time_Now env |} in
  response r = {| status := StatusCreated; payload := PCart cart |}
  ∧ effects r = []
  ∧ response (getCart (store r) (uuid_New env)) = {| status := StatusOK; payload := PCart cart |}
  ∧ store (getCart (store r) (uuid_New env)) = store r
  ∧ (∀ id, id ≠ uuid_New env → store r !! id = carts !! id).
Proof.
  intros Hb r cart. subst r. unfold createCart. rewrite Hb. simpl.
  split_and!; try done.
  - unfold getCart. by rewrite lookup_insert_eq.
  - unfold getCart. by rewrite lookup_insert_eq.
  - intros id Hid. by rewrite lookup_insert_ne.
Qed.

Lemma createCart_then_getCart_witness :
  let r := createCart (env_ok "c") ∅ (create_body "C1") in
  response r = {| status := 201; payload := PCart empty_cart |}
  ∧ response (getCart (store r) "c") = {| status := 200; payload := PCart empty_cart |}.
Proof.
  destruct (createCart_then_getCart (env_ok "c") ∅ (create_body "C1")
              {| CreateCartRequest_CustomerID := "C1" |}) as (H1 & _ & H3 & _);
    [reflexivity|].
  split; [exact H1|exact H3].
Defined.

Lemma add_item_length items req :
  (length items ≤ length (add_item items req) ≤ S (length items))%nat.
Proof.
  rewrite add_item_find. destruct (list_find _ items) as [[i it]|].
  - rewrite length_insert. lia.
  - rewrite length_app. simpl. lia.
Qed.

(** X2. The answers of add-item.  It answers 400 exactly when the body
    does not bind, 404 exactly when it binds and there is no cart under the
    id, 200 exactly when it binds and there is one; it never calls
    outside; unless it answers 200 the store is left as it was; and when it
    answers 200 the cart in the response is the one now stored under the
    id, with the cart id, the customer and the creation time it had, and
    with as many lines as before or one more. *)
Theorem addItemToCart_outcomes carts cartID body :
  let r := addItemToCart carts cartID body in
  (status (response r) = StatusBadRequest ↔ ShouldBindJSON_AddItemRequest body = None)
  ∧ (status (response r) = StatusNotFound ↔
     is_Some (ShouldBindJSON_AddItemRequest body) ∧ carts !! cartID = None)
  ∧ (status (response r) = StatusOK ↔
     is_Some (ShouldBindJSON_AddItemRequest body) ∧ is_Some (carts !! cartID))
  ∧ (status (response r) ≠ StatusOK → store r = carts)
  ∧ effects r = []
  ∧ (∀ cart, carts !! cartID = Some cart → status (response r) = StatusOK →
       ∃ cart', payload (response r) = PCart cart'
                ∧ store r = <[cartID := cart']> carts
                ∧ CartID cart' = CartID cart ∧ CustomerID cart' = CustomerID cart
                ∧ CreatedAt cart' = CreatedAt cart
                ∧ (length (Items cart) ≤ length (Items cart') ≤ S (length (Items cart)))%nat).
Proof.
  unfold addItemToCart.
  destruct (ShouldBindJSON_AddItemRequest body) as [req|];
    [destruct (carts !! cartID) as [cart|]|]; simpl;
    (split_and!; [split|split|split| | |]; try done;
     try (by intros [[? ?] ?]); try (by intros [? [? ?]]); try (by intros [? ?]); eauto).
  intros cart0 [= <-] _. eexists. split; [done|]. split; [done|]. simpl.
  split_and!; try done; apply add_item_length.
Qed.

Lemma bind_add_body_cases p q :
  ShouldBindJSON_AddItemRequest (add_body p q)
  = if bool_decide (p ≠ "") && (1 <=? q) && (q <=? 10000)
    then Some {| AddItemRequest_ProductID := p; AddItemRequest_Quantity := q |}
    else None.
Proof.
  destruct (bool_decide (p ≠ "") && (1 <=? q) && (q <=? 10000)) eqn:E.
  - apply andb_true_iff in E as [E E3]. apply andb_true_iff in E as [E1 E2].
    apply bool_decide_eq_true in E1. apply bind_add_body; [done|lia].
  - destruct (ShouldBindJSON_AddItemRequest (add_body p q)) as [req|] eqn:Hb; [|done].
    pose proof (bind_AddItem_valid _ _ Hb) as [Hp Hq].
    assert (req = {| AddItemRequest_ProductID := p; AddItemRequest_Quantity := q |}) as ->.
    { revert Hb. unfold ShouldBindJSON_AddItemRequest, add_body. simpl.
      change (AddItemRequest_field "quantity" (Json.JInt q)
                {| AddItemRequest_ProductID := p; AddItemRequest_Quantity := 0 |})
        with (q' ← (if GoInt.in_range q then Some q else None);
              Some {| AddItemRequest_ProductID := p; AddItemRequest_Quantity := q' |}).
      destruct (GoInt.in_range q); simpl; [|done].
      destruct (_ && _ && _ && _); [|done]. by intros [= <-]. }
    simpl in *. rewrite bool_decide_eq_true_2 in E by done.
    rewrite (proj2 (Z.leb_le _ _)) in E by lia. rewrite (proj2 (Z.leb_le _ _)) in E by lia.
    done.
Qed.

(** X3. The bounds on a requested quantity.  On an existing cart, a body
    [{"product_id": p, "quantity": q}] is accepted (200) exactly when [p] is
    not empty and [1 <= q <= 10000], and refused with 400 exactly when [p]
    is empty, [q < 1] or [q > 10000] - also when [q] does not fit an
    [int]. *)
Theorem addItem_quantity_bounds carts cartID cart p q :
  carts !! cartID = Some cart →
  (status (response (addItemToCart carts cartID (add_body p q))) = StatusOK
   ↔ p ≠ "" ∧ 1 ≤ q ≤ 10000)
  ∧ (status (response (addItemToCart carts cartID (add_body p q))) = StatusBadRequest
     ↔ p = "" ∨ q < 1 ∨ 10000 < q).
Proof.
  intros Hc. unfold addItemToCart. rewrite bind_add_body_cases, Hc.
  destruct (decide (p = "")) as [->|Hp].
  - simpl. split; split; try done; [by intros [? _]|by left].
  - rewrite bool_decide_eq_true_2 by done. simpl.
    destruct (Z.leb_spec 1 q); simpl; [destruct (Z.leb_spec q 10000); simpl|].
    + split; split; try done. intros [?|[?|?]]; [done|lia|lia].
    + split; split; try done; [intros [_ ?]; lia|by right; right].
    + split; split; try done; [intros [_ ?]; lia|by right; left].
Qed.

Lemma addItem_quantity_bounds_witness :
  status (response (addItemToCart (serve scenario) "c" (add_body "P2" 10001)))
  = StatusBadRequest
  ∧ status (response (addItemToCart (serve scenario) "c" (add_body "P2" 10000)))
    = StatusOK.
Proof.
  split.
  - apply (proj2 (addItem_quantity_bounds (serve scenario) "c" scenario_cart "P2" 10001
                    eq_refl)).
    right. right. reflexivity.
  - apply (proj1 (addItem_quantity_bounds (serve scenario) "c" scenario_cart "P2" 10000
                    eq_refl)).
    split; [discriminate|]. split; discriminate.
Defined.

Lemma getCart_store carts id : store (getCart carts id) = carts.
Proof. unfold getCart. by destruct (carts !! id). Qed.

(** X4. A request touches one cart only.  Whatever the request - create,
    get, add-item or checkout - and whatever its outcome, a cart stored
    under an id other than the one the request addresses (for a create:
    other than the id drawn) is afterwards what it was before, and an id
    that was free stays free. *)
Theorem handle_frame carts r id :
  id ≠ target r → store (handle carts r) !! id = carts !! id.
Proof.
  intros Hid. destruct r as [env body|cid|cid body|env cid body]; simpl in *.
  - unfold createCart. destruct (ShouldBindJSON_CreateCartRequest body); simpl; [|done].
    by rewrite lookup_insert_ne.
  - by rewrite getCart_store.
  - unfold addItemToCart. destruct (ShouldBindJSON_AddItemRequest body); [|done].
    destruct (carts !! cid); simpl; [|done]. by rewrite lookup_insert_ne.
  - destruct (checkout_store env carts cid body) as [->| ->]; [done|].
    by rewrite lookup_delete_ne.
Qed.

Lemma handle_frame_witness :
  store (handle (serve scenario)
           (Checkout (env_ok "ORD-1") "c" (checkout_body "1234-5678-9012-3456"))) !! "d"
  = serve scenario !! "d".
Proof.
  apply (handle_frame (serve scenario)
           (Checkout (env_ok "ORD-1") "c" (checkout_body "1234-5678-9012-3456")) "d").
  discriminate.
Defined.

Lemma add_item_ok items req :
  AddItemRequest_ProductID req ≠ "" → 1 ≤ AddItemRequest_Quantity req ≤ 10000 →
  Forall (fun it => ProductID it ≠ "" ∧ GoInt.min_int ≤ Quantity it ≤ GoInt.max_int) items →
  Forall (fun it => ProductID it ≠ "" ∧ GoInt.min_int ≤ Quantity it ≤ GoInt.max_int)
         (add_item items req).
Proof.
  intros Hp Hq H. rewrite add_item_find.
  destruct (list_find _ items) as [[i it]|] eqn:E.
  - apply list_find_Some in E as (Hi & Hpi & _).
    apply Forall_insert; [done|]. simpl. split; [by rewrite Hpi|apply wrap_bounds].
  - apply Forall_app. split; [done|]. apply Forall_singleton. simpl.
    split; [done|]. unfold GoInt.min_int, GoInt.max_int. lia.
Qed.

Lemma handle_stored_ok carts r :
  map_Forall stored_ok carts → map_Forall stored_ok (store (handle carts r)).
Proof.
  intros Hinv. destruct r as [env body|cid|cid body|env cid body]; simpl.
  - unfold createCart.
    destruct (ShouldBindJSON_CreateCartRequest body) as [req|] eqn:Hb; simpl; [|done].
    apply map_Forall_insert_2; [|done]. split; [done|]. split; [|done].
    simpl. by eapply bind_Create_valid.
  - by rewrite getCart_store.
  - unfold addItemToCart.
    destruct (ShouldBindJSON_AddItemRequest body) as [req|] eqn:Hb; [|done].
    destruct (carts !! cid) as [cart|] eqn:Hc; simpl; [|done].
    apply map_Forall_insert_2; [|done].
    destruct (Hinv _ _ Hc) as (H1 & H2 & H3). apply bind_AddItem_valid in Hb as [Hp Hq].
    split; [done|]. split; [done|]. simpl. by apply add_item_ok.
  - destruct (checkout_store env carts cid body) as [->| ->]; [done|].
    by apply map_Forall_delete.
Qed.

Lemma foldl_handle_stored_ok rs : ∀ carts,
  map_Forall stored_ok carts →
  map_Forall stored_ok (foldl (fun carts r => store (handle carts r)) carts rs).
Proof.
  induction rs as [|r rs IH]; intros carts Hinv; [done|].
  simpl. apply IH. by apply handle_stored_ok.
Qed.

(** X5. What the store holds.  After any sequence of requests served from
    the empty store, a cart found under an id carries that id, its
    customer id is not empty, no line has an empty product id, and every
    quantity is a Go [int]. *)
Theorem stored_carts_well_formed rs cartID cart :
  serve rs !! cartID = Some cart →
  CartID cart = cartID ∧ CustomerID cart ≠ "" ∧
  Forall (fun it => ProductID it ≠ "" ∧ GoInt.min_int ≤ Quantity it ≤ GoInt.max_int)
         (Items cart).
Proof.
  intros Hc.
  exact (foldl_handle_stored_ok rs ∅ (map_Forall_empty _) _ _ Hc).
Qed.

Lemma stored_carts_well_formed_witness :
  CartID scenario_cart = "c" ∧ CustomerID scenario_cart ≠ "" ∧
  Forall (fun it => ProductID it ≠ "" ∧ GoInt.min_int ≤ Quantity it ≤ GoInt.max_int)
         (Items scenario_cart).
Proof.
  apply (stored_carts_well_formed scenario "c" scenario_cart). reflexivity.
Defined.

End more_cart.

Section more_cart2.
Import Cart CartSpec CartMoreSpec.

(** X6. The discipline of checkout.  Whatever the request and the
    collaborators do, checkout makes no outside call, or one call to the
    gateway, or one call to the gateway followed by one publish of the
    order built from the cart stored under the id - never a publish
    without an authorization before it, never two of either.  It answers
    200, 400, 402, 404 or 500.  It removes the cart exactly when it answers
    200, which takes both calls; otherwise the store is as it was.  A 400
    or a 404 is answered before any call is made, and a 402 after the
    gateway call alone. *)
Theorem checkout_discipline env carts cartID body :
  let r := checkout env carts cartID body in
  (effects r = []
   ∨ (∃ req, effects r = [CallCCA req])
   ∨ (∃ req cart, carts !! cartID = Some cart
                  ∧ effects r = [CallCCA req; PublishOrder (fulfillment_order env cartID cart)]))
  ∧ (status (response r) = StatusOK ∨ status (response r) = StatusBadRequest
     ∨ status (response r) = StatusPaymentRequired ∨ status (response r) = StatusNotFound
     ∨ status (response r) = StatusInternalServerError)
  ∧ (status (response r) = StatusOK →
     store r = delete cartID carts ∧ is_Some (carts !! cartID) ∧ length (effects r) = 2%nat)
  ∧ (status (response r) ≠ StatusOK → store r = carts)
  ∧ (status (response r) = StatusBadRequest ∨ status (response r) = StatusNotFound →
     effects r = [])
  ∧ (status (response r) = StatusPaymentRequired → length (effects r) = 1%nat).
Proof.
  intros r. subst r. unfold checkout.
  destruct (ShouldBindJSON_CheckoutRequest body) as [req|];
    [|simpl; split_and!; by eauto 6 || (by intros [|]) || done].
  destruct (carts !! cartID) as [cart|] eqn:Hc;
    [|simpl; split_and!; by eauto 6 || (by intros [|]) || done].
  case_bool_decide; [simpl; split_and!; by eauto 6 || (by intros [|]) || done|].
  unfold authorizePayment.
  destruct (json_Marshal_CCARequest _) as [jsonData|];
    [|simpl; split_and!; by eauto 7 || (by intros [|]) || done].
  destruct (http_Post env jsonData) as [cause|code rbody];
    [simpl; split_and!; by eauto 7 || (by intros [|]) || done|].
  destruct (decode_CCAResponse rbody) as [resp|];
    [|simpl; split_and!; by eauto 7 || (by intros [|]) || done].
  repeat case_match; simplify_eq; simpl;
    unfold publishToWarehouse in *; repeat case_match; simplify_eq; simpl;
    (split_and!; by eauto 7 || (by intros [|]) || done).
Qed.

Lemma checkout_store_by_status env carts cartID body :
  let r := checkout env carts cartID body in
  (status (response r) = StatusOK → store r = delete cartID carts ∧ is_Some (carts !! cartID))
  ∧ (status (response r) ≠ StatusOK → store r = carts).
Proof.
  intros r. subst r. unfold checkout.
  destruct (ShouldBindJSON_CheckoutRequest body) as [req|]; [|done].
  destruct (carts !! cartID) as [cart|] eqn:Hc; [|done].
  case_bool_decide; [done|].
  destruct (authorizePayment _ _) as [[resp|err] fx]; [|done].
  destruct (negb _); [done|].
  destruct (publishToWarehouse _ _) as [[err|] fx']; [done|]. simpl.
  split; [eauto|done].
Qed.

(** X7. Checkout of a cart that is not there.  With no cart under the id,
    checkout calls neither the gateway nor the broker and leaves the store
    as it is; it answers 404 "cart not found" if the body binds and 400
    "invalid request body" if it does not (the body is looked at first). *)
Theorem checkout_missing_cart env carts cartID body :
  carts !! cartID = None →
  let r := checkout env carts cartID body in
  effects r = [] ∧ store r = carts
  ∧ (is_Some (ShouldBindJSON_CheckoutRequest body) →
     response r = {| status := StatusNotFound; payload := PError "cart not found" |})
  ∧ (ShouldBindJSON_CheckoutRequest body = None →
     response r = {| status := StatusBadRequest; payload := PError "invalid request body" |}).
Proof.
  intros Hc r. subst r. unfold checkout.
  destruct (ShouldBindJSON_CheckoutRequest body) as [req|]; rewrite ?Hc; simpl;
    split_and!; try done; by intros [??].
Qed.

Lemma checkout_missing_cart_witness :
  let r := checkout (env_ok "ORD-1") ∅ "c" (checkout_body "1234-5678-9012-3456") in
  effects r = []
  ∧ response r = {| status := StatusNotFound; payload := PError "cart not found" |}.
Proof.
  destruct (checkout_missing_cart (env_ok "ORD-1") ∅ "c"
              (checkout_body "1234-5678-9012-3456")) as (H1 & _ & H3 & _);
    [reflexivity|].
  split; [exact H1|]. apply H3. eexists. reflexivity.
Defined.

Lemma marshal_Some req req' : json_Marshal_CCARequest req = Some req' → req' = req.
Proof. unfold json_Marshal_CCARequest. destruct (_ || _); congruence. Qed.

(** X8. How the gateway client reads a reply.  The client returns a
    decision exactly when the gateway answered 200 or 402 with a body that
    decodes; a decodable 400 becomes the error "invalid credit card
    format" carrying the reply's message, and every other status the error
    "CCA service returned status" with that status.  It posts at most
    once, and not at all exactly when the amount cannot be written as
    JSON. *)
Theorem authorizePayment_classification env req :
  ((∃ resp, (authorizePayment env req).1 = inl resp) ↔
   ∃ code resp, gateway_replies env req code resp
                ∧ (code = StatusOK ∨ code = StatusPaymentRequired))
  ∧ (∀ code resp, gateway_replies env req code resp →
       (authorizePayment env req).1 =
       if bool_decide (code = StatusOK ∨ code = StatusPaymentRequired) then inl resp
       else if bool_decide (code = StatusBadRequest)
            then inr (ErrInvalidCardFormat (Message resp))
            else inr (ErrCCAStatus code))
  ∧ ((authorizePayment env req).2 = [] ∨ (authorizePayment env req).2 = [CallCCA req])
  ∧ ((authorizePayment env req).2 = [] ↔ json_Marshal_CCARequest req = None).
Proof.
  assert (Hcases : ∀ code resp, gateway_replies env req code resp →
       (authorizePayment env req).1 =
       if bool_decide (code = StatusOK ∨ code = StatusPaymentRequired) then inl resp
       else if bool_decide (code = StatusBadRequest)
            then inr (ErrInvalidCardFormat (Message resp))
            else inr (ErrCCAStatus code)).
  { intros code resp Hg. rewrite (authorizePayment_reply _ _ _ _ Hg). simpl.
    unfold StatusOK, StatusPaymentRequired, StatusBadRequest.
    destruct (Z.eqb_spec code 402) as [->|H402]; [done|].
    destruct (Z.eqb_spec code 400) as [->|H400]; [done|].
    destruct (Z.eqb_spec code 200) as [->|H200]; [done|]. simpl.
    rewrite bool_decide_eq_false_2 by (intros [|]; done).
    by rewrite bool_decide_eq_false_2. }
  split_and!; [split| | |split].
  - intros [resp H]. unfold authorizePayment in H.
    destruct (json_Marshal_CCARequest req) as [jsonData|] eqn:Hm; [|done].
    pose proof (marshal_Some _ _ Hm) as ->.
    destruct (http_Post env req) as [cause|code rbody] eqn:Hp; [done|].
    destruct (decode_CCAResponse rbody) as [resp'|] eqn:Hd; [|done].
    exists code, resp'. split; [split; [done|eauto]|].
    unfold StatusOK, StatusPaymentRequired, StatusBadRequest in *.
    destruct (Z.eqb_spec code 402); [by right|].
    destruct (Z.eqb_spec code 400); [done|].
    destruct (Z.eqb_spec code 200); [by left|done].
  - intros (code & resp & Hg & Hcode). rewrite (Hcases _ _ Hg).
    rewrite bool_decide_eq_true_2 by done. eauto.
  - done.
  - unfold authorizePayment.
    destruct (json_Marshal_CCARequest req) as [jsonData|] eqn:Hm; [|by left].
    pose proof (marshal_Some _ _ Hm) as ->. right. by repeat case_match.
  - unfold authorizePayment.
    destruct (json_Marshal_CCARequest req) as [jsonData|] eqn:Hm; [|done].
    by repeat case_match.
  - intros Hm. unfold authorizePayment. by rewrite Hm.
Qed.

(** X9. What decides between declined and authorized.  When the gateway
    answers 200 or 402 with a decodable body, checkout goes by the body's
    [status] member and not by the status code: anything other than
    "Authorized" - also under code 200 - is answered 402 "payment
    declined" with the cart kept and nothing published; "Authorized" -
    also under code 402 - has the order published, and with the broker
    accepting it the answer is 200 and the cart is removed. *)
Theorem checkout_decides_on_body env carts cartID body req cart code resp :
  ShouldBindJSON_CheckoutRequest body = Some req →
  carts !! cartID = Some cart →
  Items cart ≠ [] →
  gateway_replies env (payment_request req cart) code resp →
  code = StatusOK ∨ code = StatusPaymentRequired →
  let r := checkout env carts cartID body in
  (Status resp ≠ "Authorized" →
   response r = {| status := StatusPaymentRequired;
                   payload := PFailure "payment declined" (Text (Message resp)) |}
   ∧ store r = carts
   ∧ effects r = [CallCCA (payment_request req cart)])
  ∧ (Status resp = "Authorized" →
     effects r = [CallCCA (payment_request req cart);
                  PublishOrder (fulfillment_order env cartID cart)]
     ∧ (amqp_Publish env (fulfillment_order env cartID cart) = None →
        status (response r) = StatusOK ∧ store r = delete cartID carts)).
Proof.
  intros Hb Hc Hne Hg Hcode r. subst r.
  rewrite (checkout_bound _ _ _ _ _ _ Hb Hc Hne).
  rewrite (authorizePayment_reply _ _ _ _ Hg).
  assert ((if code =? StatusPaymentRequired then inl resp
           else if code =? StatusBadRequest then inr (ErrInvalidCardFormat (Message resp))
           else if negb (code =? StatusOK) then inr (ErrCCAStatus code) else inl resp)
          = (inl resp : CCAResponse + error)) as ->.
  { by destruct Hcode as [-> | ->]. }
  split.
  - intros Hs. rewrite bool_decide_eq_false_2 by done. done.
  - intros Hs. rewrite bool_decide_eq_true_2 by done. simpl.
    unfold publishToWarehouse.
    destruct (amqp_Publish env _) as [cause|]; simpl; split; try done.
Qed.

Lemma checkout_decides_on_body_witness :
  let r := checkout (env_with "ORD-1" (HttpResponse 200 declined_body) None)
             (serve scenario) "c" (checkout_body "1234-5678-9012-3456") in
  response r = {| status := StatusPaymentRequired;
                  payload := PFailure "payment declined" (Text "Card declined by issuer") |}
  ∧ store r = serve scenario.
Proof.
  destruct (checkout_decides_on_body (env_with "ORD-1" (HttpResponse 200 declined_body) None)
              (serve scenario) "c" (checkout_body "1234-5678-9012-3456")
              {| CreditCardNumber := "1234-5678-9012-3456" |} scenario_cart 200
              {| Status := "Declined"; TransactionID := "";
                 Message := "Card declined by issuer" |}) as (H1 & _).
  - reflexivity.
  - reflexivity.
  - discriminate.
  - split; [reflexivity|]. exists declined_body. split; reflexivity.
  - left. reflexivity.
  - destruct H1 as (Hr & Hs & _); [discriminate|]. split; [exact Hr|exact Hs].
Defined.

End more_cart2.

Section startup.
Import StartupSpec.

(** X10. The health check counts the carts in the store.  [GET /health]
    always answers 200, and the count it reports is the number of carts
    stored, so that it follows the handlers: a successful create raises it
    by one (unless the drawn id was taken, when the cart is replaced), an
    add-item never changes it, and a checkout lowers it by one exactly
    when it answers 200. *)
Theorem health_count_follows_store carts :
  (∀ conn, (Cart.healthCheck conn carts).1 = Cart.StatusOK
           ∧ Cart.health_carts_count (Cart.healthCheck conn carts).2 = Z.of_nat (size carts))
  ∧ (∀ env body,
       Cart.status (Cart.response (Cart.createCart env carts body)) = Cart.StatusCreated →
       carts_count (Cart.store (Cart.createCart env carts body))
       = if bool_decide (is_Some (carts !! Cart.uuid_New env))
         then carts_count carts else carts_count carts + 1)
  ∧ (∀ cartID body,
       carts_count (Cart.store (Cart.addItemToCart carts cartID body)) = carts_count carts)
  ∧ (∀ env cartID body,
       carts_count (Cart.store (Cart.checkout env carts cartID body))
       = if bool_decide (Cart.status (Cart.response (Cart.checkout env carts cartID body))
                         = Cart.StatusOK)
         then carts_count carts - 1 else carts_count carts).
Proof.
  unfold carts_count. simpl. split_and!.
  - done.
  - intros env body. unfold Cart.createCart.
    destruct (Cart.ShouldBindJSON_CreateCartRequest body); simpl; [|done]. intros _.
    destruct (carts !! Cart.uuid_New env) eqn:Hc.
    + rewrite bool_decide_eq_true_2 by eauto. by erewrite map_size_insert_Some.
    + rewrite bool_decide_eq_false_2 by (by intros [??]).
      rewrite map_size_insert_None by done. lia.
  - intros cartID body. unfold Cart.addItemToCart.
    destruct (Cart.ShouldBindJSON_AddItemRequest body); [|done].
    destruct (carts !! cartID) eqn:Hc; simpl; [|done].
    by erewrite map_size_insert_Some.
  - intros env cartID body.
    pose proof (checkout_store_by_status env carts cartID body) as (H200 & Hne).
    case_bool_decide as Hs.
    + destruct (H200 Hs) as (-> & Hc).
      rewrite (map_size_delete_Some _ _ Hc).
      pose proof (map_size_ne_0_lookup_2 _ _ Hc). lia.
    + by rewrite (Hne Hs).
Qed.

Ltac failed_dial H i :=
  let e := fresh "e" in let He := fresh "He" in
  destruct (H i ltac:(lia)) as [e He].

(** X11. Start-up of the cart coordinator.  [initRabbitMQ] dials up to
    five times and sleeps 5 seconds after every failed attempt, also after
    the last one.  If attempt [k] (counted from 0) is the first to
    succeed, it has slept [5*k] seconds, then opens a channel and, if that
    succeeds, declares the durable queue "warehouse_orders"; the error, if
    any, is that of the step that failed.  If all five attempts fail it
    has dialled five times, slept 25 seconds, touched neither channel nor
    queue, and returns "could not connect" with the last error. *)
Theorem initRabbitMQ_retries broker :
  (∀ k, (k < 5)%nat →
     (∀ i, (i < k)%nat → is_Some (Cart.amqp_Dial broker i)) →
     Cart.amqp_Dial broker k = None →
     (Cart.initRabbitMQ broker).1
     = match Cart.conn_Channel broker, Cart.ch_QueueDeclare broker with
       | Some e, _ => Some (Cart.ErrOpenChannel e)
       | None, Some e => Some (Cart.ErrDeclareQueue e)
       | None, None => None
       end
     ∧ (Cart.initRabbitMQ broker).2
       = cart_failures k ++ Cart.Dial k :: Cart.OpenChannel
         :: match Cart.conn_Channel broker with
            | Some _ => []
            | None => [Cart.QueueDeclare "warehouse_orders" true]
            end
     ∧ cart_slept (Cart.initRabbitMQ broker).2 = 5 * Z.of_nat k)
  ∧ ((∀ i, (i < 5)%nat → is_Some (Cart.amqp_Dial broker i)) →
     ∃ e, Cart.amqp_Dial broker 4 = Some e
          ∧ Cart.initRabbitMQ broker = (Some (Cart.ErrConnect e), cart_failures 5)
          ∧ cart_slept (cart_failures 5) = 25
          ∧ cart_dials (cart_failures 5) = 5%nat).
Proof.
  split.
  - intros k Hk Hfail Hok. unfold Cart.initRabbitMQ.
    destruct k as [|[|[|[|[|k]]]]]; [| | | | |lia].
    + simpl. rewrite Hok.
      destruct (Cart.conn_Channel broker); [done|].
      by destruct (Cart.ch_QueueDeclare broker).
    + failed_dial Hfail 0%nat. simpl. rewrite He, Hok.
      destruct (Cart.conn_Channel broker); [done|].
      by destruct (Cart.ch_QueueDeclare broker).
    + failed_dial Hfail 0%nat. failed_dial Hfail 1%nat. simpl. rewrite He, He0, Hok.
      destruct (Cart.conn_Channel broker); [done|].
      by destruct (Cart.ch_QueueDeclare broker).
    + failed_dial Hfail 0%nat. failed_dial Hfail 1%nat. failed_dial Hfail 2%nat.
      simpl. rewrite He, He0, He1, Hok.
      destruct (Cart.conn_Channel broker); [done|].
      by destruct (Cart.ch_QueueDeclare broker).
    + failed_dial Hfail 0%nat. failed_dial Hfail 1%nat. failed_dial Hfail 2%nat.
      failed_dial Hfail 3%nat. simpl. rewrite He, He0, He1, He2, Hok.
      destruct (Cart.conn_Channel broker); [done|].
      by destruct (Cart.ch_QueueDeclare broker).
  - intros Hfail.
    failed_dial Hfail 0%nat. failed_dial Hfail 1%nat. failed_dial Hfail 2%nat.
    failed_dial Hfail 3%nat. failed_dial Hfail 4%nat.
    exists e3. split; [done|]. unfold Cart.initRabbitMQ. simpl.
    rewrite He, He0, He1, He2, He3. done.
Qed.

Lemma initRabbitMQ_retries_witness :
  Cart.initRabbitMQ late_broker
  = (None, [Cart.Dial 0; Cart.Sleep 5; Cart.Dial 1; Cart.Sleep 5; Cart.Dial 2;
            Cart.OpenChannel; Cart.QueueDeclare "warehouse_orders" true])
  ∧ cart_slept (Cart.initRabbitMQ late_broker).2 = 10.
Proof.
  destruct (proj1 (initRabbitMQ_retries late_broker) 2%nat) as (H1 & H2 & H3).
  - lia.
  - intros [|[|i]] Hi; [eexists; reflexivity|eexists; reflexivity|lia].
  - reflexivity.
  - split; [|exact H3]. apply injective_projections; [exact H1|exact H2].
Defined.

(** X12. Start-up of the warehouse consumer.  [connectRabbitMQ] dials up
    to five times and sleeps 1, 2, 4 and 8 seconds after the first four
    failed attempts, and not after the fifth.  If attempt [k] (counted
    from 0) is the first to succeed it returns the connection after having
    slept [2^k - 1] seconds in all; if all five fail it returns the last
    error after 15 seconds of sleep, its last action being the fifth
    dial. *)
Theorem connectRabbitMQ_backoff dial :
  (∀ k, (k < 5)%nat →
     (∀ i, (i < k)%nat → is_Some (dial i)) →
     dial k = None →
     Warehouse.connectRabbitMQ dial = (None, consumer_failures k ++ [Warehouse.Dial k])
     ∧ consumer_slept (Warehouse.connectRabbitMQ dial).2 = 2 ^ Z.of_nat k - 1)
  ∧ ((∀ i, (i < 5)%nat → is_Some (dial i)) →
     ∃ e, dial 4%nat = Some e
          ∧ Warehouse.connectRabbitMQ dial = (Some e, consumer_failures 5)
          ∧ consumer_failures 5
            = [Warehouse.Dial 0; Warehouse.Sleep 1; Warehouse.Dial 1; Warehouse.Sleep 2;
               Warehouse.Dial 2; Warehouse.Sleep 4; Warehouse.Dial 3; Warehouse.Sleep 8;
               Warehouse.Dial 4]
          ∧ consumer_slept (consumer_failures 5) = 15).
Proof.
  split.
  - intros k Hk Hfail Hok. unfold Warehouse.connectRabbitMQ.
    destruct k as [|[|[|[|[|k]]]]]; [| | | | |lia].
    + simpl. by rewrite Hok.
    + failed_dial Hfail 0%nat. simpl. by rewrite He, Hok.
    + failed_dial Hfail 0%nat. failed_dial Hfail 1%nat. simpl. by rewrite He, He0, Hok.
    + failed_dial Hfail 0%nat. failed_dial Hfail 1%nat. failed_dial Hfail 2%nat.
      simpl. by rewrite He, He0, He1, Hok.
    + failed_dial Hfail 0%nat. failed_dial Hfail 1%nat. failed_dial Hfail 2%nat.
      failed_dial Hfail 3%nat. simpl. by rewrite He, He0, He1, He2, Hok.
  - intros Hfail.
    failed_dial Hfail 0%nat. failed_dial Hfail 1%nat. failed_dial Hfail 2%nat.
    failed_dial Hfail 3%nat. failed_dial Hfail 4%nat.
    exists e3. split; [done|]. unfold Warehouse.connectRabbitMQ. simpl.
    rewrite He, He0, He1, He2, He3. done.
Qed.

Lemma connectRabbitMQ_backoff_witness :
  Warehouse.connectRabbitMQ late_dial
  = (None, [Warehouse.Dial 0; Warehouse.Sleep 1; Warehouse.Dial 1; Warehouse.Sleep 2;
            Warehouse.Dial 2; Warehouse.Sleep 4; Warehouse.Dial 3])
  ∧ consumer_slept (Warehouse.connectRabbitMQ late_dial).2 = 7.
Proof.
  destruct (proj1 (connectRabbitMQ_backoff late_dial) 3%nat) as (H1 & H2).
  - lia.
  - intros [|[|[|i]]] Hi; [eexists; reflexivity..|lia].
  - reflexivity.
  - split; [exact H1|exact H2].
Defined.

End startup.

Section authorizer.
Import Authorizer AuthorizerSpec.

Ltac eat H c Hc :=
  match type of H with
  | context [match ?s with EmptyString => _ | String _ _ => _ end] =>
      destruct s as [|c s]; [discriminate H|];
      apply andb_prop in H as [Hc H]
  end.

Lemma match_pattern_shape s :
  MatchString_anchored pattern s = true ↔ card_shape s.
Proof.
  split.
  - intros H. unfold MatchString_anchored, pattern, dash in H. simpl in H.
    eat H a1 A1. eat H a2 A2. eat H a3 A3. eat H a4 A4.
    eat H d1 D1. apply bool_decide_eq_true in D1. subst d1.
    eat H b1 B1. eat H b2 B2. eat H b3 B3. eat H b4 B4.
    eat H d2 D2. apply bool_decide_eq_true in D2. subst d2.
    eat H x1 X1. eat H x2 X2. eat H x3 X3. eat H x4 X4.
    eat H d3 D3. apply bool_decide_eq_true in D3. subst d3.
    eat H y1 Y1. eat H y2 Y2. eat H y3 Y3. eat H y4 Y4.
    apply bool_decide_eq_true in H. subst s.
    exists [a1; a2; a3; a4], [b1; b2; b3; b4], [x1; x2; x3; x4], [y1; y2; y3; y4].
    split; [|done].
    repeat (apply Forall_cons; split; [split; [done|]; repeat constructor; done|]).
    constructor.
  - intros (g1 & g2 & g3 & g4 & HF & ->).
    apply Forall_cons in HF as [[L1 D1] HF]. apply Forall_cons in HF as [[L2 D2] HF].
    apply Forall_cons in HF as [[L3 D3] HF]. apply Forall_cons in HF as [[L4 D4] _].
    destruct g1 as [|a1 [|a2 [|a3 [|a4 [|]]]]]; try done.
    destruct g2 as [|b1 [|b2 [|b3 [|b4 [|]]]]]; try done.
    destruct g3 as [|x1 [|x2 [|x3 [|x4 [|]]]]]; try done.
    destruct g4 as [|y1 [|y2 [|y3 [|y4 [|]]]]]; try done.
    repeat match goal with
           | H : Forall _ (_ :: _) |- _ => apply Forall_cons in H as [? H]
           end.
    unfold MatchString_anchored, pattern, dash. simpl.
    repeat match goal with H : is_digit _ = true |- _ => rewrite H; clear H end.
    done.
Qed.

(** X13. The card pattern.  The authorizer's pattern
    [^\d{4}-\d{4}-\d{4}-\d{4}$] matches a card number exactly when it is
    four groups of four ASCII digits separated by single dashes, with
    nothing before, between or after: such a number has 19 characters. *)
Theorem card_format_shape s :
  (MatchString_anchored pattern s = true ↔ card_shape s)
  ∧ (card_shape s → String.length s = 19%nat).
Proof.
  split; [apply match_pattern_shape|].
  intros (g1 & g2 & g3 & g4 & HF & ->).
  apply Forall_cons in HF as [[L1 _] HF]. apply Forall_cons in HF as [[L2 _] HF].
  apply Forall_cons in HF as [[L3 _] HF]. apply Forall_cons in HF as [[L4 _] _].
  destruct g1 as [|? [|? [|? [|? [|]]]]]; try done.
  destruct g2 as [|? [|? [|? [|? [|]]]]]; try done.
  destruct g3 as [|? [|? [|? [|? [|]]]]]; try done.
  destruct g4 as [|? [|? [|? [|? [|]]]]]; try done.
Qed.

Lemma authorizePayment_cases env body :
  authorizePayment env body =
  match ShouldBindJSON env body with
  | None => {| status := 400; payload := PError "invalid request" (bind_error env) |}
  | Some req =>
      if negb (MatchString_anchored pattern (CreditCardNumber req)) then
        {| status := 400;
           payload := PError "invalid credit card format"
                             "Format must be XXXX-XXXX-XXXX-XXXX" |}
      else if (rand_Float32 env <? threshold)%float then
        {| status := 200;
           payload := PAuth {| Status := "Authorized";
                               TransactionID := uuid_New env;
                               Message := "Payment authorized successfully" |} |}
      else
        {| status := 402;
           payload := PAuth {| Status := "Declined";
                               TransactionID := "";
                               Message := "Card declined by issuer" |} |}
  end.
Proof. done. Qed.

(** X14. The answers of the authorizer.  It answers 200, 400 or 402: 400
    exactly when the request does not bind or the card number is not four
    groups of four digits; 200 exactly when the request binds, the card
    number has that shape and the number drawn is below 0.9 as a
    [float32]; 402 otherwise.  A 200 carries status "Authorized" and the
    transaction id drawn, a 402 carries status "Declined" and no
    transaction id. *)
Theorem authorizer_outcomes env body :
  let r := authorizePayment env body in
  (status r = 200 ∨ status r = 400 ∨ status r = 402)
  ∧ (status r = 400 ↔
     ShouldBindJSON env body = None
     ∨ ∃ req, ShouldBindJSON env body = Some req ∧ ¬ card_shape (CreditCardNumber req))
  ∧ (status r = 200 ↔
     ∃ req, ShouldBindJSON env body = Some req ∧ card_shape (CreditCardNumber req)
            ∧ (rand_Float32 env <? threshold)%float = true)
  ∧ (status r = 200 →
     payload r = PAuth {| Status := "Authorized"; TransactionID := uuid_New env;
                          Message := "Payment authorized successfully" |})
  ∧ (status r = 402 →
     payload r = PAuth {| Status := "Declined"; TransactionID := "";
                          Message := "Card declined by issuer" |}).
Proof.
  intros r. subst r. rewrite authorizePayment_cases.
  destruct (ShouldBindJSON env body) as [req|].
  - pose proof (match_pattern_shape (CreditCardNumber req)) as Hshape.
    destruct (MatchString_anchored pattern (CreditCardNumber req)); simpl.
    + assert (Hs : card_shape (CreditCardNumber req)) by by apply Hshape.
      destruct (rand_Float32 env <? threshold)%float; simpl.
      * split_and!; try done; [by left|split; [done|]|split; [eauto|done]].
        intros [|(? & [= <-] & ?)]; done.
      * split_and!; try done; [by right; right|split; [done|]|split; [done|]].
        -- intros [|(? & [= <-] & ?)]; done.
        -- by intros (? & _ & _ & ?).
    + assert (Hs : ¬ card_shape (CreditCardNumber req)).
      { intros Hs. by apply Hshape in Hs. }
      split_and!; try done; [by right; left|split; [eauto|done]|split; [done|]].
      intros (? & [= <-] & ? & _). done.
  - simpl. split_and!; try done; [by right; left|split; [eauto|done]|split; [done|]].
    by intros (? & ? & _).
Qed.

(** X15. The authorizer's bodies as its client reads them.  Whatever the
    authorizer writes, the cart coordinator's decoder accepts: a decision
    comes out with its status, transaction id and message unchanged (an
    empty transaction id is left out on the wire and read back as empty),
    and an error body comes out with an empty status and the error's
    [message] as message - its [error] member is ignored. *)
Theorem auth_response_round_trip p :
  Cart.decode_CCAResponse (Some (json_Marshal p))
  = Some match p with
         | PAuth r => {| Cart.Status := Status r; Cart.TransactionID := TransactionID r;
                         Cart.Message := Message r |}
         | PError _ m => {| Cart.Status := ""; Cart.TransactionID := ""; Cart.Message := m |}
         end.
Proof.
  destruct p as [e m|[st tid msg]]; simpl.
  - done.
  - case_bool_decide as Ht; simpl; [by subst tid|done].
Qed.

End authorizer.

Section pipeline_checkout.
Import Cart CartSpec AuthorizerSpec Pipeline.

Lemma gateway_reply aenv uuid publish req :
  json_Marshal_CCARequest req = Some req →
  authorizePayment (cart_env aenv uuid publish) req =
  let r := Authorizer.authorizePayment aenv
             (Some {| Authorizer.CreditCardNumber := CCARequest_CreditCardNumber req;
                      Authorizer.Amount := Amount req |}) in
  let resp := match Authorizer.payload r with
              | Authorizer.PAuth a =>
                  {| Status := Authorizer.Status a;
                     TransactionID := Authorizer.TransactionID a;
                     Message := Authorizer.Message a |}
              | Authorizer.PError _ m =>
                  {| Status := ""; TransactionID := ""; Message := m |}
              end in
  (if Authorizer.status r =? StatusPaymentRequired then inl resp
   else if Authorizer.status r =? StatusBadRequest
        then inr (ErrInvalidCardFormat (Message resp))
   else if negb (Authorizer.status r =? StatusOK)
        then inr (ErrCCAStatus (Authorizer.status r))
   else inl resp, [CallCCA req]).
Proof.
  intros Hm. apply authorizePayment_reply. split; [done|].
  eexists. split; [reflexivity|].
  destruct (Authorizer.payload _) as [e m|[st tid msg]]; simpl; [done|].
  case_bool_decide; simpl; [by subst tid|done].
Qed.

(** X16. Checkout against the authorizer.  With the authorizer as the
    gateway, a checkout of a non-empty cart whose total can be written as
    JSON ends in one of these ways.  If the total is the zero value the
    authorizer refuses the request as incomplete and checkout answers 500
    "payment authorization failed" with the binding error as an invalid
    card format.  If the card number is not four groups of four digits,
    checkout answers 500 with "Format must be XXXX-XXXX-XXXX-XXXX".  If it
    is and the draw is not below 0.9, checkout answers 402 "payment
    declined" with "Card declined by issuer".  In these three cases the
    cart is kept.  If it is and the draw is below 0.9, the order is
    published: accepted by the broker, checkout answers 200 with the
    authorizer's transaction id and the total, and removes the cart;
    refused, it answers 500 and keeps the cart. *)
Theorem checkout_through_authorizer aenv uuid publish carts cartID body req cart :
  ShouldBindJSON_CheckoutRequest body = Some req →
  carts !! cartID = Some cart →
  Items cart ≠ [] →
  json_Marshal_CCARequest (payment_request req cart) = Some (payment_request req cart) →
  let r := checkout (cart_env aenv uuid publish) carts cartID body in
  let amount := calculateTotal (Items cart) in
  (Authorizer.required_float aenv amount = false →
     response r = {| status := 500;
                     payload := PFailure "payment authorization failed"
                       (OfError (ErrInvalidCardFormat (Authorizer.bind_error aenv))) |}
     ∧ store r = carts)
  ∧ (Authorizer.required_float aenv amount = true → ¬ card_shape (CreditCardNumber req) →
     response r = {| status := 500;
                     payload := PFailure "payment authorization failed"
                       (OfError (ErrInvalidCardFormat "Format must be XXXX-XXXX-XXXX-XXXX")) |}
     ∧ store r = carts)
  ∧ (Authorizer.required_float aenv amount = true → card_shape (CreditCardNumber req) →
     (Authorizer.rand_Float32 aenv <? Authorizer.threshold)%float = false →
     response r = {| status := 402;
                     payload := PFailure "payment declined"
                                         (Text "Card declined by issuer") |}
     ∧ store r = carts)
  ∧ (Authorizer.required_float aenv amount = true → card_shape (CreditCardNumber req) →
     (Authorizer.rand_Float32 aenv <? Authorizer.threshold)%float = true →
     match publish with
     | None =>
         response r = {| status := 200;
                         payload := PCheckout "checkout successful" uuid "Authorized"
                                      (Authorizer.uuid_New aenv) amount |}
         ∧ store r = delete cartID carts
     | Some cause =>
         response r = {| status := 500;
                         payload := PFailure "failed to send order to warehouse"
                                      (OfError (ErrPublish cause)) |}
         ∧ store r = carts
     end).
Proof.
  intros Hb Hc Hi Hm r amount. subst r.
  rewrite (checkout_bound _ _ _ _ _ _ Hb Hc Hi), (gateway_reply _ _ _ _ Hm).
  rewrite authorizePayment_cases. cbn [Authorizer.ShouldBindJSON mbind option_bind
    Authorizer.CreditCardNumber Authorizer.Amount payment_request
    CCARequest_CreditCardNumber Amount].
  assert (Hreq : bool_decide (CreditCardNumber req = "") = false).
  { unfold ShouldBindJSON_CheckoutRequest in Hb.
    destruct body as [v|]; [|done]. simpl in Hb.
    destruct (Json.store_struct _ _ _) as [r0|]; [|done]. simpl in Hb.
    destruct (required (CreditCardNumber r0)) eqn:E; [|done].
    simplify_eq. by apply negb_true_iff in E. }
  rewrite Hreq. fold amount.
  pose proof (match_pattern_shape (CreditCardNumber req)) as Hshape.
  split_and!.
  - intros ->. done.
  - intros -> Hn. simpl.
    destruct (Authorizer.MatchString_anchored _ _); [by destruct Hn; apply Hshape|done].
  - intros -> Hs ->. simpl. apply Hshape in Hs as ->. done.
  - intros -> Hs ->. simpl. apply Hshape in Hs as ->. simpl.
    unfold publishToWarehouse. simpl. by destruct publish.
Qed.

Lemma checkout_through_authorizer_witness :
  let r := checkout (cart_env (authorizer_env 0.5) "ORD-1" None) (serve scenario) "c"
             (checkout_body "1234-5678-9012-3456") in
  response r = {| status := 200;
                  payload := PCheckout "checkout successful" "ORD-1" "Authorized" "TXN-7" 50 |}
  ∧ store r = delete "c" (serve scenario).
Proof.
  destruct (checkout_through_authorizer (authorizer_env 0.5) "ORD-1" None (serve scenario)
              "c" (checkout_body "1234-5678-9012-3456")
              {| CreditCardNumber := "1234-5678-9012-3456" |} scenario_cart)
    as (_ & _ & _ & H).
  - reflexivity.
  - reflexivity.
  - discriminate.
  - reflexivity.
  - apply H.
    + reflexivity.
    + apply (proj1 (match_pattern_shape "1234-5678-9012-3456")). reflexivity.
    + reflexivity.
Defined.

End pipeline_checkout.

Section pipeline_order.
Import CartSpec CartMoreSpec Pipeline.

Lemma unmarshal_item item :
  GoInt.min_int ≤ Cart.Quantity item ≤ GoInt.max_int →
  Json.store_struct Warehouse.CartItem_field (Cart.json_Marshal_CartItem item)
    Warehouse.zero_CartItem = Some (consumer_item item).
Proof.
  intros Hq. destruct item as [p q]. simpl in *.
  change (Warehouse.CartItem_field "quantity" (Json.JInt q)
            {| Warehouse.ProductID := p; Warehouse.Quantity := 0 |})
    with (q' ← (if GoInt.in_range q then Some q else None);
          Some {| Warehouse.ProductID := p; Warehouse.Quantity := q' |}).
  by rewrite in_range_true.
Qed.

Lemma unmarshal_items items :
  Forall (fun it => GoInt.min_int ≤ Cart.Quantity it ≤ GoInt.max_int) items →
  Json.store_elems (Json.store_struct Warehouse.CartItem_field) Warehouse.zero_CartItem
    (Cart.json_Marshal_CartItem <$> items) [] = Some (consumer_item <$> items).
Proof.
  induction 1 as [|it items Hq _ IH]; [done|].
  rewrite !fmap_cons. cbn [Json.store_elems tail].
  rewrite (unmarshal_item it Hq). cbn [mbind option_bind]. by rewrite IH.
Qed.

Lemma unmarshal_slice items :
  Forall (fun it => GoInt.min_int ≤ Cart.Quantity it ≤ GoInt.max_int) items →
  Json.store_slice (Json.store_struct Warehouse.CartItem_field) Warehouse.zero_CartItem
    (Json.JArray (Cart.json_Marshal_CartItem <$> items)) [] []
  = Some (consumer_item <$> items, []).
Proof.
  intros H. destruct items as [|it items]; [done|].
  pose proof (unmarshal_items _ H) as Hs. rewrite fmap_cons in Hs |- *.
  unfold Json.store_slice. rewrite app_nil_r, Hs. cbn [mbind option_bind].
  by rewrite drop_nil.
Qed.

Lemma unmarshal_order order :
  Forall (fun it => GoInt.min_int ≤ Cart.Quantity it ≤ GoInt.max_int)
         (Cart.WarehouseOrder_Items order) →
  Warehouse.json_Unmarshal (Some (Cart.json_Marshal_WarehouseOrder order))
  = Some (consumer_order order).
Proof.
  intros H. destruct order as [oid cid cust items ts]. simpl in *.
  change (Warehouse.WarehouseOrder_field "items"
            (Json.JArray (Cart.json_Marshal_CartItem <$> items))
            ({| Warehouse.OrderID := oid; Warehouse.CartID := cid;
                Warehouse.CustomerID := cust; Warehouse.Items := [];
                Warehouse.Timestamp := "" |}, []))
    with (l ← Json.store_slice (Json.store_struct Warehouse.CartItem_field)
                Warehouse.zero_CartItem
                (Json.JArray (Cart.json_Marshal_CartItem <$> items)) [] [];
          Some ({| Warehouse.OrderID := oid; Warehouse.CartID := cid;
                   Warehouse.CustomerID := cust; Warehouse.Items := l.1;
                   Warehouse.Timestamp := "" |}, l.2)).
  by rewrite unmarshal_slice.
Qed.

(** X17. The order on the wire.  An order whose quantities are Go [int]s,
    marshalled by the cart coordinator, is decoded by the warehouse into
    the same order - id, cart, customer, items in order, timestamp - and
    the delivery that carries it is counted and acknowledged with
    [Ack(false)], never rejected. *)
Theorem order_wire_round_trip order :
  Forall (fun it => GoInt.min_int ≤ Cart.Quantity it ≤ GoInt.max_int)
         (Cart.WarehouseOrder_Items order) →
  Warehouse.json_Unmarshal (Some (Cart.json_Marshal_WarehouseOrder order))
  = Some (consumer_order order)
  ∧ ∀ st tag, Warehouse.process_delivery st (delivery tag order)
              = (Warehouse.processOrder (consumer_order order) st, Warehouse.Ack false).
Proof.
  intros H. split; [by apply unmarshal_order|].
  intros st tag. unfold Warehouse.process_delivery, delivery. simpl Warehouse.Body.
  by rewrite unmarshal_order.
Qed.

Lemma order_wire_round_trip_witness :
  Warehouse.json_Unmarshal
    (Some (Cart.json_Marshal_WarehouseOrder (fulfillment_order (env_ok "ORD-1") "c" scenario_cart)))
  = Some {| Warehouse.OrderID := "ORD-1"; Warehouse.CartID := "c";
            Warehouse.CustomerID := "C1";
            Warehouse.Items := [ {| Warehouse.ProductID := "P1"; Warehouse.Quantity := 5 |} ];
            Warehouse.Timestamp := "1970-01-01T00:00:00Z" |}.
Proof.
  apply (order_wire_round_trip (fulfillment_order (env_ok "ORD-1") "c" scenario_cart)).
  repeat constructor; discriminate.
Defined.

Lemma checkout_publishes env carts cartID body order :
  Cart.PublishOrder order ∈ Cart.effects (Cart.checkout env carts cartID body) →
  ∃ cart, carts !! cartID = Some cart ∧ Cart.Items cart ≠ []
          ∧ order = fulfillment_order env cartID cart.
Proof.
  unfold Cart.checkout.
  destruct (Cart.ShouldBindJSON_CheckoutRequest body) as [req|];
    [|simpl; by intros ?%elem_of_nil].
  destruct (carts !! cartID) as [cart|] eqn:Hc; [|simpl; by intros ?%elem_of_nil].
  case_bool_decide as Hn; [simpl; by intros ?%elem_of_nil|].
  assert (Cart.Items cart ≠ []) by (by intros E; rewrite E in Hn).
  unfold Cart.authorizePayment.
  destruct (Cart.json_Marshal_CCARequest _) as [jsonData|];
    [|simpl; by intros ?%elem_of_nil].
  assert (∀ e, Cart.PublishOrder e ∈ [Cart.CallCCA jsonData] → False) as Hno.
  { intros e He. apply list_elem_of_singleton in He. done. }
  destruct (Cart.http_Post env jsonData) as [cause|code rbody];
    [simpl; by intros ?%Hno|].
  destruct (Cart.decode_CCAResponse rbody) as [resp|]; [|simpl; by intros ?%Hno].
  repeat case_match; simplify_eq; simpl; try (by intros ?%Hno);
    unfold Cart.publishToWarehouse in *; repeat case_match; simplify_eq; simpl;
    (intros He; apply elem_of_cons in He as [?|He]; [done|];
     apply list_elem_of_singleton in He; simplify_eq; eauto).
Qed.

(** X18. From checkout to the warehouse counters.  Whatever requests were
    served before, an order that a checkout publishes carries the id drawn
    for it, the id of the cart checked out, and that cart's customer and
    items, of which there is at least one; and the warehouse worker that
    receives it decodes it, adds one to [totalOrders], adds every item's
    quantity to its product's entry, and acknowledges it. *)
Theorem checkout_order_is_counted rs env cartID body order st tag :
  Cart.PublishOrder order ∈ Cart.effects (Cart.checkout env (Cart.serve rs) cartID body) →
  (∃ cart, Cart.serve rs !! cartID = Some cart
           ∧ Cart.WarehouseOrder_Items order = Cart.Items cart
           ∧ Cart.WarehouseOrder_Items order ≠ []
           ∧ Cart.WarehouseOrder_CustomerID order = Cart.CustomerID cart)
  ∧ Cart.OrderID order = Cart.uuid_New env
  ∧ Cart.WarehouseOrder_CartID order = cartID
  ∧ Warehouse.process_delivery st (delivery tag order)
    = ({| Warehouse.totalOrders := GoInt.add (Warehouse.totalOrders st) 1;
          Warehouse.productQty :=
            foldl Warehouse.add_quantity (Warehouse.productQty st)
                  (consumer_item <$> Cart.WarehouseOrder_Items order) |},
       Warehouse.Ack false).
Proof.
  intros (cart & Hc & Hi & ->)%checkout_publishes.
  split; [by exists cart|]. split; [done|]. split; [done|].
  unfold Warehouse.process_delivery, delivery. simpl Warehouse.Body.
  rewrite unmarshal_order; [done|].
  destruct (foldl_handle_stored_ok rs ∅ (map_Forall_empty _) _ _ Hc) as (_ & _ & HF).
  simpl. eapply Forall_impl; [exact HF|]. by intros it [_ ?].
Qed.

Lemma checkout_order_is_counted_witness :
  Warehouse.process_delivery Warehouse.initial_stats
    (delivery 1 (fulfillment_order (env_ok "ORD-1") "c" scenario_cart))
  = ({| Warehouse.totalOrders := 1;
        Warehouse.productQty := {["P1" := 5]} |}, Warehouse.Ack false).
Proof.
  destruct (checkout_order_is_counted scenario (env_ok "ORD-1") "c"
              (checkout_body "1234-5678-9012-3456")
              (fulfillment_order (env_ok "ORD-1") "c" scenario_cart)
              Warehouse.initial_stats 1) as (_ & _ & _ & H).
  - vm_compute. apply list_elem_of_further, list_elem_of_here.
  - rewrite H. reflexivity.
Defined.

End pipeline_order.

Section pool_facts.
Import Warehouse WarehouseSpec PoolSpec.

Lemma run_preserves (P : Pool → Prop) :
  (∀ a s s', P s → step a s = Some s' → P s') →
  ∀ schedule s s', P s → run schedule s = Some s' → P s'.
Proof.
  intros Hstep. induction schedule as [|a schedule IH]; intros s s' HP Hrun; simpl in Hrun.
  - by injection Hrun as <-.
  - destruct (step a s) as [s1|] eqn:E; simpl in Hrun; [|done]. eauto.
Qed.

Lemma step_worker_cases w s s' :
  step_worker w s = Some s' ↔ ∃ st, workers s !! w = Some st ∧ worker_step w s st s'.
Proof.
  unfold step_worker. split.
  - intros H. destruct (workers s !! w) as [st|] eqn:Hw; simpl in H; [|done].
    exists st. split; [done|].
    destruct st as [|msg|msg order|msg [|item rest]|msg item rest|msg item rest old
                    |msg rest|msg|].
    + destruct (messageChan s) as [|msg rest] eqn:Hch.
      * destruct (messageChan_closed s) eqn:Hcl; [|done]. injection H as <-.
        by constructor.
      * injection H as <-. by constructor.
    + destruct (json_Unmarshal (Body msg)) as [order|] eqn:Hd; injection H as <-;
        by constructor.
    + injection H as <-. constructor.
    + injection H as <-. constructor.
    + destruct (productMutex s) eqn:Hm; [done|]. injection H as <-. by constructor.
    + injection H as <-. constructor.
    + injection H as <-. constructor.
    + destruct (productMutex s) eqn:Hm; [|done]. injection H as <-. by constructor.
    + injection H as <-. constructor.
    + done.
  - intros (st & -> & H). simpl. destruct H as
      [msg rest Hch|Hch Hcl|msg Hd|msg order Hd|msg order|msg|msg item rest Hm
      |msg item rest|msg item rest old|msg rest Hm|msg];
      rewrite ?Hch, ?Hcl, ?Hd, ?Hm; done.
Qed.


Lemma step_cases a s s' :
  step a s = Some s' →
  (a = Distributor ∧ step_distributor s = Some s')
  ∨ ∃ w st, a = WorkerN w ∧ workers s !! w = Some st ∧ worker_step w s st s'.
Proof.
  destruct a as [|w]; simpl; [by left|].
  intros (st & Hw & H)%step_worker_cases. right. by exists w, st.
Qed.

Lemma step_distributor_cases s s' :
  step_distributor s = Some s' →
  distributor_done s = false ∧
  ((msgs s = [] ∧ msgs_closed s = true ∧
    s' = {| stats := stats s; productMutex := productMutex s; msgs := [];
            msgs_closed := true;
            messageChan := messageChan s; messageChan_closed := true;
            distributor_done := true; workers := workers s; broker := broker s |})
   ∨ ∃ msg rest,
       msgs s = msg :: rest ∧ (length (messageChan s) < messageChan_cap)%nat ∧
       s' = {| stats := stats s; productMutex := productMutex s; msgs := rest;
               msgs_closed := msgs_closed s;
               messageChan := messageChan s ++ [msg];
               messageChan_closed := messageChan_closed s;
               distributor_done := false; workers := workers s; broker := broker s |}).
Proof.
  unfold step_distributor. destruct (distributor_done s); [done|].
  destruct (msgs s) as [|msg rest].
  - destruct (msgs_closed s); [|done]. intros [= <-]. split; [done|]. by left.
  - case_bool_decide; [|done]. intros [= <-]. split; [done|]. right. by exists msg, rest.
Qed.

(** *** Nothing is lost and nothing is duplicated *)

Lemma held_insert ws w st st' :
  ws !! w = Some st →
  held st' ++ (ws ≫= held) ≡ₚ held st ++ (<[w := st']> ws ≫= held).
Proof.
  revert w. induction ws as [|x ws IH]; intros [|w] H; try done; simpl in H.
  - injection H as ->. change (<[0%nat := st']> (st :: ws)) with (st' :: ws).
    rewrite !bind_cons. apply Permutation_app_swap_app.
  - change (<[S w := st']> (x :: ws)) with (x :: <[w := st']> ws).
    rewrite !bind_cons.
    etrans; [apply Permutation_app_swap_app|].
    etrans; [|apply Permutation_app_swap_app].
    apply Permutation_app_head. by apply IH.
Qed.

Lemma held_same ws w st st' :
  ws !! w = Some st → held st' = held st → <[w := st']> ws ≫= held = ws ≫= held.
Proof.
  revert w. induction ws as [|x ws IH]; intros [|w] H E; try done; simpl in H.
  - injection H as ->. change (<[0%nat := st']> (st :: ws)) with (st' :: ws).
    by rewrite !bind_cons, E.
  - change (<[S w := st']> (x :: ws)) with (x :: <[w := st']> ws).
    rewrite !bind_cons. f_equal. by apply IH.
Qed.

Lemma step_accounted a s s' : step a s = Some s' → accounted s' ≡ₚ accounted s.
Proof.
  intros [[-> H]|(w & st & -> & Hw & H)]%step_cases.
  - apply step_distributor_cases in H as [_ [(Hm & _ & ->)|(msg & rest & Hm & _ & ->)]];
      unfold accounted, queued; simpl; rewrite Hm; [done|].
    apply Permutation_app_head, Permutation_app_tail.
    rewrite app_assoc. symmetry. apply Permutation_cons_append.
  - destruct H; unfold accounted, queued; simpl;
      try (rewrite (held_same _ _ _ _ Hw) by done; done).
    + rewrite H. apply Permutation_app_head.
      pose proof (held_insert _ _ _ (Unmarshal msg) Hw) as Hp. simpl in Hp.
      rewrite <- Hp, <- !app_assoc. apply Permutation_app_head.
      symmetry. apply Permutation_middle.
    + pose proof (held_insert _ _ _ Receive Hw) as Hp. simpl in Hp.
      rewrite Hp, !app_assoc. apply (Permutation_middle (_ ++ _)).
    + pose proof (held_insert _ _ _ Receive Hw) as Hp. simpl in Hp.
      rewrite Hp, !app_assoc. apply (Permutation_middle (_ ++ _)).
Qed.

Lemma start_accounted n D : accounted (start n D) = D.
Proof.
  unfold accounted, queued. simpl. rewrite app_nil_r.
  assert (replicate n Receive ≫= held = []) as ->; [|by rewrite app_nil_r].
  induction n as [|n IH]; [done|]. exact IH.
Qed.

Lemma run_accounted schedule n D s :
  run schedule (start n D) = Some s → accounted s ≡ₚ D.
Proof.
  intros H.
  apply (run_preserves (fun s => accounted s ≡ₚ D)) with (schedule := schedule) (s := start n D);
    [|by rewrite start_accounted|done].
  intros a s1 s2 HP Hs. by rewrite (step_accounted _ _ _ Hs).
Qed.


(** *** Every action uses up one of the actions left *)

Lemma step_steps_left a s s' : step a s = Some s' → steps_left s' = steps_left s - 1.
Proof.
  intros [[-> H]|(w & st & -> & Hw & H)]%step_cases.
  - apply step_distributor_cases in H as [Hd [(Hm & _ & ->)|(msg & rest & Hm & _ & ->)]];
      unfold steps_left, queued; simpl; rewrite Hd, Hm; simpl length.
    + rewrite app_nil_l. lia.
    + rewrite total_forward. rewrite Nat2Z.inj_succ. lia.
  - destruct H; unfold steps_left, queued; simpl;
      erewrite total_insert by eassumption;
      rewrite ?H, ?total_app, ?total_cons; simpl; unfold work, items_work;
      rewrite ?H; simpl length; rewrite ?Nat2Z.inj_succ; lia.
Qed.

Lemma work_nonneg msg : 0 ≤ work msg.
Proof. unfold work, items_work. destruct (json_Unmarshal _); lia. Qed.

Lemma remaining_nonneg w : 0 ≤ remaining w.
Proof.
  destruct w; simpl; unfold items_work; try lia. pose proof (work_nonneg msg). lia.
Qed.

Lemma steps_left_nonneg s : 0 ≤ steps_left s.
Proof.
  unfold steps_left.
  pose proof (total_nonneg (fun msg => 1 + work msg) (queued s)) as H1.
  pose proof (total_nonneg remaining (workers s) remaining_nonneg) as H2.
  assert (0 ≤ total (fun msg => 1 + work msg) (queued s)).
  { apply H1. intros msg. pose proof (work_nonneg msg). lia. }
  destruct (distributor_done s); lia.
Qed.

Lemma run_steps_left schedule : ∀ s s',
  run schedule s = Some s' → Z.of_nat (length schedule) + steps_left s' = steps_left s.
Proof.
  induction schedule as [|a schedule IH]; intros s s' Hrun; simpl in Hrun.
  - injection Hrun as <-. simpl. lia.
  - destruct (step a s) as [s1|] eqn:E; simpl in Hrun; [|done].
    apply IH in Hrun. apply step_steps_left in E. simpl length. lia.
Qed.

Lemma start_steps_left n D :
  steps_left (start n D)
  = 1 + Z.of_nat n + 2 * Z.of_nat (length D) + total work D.
Proof.
  unfold steps_left, queued. simpl. rewrite app_nil_r, total_replicate. simpl.
  assert (total (fun msg => 1 + work msg) D = Z.of_nat (length D) + total work D) as ->.
  { induction D as [|msg D IH]; [done|]. rewrite !total_cons, IH. simpl length. lia. }
  lia.
Qed.

Lemma finished_steps_left s :
  distributor_done s = true → queued s = [] →
  Forall (fun w => is_stopped w = true) (workers s) → steps_left s = 0.
Proof.
  intros Hd Hq HF. unfold steps_left. rewrite Hd, Hq, total_nil.
  assert (total remaining (workers s) = 0) as ->; [|done].
  induction HF as [|w ws Hw _ IH]; [done|]. rewrite total_cons, IH. by destruct w.
Qed.


(** *** The channel and the goroutines' ends *)

Lemma Exists_insert_stopped ws w st st' :
  ws !! w = Some st →
  Exists (fun x => is_stopped x = true) (<[w := st']> ws) →
  is_stopped st' = true ∨ Exists (fun x => is_stopped x = true) ws.
Proof.
  intros Hw (x & Hx & Hs)%Exists_exists.
  apply list_elem_of_lookup in Hx as [i Hi].
  destruct (decide (i = w)) as [->|Hne].
  - rewrite list_lookup_insert_eq in Hi by (by eapply lookup_lt_Some).
    injection Hi as ->. by left.
  - rewrite list_lookup_insert_ne in Hi by done. right.
    apply Exists_exists. exists x. split; [|done]. by eapply list_elem_of_lookup_2.
Qed.

Lemma start_shutdown_invariant n D : shutdown_invariant n (start n D).
Proof.
  split; simpl; try done.
  - apply length_replicate.
  - unfold messageChan_cap, numWorkers. lia.
  - intros (x & Hx & Hs)%Exists_exists. apply elem_of_replicate in Hx as [-> _]. done.
Qed.

Lemma step_shutdown_invariant n a s s' :
  shutdown_invariant n s → step a s = Some s' → shutdown_invariant n s'.
Proof.
  intros [Hn Hcap Hcl Hdone Hst] [[-> H]|(w & st & -> & Hw & H)]%step_cases.
  - apply step_distributor_cases in H as [Hd [(Hm & _ & ->)|(msg & rest & Hm & Hlt & ->)]];
      split; simpl; try done.
    + intros HE. destruct (Hst HE) as [Hc _]. congruence.
    + rewrite length_app. simpl. lia.
    + congruence.
    + intros HE. destruct (Hst HE) as [Hc _]. congruence.
  - assert (∀ st', is_stopped st' = false →
              Exists (fun x => is_stopped x = true) (<[w := st']> (workers s)) →
              messageChan_closed s = true ∧ messageChan s = []) as Hkeep.
    { intros st' Hs' HE. apply (Exists_insert_stopped _ _ _ _ Hw) in HE as [?|HE];
        [congruence|by apply Hst]. }
    destruct H; split; simpl; rewrite ?length_insert; try done;
      try (by apply Hkeep).
    + rewrite H in Hcap. simpl in Hcap. lia.
    + intros HE. apply (Exists_insert_stopped _ _ _ _ Hw) in HE as [?|HE]; [done|].
      destruct (Hst HE) as [_ Hc]. congruence.
Qed.

Lemma run_shutdown_invariant schedule n D s :
  run schedule (start n D) = Some s → shutdown_invariant n s.
Proof.
  apply (run_preserves (shutdown_invariant n)); [|apply start_shutdown_invariant].
  intros a s1 s2. apply step_shutdown_invariant.
Qed.

Lemma run_pool_invariant schedule n D s :
  run schedule (start n D) = Some s → invariant D s.
Proof. apply run_invariant, start_invariant. Qed.

(** *** Somebody can always move, until everybody has returned *)

Lemma total_positive {A} (f : A → Z) l :
  0 < total f l → ∃ i x, l !! i = Some x ∧ f x ≠ 0.
Proof.
  induction l as [|y l IH]; [by rewrite total_nil|]. rewrite total_cons. intros H.
  destruct (decide (f y = 0)) as [E|E].
  - destruct IH as (i & x & Hi & Hx); [lia|]. by exists (S i), x.
  - by exists 0%nat, y.
Qed.

Lemma critical_moves D s w st :
  invariant D s → workers s !! w = Some st → critical st ≠ 0 →
  ∃ s', step (WorkerN w) s = Some s'.
Proof.
  intros Hinv Hw Hc.
  assert (productMutex s = true) as Hm.
  { pose proof (total_lookup_le critical _ _ _ critical_nonneg Hw) as Hle.
    pose proof (critical_nonneg st). rewrite (inv_mutex _ _ Hinv) in Hle.
    destruct (productMutex s); [done|lia]. }
  simpl. unfold step_worker. rewrite Hw. simpl.
  destruct st; try done; [eauto|eauto|rewrite Hm; eauto].
Qed.

Lemma busy_moves D s w st :
  invariant D s → workers s !! w = Some st → is_idle st = false →
  ∃ a s', step a s = Some s'.
Proof.
  intros Hinv Hw Hi.
  destruct (decide (critical st = 0)) as [Hc|Hc];
    [|destruct (critical_moves D s w st Hinv Hw Hc) as [s' Hs]; eauto].
  assert (∀ s', step_worker w s = Some s' → ∃ a s', step a s = Some s') as Hstep.
  { intros s' Hs. by exists (WorkerN w), s'. }
  destruct st as [|msg|msg order|msg [|item rest]|msg item rest|msg item rest old
                  |msg rest|msg|]; try done;
    try (eapply Hstep; unfold step_worker; rewrite Hw; simpl; done).
  - unfold step_worker in Hstep. rewrite Hw in Hstep. simpl in Hstep.
    destruct (json_Unmarshal (Body msg)); eauto.
  - destruct (productMutex s) eqn:Hm.
    + destruct (total_positive critical (workers s)) as (j & x & Hj & Hx).
      { rewrite (inv_mutex _ _ Hinv), Hm. lia. }
      destruct (critical_moves D s j x Hinv Hj Hx) as [s' Hs]. eauto.
    + eapply Hstep. unfold step_worker. rewrite Hw. simpl. by rewrite Hm.
Qed.

Lemma worker_test_dec (f : Worker → bool) w : {f w = true} + {f w = false}.
Proof. destruct (f w); [by left|by right]. Qed.

Lemma pool_progress n D s :
  (0 < n)%nat → invariant D s → shutdown_invariant n s →
  (∃ a s', step a s = Some s')
  ∨ (distributor_done s = true ∧ queued s = []
     ∧ Forall (fun w => is_stopped w = true) (workers s))
  ∨ (msgs_closed s = false ∧ distributor_done s = false ∧ queued s = []
     ∧ Forall (fun w => w = Receive) (workers s)).
Proof.
  intros Hn Hinv [Hlen Hcap Hcl Hdone Hst].
  destruct (Forall_Exists_dec (fun w => is_idle w = true) (fun w => is_idle w = false)
              (worker_test_dec is_idle)
              (workers s)) as [Hidle|Hbusy].
  2:{ apply Exists_exists in Hbusy as (st & Hin & Hb).
      apply list_elem_of_lookup in Hin as [w Hw]. left. by eapply busy_moves. }
  destruct (Forall_Exists_dec (fun w => is_stopped w = true) (fun w => is_stopped w = false)
              (worker_test_dec is_stopped)
              (workers s)) as [Hstop|Hrecv].
  - right. left.
    assert (Exists (fun w => is_stopped w = true) (workers s)) as HE.
    { destruct (workers s) as [|w0 ws]; [simpl in Hlen; lia|].
      apply Exists_cons_hd. by apply Forall_cons in Hstop as [? _]. }
    destruct (Hst HE) as [Hc Hch]. rewrite Hcl in Hc.
    split; [done|]. split; [|done]. unfold queued. by rewrite (Hdone Hc), Hch.
  - apply Exists_exists in Hrecv as (st & Hin & Hs).
    apply list_elem_of_lookup in Hin as [w Hw].
    assert (st = Receive) as ->.
    { pose proof (proj1 (Forall_lookup _ _) Hidle _ _ Hw) as Hi. by destruct st. }
    destruct (messageChan s) as [|msg rest] eqn:Hch.
    + destruct (distributor_done s) eqn:Hd.
      * left. exists (WorkerN w). simpl. unfold step_worker. rewrite Hw. simpl.
        rewrite Hch, Hcl. eauto.
      * destruct (msgs s) as [|m ms] eqn:Hm.
        -- destruct (msgs_closed s) eqn:Hmc.
           ++ left. exists Distributor. simpl. unfold step_distributor.
              rewrite Hd, Hm, Hmc. eauto.
           ++ right. right. split; [done|]. split; [done|].
              split; [unfold queued; by rewrite Hm, Hch|].
              apply Forall_forall. intros x Hx.
              pose proof (proj1 (Forall_forall _ _) Hidle x Hx) as Hi.
              destruct x; try done. exfalso.
              destruct Hst as [Hc _]; [|congruence].
              apply Exists_exists. by exists Stopped.
        -- left. exists Distributor. simpl. unfold step_distributor. rewrite Hd, Hm, Hch.
           rewrite bool_decide_eq_true_2; [eauto|].
           unfold messageChan_cap, numWorkers. simpl. lia.
    + left. exists (WorkerN w). simpl. unfold step_worker. rewrite Hw. simpl.
      rewrite Hch. eauto.
Qed.

(** *** While [msgs] stays open *)

Lemma step_msgs_closed a s s' : step a s = Some s' → msgs_closed s' = msgs_closed s.
Proof.
  intros [[-> H]|(w & st & -> & Hw & H)]%step_cases.
  - by apply step_distributor_cases in H as [_ [(_ & -> & ->)|(msg & rest & _ & _ & ->)]].
  - by destruct H.
Qed.

Lemma run_open schedule : ∀ s s',
  msgs_closed s = false → distributor_done s = false →
  run schedule s = Some s' → msgs_closed s' = false ∧ distributor_done s' = false.
Proof.
  intros s s' H1 H2.
  apply (run_preserves (fun s => msgs_closed s = false ∧ distributor_done s = false));
    [|done].
  clear. intros a s s' [Hc Hd] Hs. split; [by rewrite (step_msgs_closed _ _ _ Hs)|].
  apply step_cases in Hs as [[-> H]|(w & st & -> & Hw & H)].
  - apply step_distributor_cases in H as [_ [(_ & Hc' & _)|(msg & rest & _ & _ & ->)]];
      [congruence|done].
  - by destruct H.
Qed.

Lemma step_close_msgs a s s' :
  step a s = Some s' → step a (close_msgs s) = Some (close_msgs s').
Proof.
  intros [[-> H]|(w & st & -> & Hw & H)]%step_cases.
  - apply step_distributor_cases in H as [Hd [(Hm & Hc & ->)|(msg & rest & Hm & Hlt & ->)]];
      simpl; unfold step_distributor; simpl; rewrite Hd, Hm; [done|].
    by rewrite bool_decide_eq_true_2.
  - simpl. unfold step_worker. change (workers (close_msgs s)) with (workers s).
    rewrite Hw. simpl.
    destruct H as [msg rest Hch|Hch Hcl|msg Hd|msg order Hd|msg order|msg|msg item rest Hm
                   |msg item rest|msg item rest old|msg rest Hm|msg];
      simpl; rewrite ?Hch, ?Hcl, ?Hd, ?Hm; done.
Qed.

Lemma run_close_msgs schedule : ∀ s s',
  run schedule s = Some s' → run schedule (close_msgs s) = Some (close_msgs s').
Proof.
  induction schedule as [|a schedule IH]; intros s s' Hrun; simpl in Hrun.
  - by injection Hrun as <-.
  - destruct (step a s) as [s1|] eqn:E; simpl in Hrun; [|done].
    rewrite run_cons, (step_close_msgs _ _ _ E). cbn [mbind option_bind]. by apply IH.
Qed.

Lemma start_open_invariant n D : invariant D (start_open n D).
Proof.
  split; unfold queued, acknowledged; simpl;
    rewrite ?app_nil_r, ?total_replicate; simpl.
  - lia.
  - lia.
  - exists 0. lia.
  - intros p. exists 0. unfold quantity_of. rewrite lookup_empty, total_replicate. simpl. lia.
  - split; [done|]. intros p. unfold quantity_of. rewrite lookup_empty. done.
  - lia.
  - intros w msg item rest old H. apply lookup_replicate in H as [? _]. done.
Qed.

Lemma start_open_shutdown_invariant n D : shutdown_invariant n (start_open n D).
Proof.
  split; simpl; try done.
  - apply length_replicate.
  - unfold messageChan_cap, numWorkers. lia.
  - intros (x & Hx & Hs)%Exists_exists. apply elem_of_replicate in Hx as [-> _]. done.
Qed.

Lemma start_open_accounted n D : accounted (start_open n D) = D.
Proof. apply (start_accounted n D). Qed.

End pool_facts.

Section decoder_facts.
Import Warehouse WarehouseSpec.

(** A member that occurs twice is stored twice into the same field: the
    second [items] array is decoded into the element the first one left,
    so that the item keeps its product and takes the new quantity. *)
Lemma repeated_items_decoded_in_place :
  json_Unmarshal
    (Some (Json.JObject
             [("items", Json.JArray [Json.JObject [("product_id", Json.JString "A");
                                                   ("quantity", Json.JInt 1)]]);
              ("items", Json.JArray [Json.JObject [("quantity", Json.JInt 3)]])]))
  = Some {| OrderID := ""; CartID := ""; CustomerID := "";
            Items := [ {| ProductID := "A"; Quantity := 3 |} ]; Timestamp := "" |}.
Proof. reflexivity. Qed.

Lemma store_struct_failed {T} (field : string → Json.value → T → option T) members :
  foldl (fun acc kv => acc ≫= field kv.1 kv.2) None members = None.
Proof. induction members as [|kv members IH]; [done|]. exact IH. Qed.

Lemma store_elems_failed {T} (elem : Json.value → T → option T) zero es1 bad es2 :
  (∀ r, elem bad r = None) →
  ∀ backing, Json.store_elems elem zero (es1 ++ bad :: es2) backing = None.
Proof.
  intros Hbad. induction es1 as [|e es1 IH]; intros backing; simpl.
  - by rewrite Hbad.
  - destruct (elem e _); simpl; [|done]. by rewrite IH.
Qed.

Lemma store_slice_failed {T} (elem : Json.value → T → option T) zero es1 bad es2 cur spare :
  (∀ r, elem bad r = None) →
  Json.store_slice elem zero (Json.JArray (es1 ++ bad :: es2)) cur spare = None.
Proof.
  intros Hbad. unfold Json.store_slice.
  destruct (es1 ++ bad :: es2) as [|e es] eqn:E; [by destruct es1|].
  rewrite <- E. by rewrite store_elems_failed.
Qed.

Lemma store_struct_member {T} (field : string → Json.value → T → option T)
    pre key v post cur :
  (∀ r, field key v r = None) →
  Json.store_struct field (Json.JObject (pre ++ (key, v) :: post)) cur = None.
Proof.
  intros Hf. simpl. rewrite foldl_app. simpl.
  destruct (foldl _ _ pre) as [r|]; simpl; [rewrite Hf|]; apply store_struct_failed.
Qed.

(** X19. One quantity that is not a Go [int] poisons the whole message.
    If, anywhere in the [items] array of a body, an item has a [quantity]
    that is a number with a fraction or an exponent, a number outside 64
    bits, a string, a boolean, an array or an object, then the body does
    not decode: the worker answers [Nack(false, false)] - the message is
    dropped, not requeued - and none of its items is counted, whatever
    else the body holds. *)
Theorem bad_quantity_rejected pre post es1 es2 ms1 ms2 bad tag st :
  bad ≠ Json.JNull →
  (∀ z, bad = Json.JInt z → ¬ (GoInt.min_int ≤ z ≤ GoInt.max_int)) →
  let body :=
    Json.JObject
      (pre ++ ("items",
               Json.JArray (es1 ++ Json.JObject (ms1 ++ ("quantity", bad) :: ms2) :: es2))
           :: post) in
  json_Unmarshal (Some body) = None
  ∧ process_delivery st {| DeliveryTag := tag; Body := Some body |} = (st, Nack false false).
Proof.
  intros Hnull Hint body.
  assert (Hb : ∀ cur, Json.store_int bad cur = None).
  { intros cur. destruct bad as [| |z| | | |]; try done. simpl.
    destruct (GoInt.in_range z) eqn:E; [|done]. exfalso. apply (Hint z eq_refl).
    unfold GoInt.in_range in E. apply andb_true_iff in E as [E1 E2]. lia. }
  assert (Hitem : ∀ r, Json.store_struct CartItem_field
                         (Json.JObject (ms1 ++ ("quantity", bad) :: ms2)) r = None).
  { intros r. apply store_struct_member. intros r'.
    change (CartItem_field "quantity" bad r')
      with (q ← Json.store_int bad (Quantity r');
            Some {| ProductID := ProductID r'; Quantity := q |}).
    by rewrite Hb. }
  assert (Hdec : json_Unmarshal (Some body) = None).
  { unfold json_Unmarshal, body. cbn [mbind option_bind].
    rewrite store_struct_member; [done|]. intros r.
    change (WarehouseOrder_field "items"
              (Json.JArray (es1 ++ Json.JObject (ms1 ++ ("quantity", bad) :: ms2) :: es2)) r)
      with (l ← Json.store_slice (Json.store_struct CartItem_field) zero_CartItem
                  (Json.JArray (es1 ++ Json.JObject (ms1 ++ ("quantity", bad) :: ms2) :: es2))
                  (Items r.1) r.2;
            Some ({| OrderID := OrderID r.1; CartID := CartID r.1;
                     CustomerID := CustomerID r.1; Items := l.1;
                     Timestamp := Timestamp r.1 |}, l.2)).
    by rewrite (store_slice_failed _ _ _ _ _ _ _ Hitem). }
  split; [done|]. unfold process_delivery. simpl Body. by rewrite Hdec.
Qed.

Lemma bad_quantity_rejected_witness :
  process_delivery initial_stats
    {| DeliveryTag := 9;
       Body := Some (Json.JObject
                 [("order_id", Json.JString "O9");
                  ("items", Json.JArray
                     [Json.JObject [("product_id", Json.JString "P1");
                                    ("quantity", Json.JInt 1)];
                      Json.JObject [("product_id", Json.JString "P2");
                                    ("quantity", Json.JFrac "2.5")]])]) |}
  = (initial_stats, Nack false false).
Proof.
  apply (bad_quantity_rejected
           [("order_id", Json.JString "O9")] []
           [Json.JObject [("product_id", Json.JString "P1"); ("quantity", Json.JInt 1)]] []
           [("product_id", Json.JString "P2")] [] (Json.JFrac "2.5") 9 initial_stats);
    [discriminate|intros z Hz; discriminate Hz].
Defined.

End decoder_facts.

Section pool_theorems.
Import Warehouse WarehouseSpec PoolSpec.

Lemma stopped_hands ws : Forall (fun w => is_stopped w = true) ws → ws ≫= held = [].
Proof.
  induction 1 as [|w ws Hw _ IH]; [done|]. rewrite bind_cons, IH. by destruct w.
Qed.

Lemma settled_hands ws : total unsettled ws = 0 → ws ≫= held = [].
Proof.
  induction ws as [|w ws IH]; [done|]. rewrite total_cons, bind_cons. intros H.
  pose proof (total_nonneg unsettled ws unsettled_nonneg).
  pose proof (unsettled_nonneg w).
  rewrite IH by lia. destruct w; simpl in *; try done; lia.
Qed.

Lemma all_settled D s :
  invariant D s → length (broker s) = length D →
  queued s = [] ∧ total unsettled (workers s) = 0.
Proof.
  intros Hinv Hlen. pose proof (inv_settled _ _ Hinv) as H.
  pose proof (total_nonneg unsettled (workers s) unsettled_nonneg).
  split; [apply nil_length_inv|]; lia.
Qed.

Lemma settled_counts D s :
  invariant D s → length (broker s) = length D →
  totalOrders (stats s) = GoInt.wrap (total decodable D)
  ∧ ∀ p, quantity_of (productQty (stats s)) p = GoInt.wrap (total (delivery_quantity p) D).
Proof.
  intros Hinv Hlen. destruct (all_settled D s Hinv Hlen) as [Hq Hu].
  destruct Hinv as [_ _ [kc Hcnt] Hqty [Hr1 Hr2] _ _].
  rewrite Hq, total_nil in Hcnt.
  assert (Huc : total uncounted (workers s) = 0).
  { eapply (total_zero uncounted unsettled); [apply unsettled_nonneg| |done].
    intros [] ?; simpl in *; try done; lia. }
  split.
  { eapply eq_wrap_of_congr; [done|]. instantiate (1 := kc). lia. }
  intros p. destruct (Hqty p) as [k Hk]. rewrite Hq, total_nil in Hk.
  assert (Hown : total (owed p) (workers s) = 0).
  { eapply (total_zero (owed p) unsettled); [apply unsettled_nonneg| |done].
    intros [] ?; simpl in *; try done; lia. }
  eapply eq_wrap_of_congr; [apply Hr2|]. instantiate (1 := k). lia.
Qed.

Lemma verdicts_as_map (b : list (Delivery * Verdict)) :
  Forall (fun e => e.2 = verdict_of e.1) b →
  b = (fun msg => (msg, verdict_of msg)) <$> b.*1.
Proof.
  induction 1 as [|[msg v] b Hv _ IH]; [done|]. simpl in Hv. subst v.
  rewrite !fmap_cons. simpl. by f_equal.
Qed.

(** X20. Mutual exclusion in the worker pool.  In every state that an
    interleaving of the distributor and the workers reaches, at most one
    worker is between [productMutex.Lock()] and [productMutex.Unlock()],
    the mutex is taken exactly when there is such a worker, and a worker
    about to write [productQty[k]] holds the value the entry has at that
    moment: no update of the map is lost. *)
Theorem pool_mutual_exclusion n D schedule s :
  run schedule (start n D) = Some s →
  (∀ i j wi wj, workers s !! i = Some wi → workers s !! j = Some wj →
                critical wi = 1 → critical wj = 1 → i = j)
  ∧ (productMutex s = true ↔ ∃ i w, workers s !! i = Some w ∧ critical w = 1)
  ∧ (∀ i msg item rest old,
       workers s !! i = Some (Store msg item rest old) →
       old = quantity_of (productQty (stats s)) (ProductID item)).
Proof.
  intros Hrun. pose proof (run_pool_invariant _ _ _ _ Hrun) as Hinv.
  pose proof (inv_mutex _ _ Hinv) as Hmut. split_and!.
  - intros i j wi wj Hi Hj Hci Hcj. destruct (decide (i = j)) as [|Hne]; [done|].
    pose proof (total_two critical _ _ _ _ _ critical_nonneg Hne Hi Hj).
    destruct (productMutex s); lia.
  - split.
    + intros Hm. rewrite Hm in Hmut.
      destruct (total_positive critical (workers s)) as (i & w & Hi & Hw); [lia|].
      exists i, w. split; [done|]. by destruct w.
    + intros (i & w & Hi & Hw).
      pose proof (total_lookup_le critical _ _ _ critical_nonneg Hi).
      destruct (productMutex s); [done|lia].
  - apply (inv_loaded _ _ Hinv).
Qed.

Lemma pool_mutual_exclusion_witness :
  ∃ s, run (take 12 three_schedule) (start 2 three_deliveries) = Some s
       ∧ productMutex s = true
       ∧ ∃ i w, workers s !! i = Some w ∧ critical w = 1.
Proof.
  destruct (run (take 12 three_schedule) (start 2 three_deliveries)) as [s|] eqn:Hrun;
    [|vm_compute in Hrun; discriminate Hrun].
  assert (Hm : productMutex s = true).
  { vm_compute in Hrun. injection Hrun as <-. reflexivity. }
  exists s. split; [reflexivity|]. split; [exact Hm|].
  apply (pool_mutual_exclusion 2 three_deliveries (take 12 three_schedule) s Hrun).
  exact Hm.
Defined.

(** X21. The buffered channel and the goroutines' ends.  In every reachable
    state the channel holds at most [numWorkers*2] = 20 deliveries, the
    number of workers is the one started, the channel is closed exactly
    when the distributor has returned, which it does only after it has
    forwarded every delivery, and a worker has returned only if the
    channel is closed and drained. *)
Theorem pool_channel_discipline n D schedule s :
  run schedule (start n D) = Some s →
  (length (messageChan s) ≤ 20)%nat
  ∧ length (workers s) = n
  ∧ messageChan_closed s = distributor_done s
  ∧ (distributor_done s = true → msgs s = [])
  ∧ (∀ i, workers s !! i = Some Stopped →
          messageChan_closed s = true ∧ messageChan s = []).
Proof.
  intros Hrun. destruct (run_shutdown_invariant _ _ _ _ Hrun) as [H1 H2 H3 H4 H5].
  split_and!; try done.
  intros i Hi. apply H5, Exists_exists. exists Stopped. split; [|done].
  by eapply list_elem_of_lookup_2.
Qed.

Lemma pool_channel_discipline_witness :
  ∃ s, run three_schedule (start 2 three_deliveries) = Some s
       ∧ (length (messageChan s) ≤ 20)%nat
       ∧ length (workers s) = 2%nat
       ∧ messageChan_closed s = distributor_done s.
Proof.
  destruct (run three_schedule (start 2 three_deliveries)) as [s|] eqn:Hrun;
    [|vm_compute in Hrun; discriminate Hrun].
  exists s. split; [reflexivity|].
  destruct (pool_channel_discipline 2 three_deliveries three_schedule s Hrun)
    as (H1 & H2 & H3 & _).
  split; [exact H1|]. split; [exact H2|exact H3].
Defined.

(** X22. No delivery is lost and none is duplicated.  In every reachable
    state the deliveries settled with the broker, those waiting (with the
    distributor or in the channel) and those in the workers' hands are,
    together, the deliveries handed over, each one once; every verdict
    sent is the one the body calls for ([Ack(false)] if it decodes,
    [Nack(false, false)] if not); and if the delivery tags are distinct, no
    tag is settled twice. *)
Theorem pool_no_loss_no_duplication n D schedule s :
  run schedule (start n D) = Some s →
  accounted s ≡ₚ D
  ∧ Forall (fun e : Delivery * Verdict => e.2 = verdict_of e.1) (broker s)
  ∧ (NoDup (DeliveryTag <$> D) → NoDup (DeliveryTag <$> (broker s).*1)).
Proof.
  intros Hrun. pose proof (run_accounted _ _ _ _ Hrun) as Hacc.
  split; [done|]. split.
  - by destruct (run_verdicts _ _ _ (start_verdicts n D) Hrun).
  - intros Hnd. rewrite <- Hacc in Hnd. unfold accounted in Hnd.
    rewrite fmap_app in Hnd. by apply NoDup_app in Hnd as [? _].
Qed.

Lemma pool_no_loss_no_duplication_witness :
  ∃ s, run three_schedule (start 2 three_deliveries) = Some s
       ∧ accounted s ≡ₚ three_deliveries
       ∧ NoDup (DeliveryTag <$> (broker s).*1).
Proof.
  destruct (run three_schedule (start 2 three_deliveries)) as [s|] eqn:Hrun;
    [|vm_compute in Hrun; discriminate Hrun].
  exists s. split; [reflexivity|].
  destruct (pool_no_loss_no_duplication 2 three_deliveries three_schedule s Hrun)
    as (H1 & _ & H3).
  split; [exact H1|]. apply H3. clear. vm_compute.
  repeat (constructor; [rewrite list_elem_of_In; simpl; intuition discriminate|]).
  constructor.
Defined.

(** X23. The pool terminates.  Every action of the distributor or of a
    worker uses up exactly one of the actions the pool has left, so an
    interleaving of a pool of [n] workers started on the deliveries [D]
    has at most [1 + n + 2*|D| + sum of work] actions, where the work on a
    delivery is 1 action if its body does not decode and 4 + 4*items
    actions if it does. *)
Theorem pool_steps_bounded n D schedule s :
  run schedule (start n D) = Some s →
  Z.of_nat (length schedule) + steps_left s
  = 1 + Z.of_nat n + 2 * Z.of_nat (length D) + total work D
  ∧ 0 ≤ steps_left s
  ∧ Z.of_nat (length schedule) ≤ 1 + Z.of_nat n + 2 * Z.of_nat (length D) + total work D.
Proof.
  intros Hrun. pose proof (run_steps_left _ _ _ Hrun) as H.
  rewrite start_steps_left in H. pose proof (steps_left_nonneg s). lia.
Qed.

Lemma pool_steps_bounded_witness :
  ∃ s, run three_schedule (start 2 three_deliveries) = Some s
       ∧ Z.of_nat (length three_schedule) + steps_left s = 30.
Proof.
  destruct (run three_schedule (start 2 three_deliveries)) as [s|] eqn:Hrun;
    [|vm_compute in Hrun; discriminate Hrun].
  exists s. split; [reflexivity|].
  destruct (pool_steps_bounded 2 three_deliveries three_schedule s Hrun) as (H & _).
  rewrite H. vm_compute. reflexivity.
Defined.

(** X24. The pool blocks only when everything is settled, and [main]'s
    shutdown does not end it.  With at least one worker: in a pool with
    [msgs] closed behind the deliveries (the library closes it when the
    channel or the connection is shut down), in every reachable state
    either the distributor or some worker can take an action, or the
    distributor and every worker have returned ([wg.Wait()] returns); in
    that final state nobody can move, every delivery handed over has been
    settled exactly once, and the interleaving had exactly
    [1 + n + 2*|D| + sum of work] actions.  While [msgs] stays open, every
    reachable state is, but for the mark, one of the pool with [msgs]
    closed; the distributor and the workers never have all returned
    ([wg.Wait()] does not return); and either somebody can take an action,
    or every delivery handed over has been settled, nothing waits, and
    every worker waits on the channel.  And [main]'s reaction to a signal,
    [ch.Cancel("", false)] for a consumer that [ch.Consume(queueName, "",
    ...)] registered under a generated tag, leaves the pool as it is:
    [msgs] stays open. *)
Theorem pool_blocks_only_when_settled n D schedule s :
  (0 < n)%nat →
  (run schedule (start n D) = Some s →
     ((∃ a s', step a s = Some s') ∨ finished s)
     ∧ (finished s →
        (∀ a, step a s = None)
        ∧ (broker s).*1 ≡ₚ D
        ∧ Z.of_nat (length schedule)
          = 1 + Z.of_nat n + 2 * Z.of_nat (length D) + total work D))
  ∧ (run schedule (start_open n D) = Some s →
     run schedule (start n D) = Some (close_msgs s)
     ∧ ¬ finished s
     ∧ ((∃ a s', step a s = Some s')
        ∨ ((broker s).*1 ≡ₚ D ∧ queued s = []
           ∧ Forall (fun w => w = Receive) (workers s))))
  ∧ (∀ unique, cancel_on_signal unique s = s).
Proof.
  intros Hn.
  assert (Hfin : ∀ s, distributor_done s = true →
            Forall (fun w => is_stopped w = true) (workers s) → ∀ a, step a s = None).
  { intros s0 Hd Hst [|w]; simpl.
    - unfold step_distributor. by rewrite Hd.
    - unfold step_worker. destruct (workers s0 !! w) as [st|] eqn:Hw; simpl; [|done].
      pose proof (proj1 (Forall_lookup _ _) Hst _ _ Hw). by destruct st. }
  split_and!.
  - intros Hrun.
    pose proof (run_pool_invariant _ _ _ _ Hrun) as Hinv.
    pose proof (run_shutdown_invariant _ _ _ _ Hrun) as Hsh.
    assert (Hmc : msgs_closed s = true).
    { apply (run_preserves (fun s => msgs_closed s = true)) with schedule (start n D);
        [|done|done].
      intros a s1 s2 H1 Hs. by rewrite (step_msgs_closed _ _ _ Hs). }
    destruct (pool_progress n D s Hn Hinv Hsh)
      as [Hmove|[(Hd & Hq & Hst)|(Hopen & _)]]; [| |congruence].
    + split; [by left|]. intros [Hd Hst].
      destruct Hmove as (a & s' & Hstep). by rewrite (Hfin s Hd Hst a) in Hstep.
    + split; [by right|]. intros _. split_and!.
      * by apply Hfin.
      * pose proof (run_accounted _ _ _ _ Hrun) as Hacc. unfold accounted in Hacc.
        by rewrite Hq, (stopped_hands _ Hst), !app_nil_r in Hacc.
      * pose proof (run_steps_left _ _ _ Hrun) as H.
        rewrite start_steps_left, (finished_steps_left s Hd Hq Hst) in H. lia.
  - intros Hrun.
    pose proof (run_invariant D schedule _ _ (start_open_invariant n D) Hrun) as Hinv.
    assert (Hsh : shutdown_invariant n s).
    { apply (run_preserves (shutdown_invariant n)) with schedule (start_open n D);
        [|apply start_open_shutdown_invariant|done].
      intros a s1 s2. apply step_shutdown_invariant. }
    destruct (run_open schedule (start_open n D) s eq_refl eq_refl Hrun) as [Hmc Hnd].
    split_and!.
    + apply (run_close_msgs schedule (start_open n D) s Hrun).
    + intros [Hd _]. congruence.
    + destruct (pool_progress n D s Hn Hinv Hsh)
        as [Hmove|[(Hd & _)|(_ & _ & Hq & Hrecv)]]; [by left|congruence|].
      right. split; [|done].
      assert (Hacc : accounted s ≡ₚ D).
      { apply (run_preserves (fun s => accounted s ≡ₚ D)) with schedule (start_open n D);
          [|by rewrite start_open_accounted|done].
        intros a s1 s2 HP Hs. by rewrite (step_accounted _ _ _ Hs). }
      unfold accounted in Hacc. rewrite Hq in Hacc.
      assert (workers s ≫= held = []) as Hh.
      { clear -Hrecv. induction Hrecv as [|w ws -> _ IH]; [done|]. exact IH. }
      by rewrite Hh, !app_nil_r in Hacc.
  - intros unique. reflexivity.
Qed.

Lemma pool_blocks_only_when_settled_witness :
  ∃ s, run three_schedule_open (start_open 2 three_deliveries) = Some s
       ∧ run three_schedule_open (start 2 three_deliveries) = Some (close_msgs s)
       ∧ ¬ finished s
       ∧ cancel_on_signal "warehouse-1" s = s.
Proof.
  destruct (run three_schedule_open (start_open 2 three_deliveries)) as [s|] eqn:Hrun;
    [|vm_compute in Hrun; discriminate Hrun].
  exists s. split; [reflexivity|].
  destruct (pool_blocks_only_when_settled 2 three_deliveries three_schedule_open s)
    as (_ & Hopen & Hcancel); [lia|].
  destruct (Hopen Hrun) as (H1 & H2 & _).
  split; [exact H1|]. split; [exact H2|exact (Hcancel "warehouse-1")].
Defined.

(** X25. The pool computes what one worker alone computes.  Once every
    delivery handed over has been settled - acknowledged or rejected -
    the counters are those that [processMessages], run by a single worker
    over the same deliveries in the order they came, leaves behind, and
    the verdicts are the same up to their order, whatever the
    interleaving was and however many bodies failed to decode. *)
Theorem pool_matches_sequential n D schedule s :
  run schedule (start n D) = Some s →
  length (broker s) = length D →
  totalOrders (stats s) = totalOrders (processMessages initial_stats D).1
  ∧ (∀ p, quantity_of (productQty (stats s)) p
          = quantity_of (productQty (processMessages initial_stats D).1) p)
  ∧ broker s ≡ₚ (processMessages initial_stats D).2.
Proof.
  intros Hrun Hlen.
  pose proof (run_pool_invariant _ _ _ _ Hrun) as Hinv.
  destruct (settled_counts D s Hinv Hlen) as [Hc Hq].
  destruct (all_settled D s Hinv Hlen) as [Hqu Hu].
  destruct (processMessages_counts D initial_stats 0 eq_refl) as [Hs1 Hs2].
  split_and!.
  - by rewrite Hc, Hs1.
  - intros p. rewrite Hq, (Hs2 p 0) by done. done.
  - rewrite processMessages_verdicts.
    destruct (run_verdicts _ _ _ (start_verdicts n D) Hrun) as [_ Hv].
    rewrite (verdicts_as_map _ Hv). apply fmap_Permutation.
    pose proof (run_accounted _ _ _ _ Hrun) as Hacc. unfold accounted in Hacc.
    by rewrite Hqu, (settled_hands _ Hu), !app_nil_r in Hacc.
Qed.

Lemma pool_matches_sequential_witness :
  ∃ s, run three_schedule (start 2 three_deliveries) = Some s
       ∧ totalOrders (stats s) = 2
       ∧ quantity_of (productQty (stats s)) "P1" = 7.
Proof.
  destruct (run three_schedule (start 2 three_deliveries)) as [s|] eqn:Hrun;
    [|vm_compute in Hrun; discriminate Hrun].
  assert (Hlen : length (broker s) = length three_deliveries).
  { vm_compute in Hrun. injection Hrun as <-. reflexivity. }
  exists s. split; [reflexivity|].
  destruct (pool_matches_sequential 2 three_deliveries three_schedule s Hrun Hlen)
    as (H1 & H2 & _).
  split; [rewrite H1|rewrite (H2 "P1")]; vm_compute; reflexivity.
Defined.

End pool_theorems.
